(** * cbs: the cinema booking store

    A shallow embedding of [stringidmap.cpp], [bookingdata.cpp],
    [commandexecution.cpp], [request.cpp], [requestparser.cpp],
    [initbookingdata.cpp] and of the part of [network.cpp] between reading
    a request and writing the reply; the properties of the booking store
    that its specification states, and further properties of the code.

    Conventions of the embedding.
    - [unsigned long] and [size_t] are 64-bit: values are [N], and the
      arithmetic the code does on them ([++next_id], [++count]) wraps
      modulo 2^64; [unsigned] is 32-bit.
    - A [std::unordered_set] that is passed in and iterated is given as the
      list its iteration yields: the order is whatever the container
      produces, the elements are pairwise distinct, and two loops over the
      same unmodified set see the same list.
    - A [std::unordered_map] member is a [gmap]; a loop over it visits
      [map_to_list], an order fixed by the contents of the map.
    - A [std::shared_ptr<std::string>] cache is an immutable snapshot and is
      held by value; every [CinemaRoom] has one owner (the [rooms] map), so
      rooms are held by value as well.
    - The locks are not modelled: every method body runs atomically.
    - A method that can throw runs in a state-and-exception monad: the
      state reached when the exception is thrown is part of the outcome. *)

From Stdlib Require Import NArith ZArith String Ascii List Lia.
From stdpp Require Import base option list sorting gmap strings pretty.

Local Open Scope string_scope.
#[local] Set Warnings "-clear-no-such-hyp".

(** ** common.hpp *)

Definition CBS_EOL : string :=
  String "013"%char (String "010"%char EmptyString).

(** ** Machine integers *)

Definition ULONG_WIDTH : N := 64.
Definition ULONG_MODULUS : N := (2 ^ ULONG_WIDTH)%N.

(** [++x] on an [unsigned long]. *)
Definition ulong_incr (x : N) : N := ((x + 1) mod ULONG_MODULUS)%N.

(** ** Exceptions and the monad of a throwing method *)

Inductive exn : Type :=
  | invalid_argument (what : string)
  | runtime_error (what : string)
  | out_of_range.

Inductive res (A : Type) : Type :=
  | Ok (a : A)
  | Throw (e : exn).
Arguments Ok {A} a.
Arguments Throw {A} e.

Definition M (S A : Type) : Type := S → res A * S.

Global Instance M_ret {S} : MRet (M S) := λ A a s, (Ok a, s).

Global Instance M_bind {S} : MBind (M S) := λ A B k m s,
  match m s with
  | (Ok a, s') => k a s'
  | (Throw e, s') => (Throw e, s')
  end.

Definition throw {S A} (e : exn) : M S A := λ s, (Throw e, s).
Definition get {S} : M S S := λ s, (Ok s, s).
Definition put {S} (s : S) : M S unit := λ _, (Ok tt, s).

(** A call of a [const] method: it reads the state and may throw. *)
Definition const_call {S A} (f : S → res A) : M S A := λ s, (f s, s).

(** A range-based [for] whose body may throw. *)
Fixpoint for_each {S A} (l : list A) (body : A → M S unit) : M S unit :=
  match l with
  | [] => mret tt
  | x :: rest => body x ;; for_each rest body
  end.

(** [std::unordered_map::at]. *)
Definition map_at {V} (m : gmap N V) (k : N) : res V :=
  match m !! k with
  | Some v => Ok v
  | None => Throw out_of_range
  end.

(** What is read through the [const char*] that [std::string::c_str]
    returns: the characters before the first NUL. *)
Fixpoint c_str (s : string) : string :=
  match s with
  | EmptyString => EmptyString
  | String c rest =>
      if Ascii.eqb c "000"%char then EmptyString else String c (c_str rest)
  end.

(** ** stringidmap.cpp *)

Module StringIdMap.

Record t : Type := mk {
  next_id : N;
  id_strings : gmap N string;
  strings : gset string;
  cached_list : string
}.

(** [StringIdMap::StringIdMap]. *)
Definition new : t :=
  {| next_id := 1; id_strings := ∅; strings := ∅; cached_list := "" |}.

(** The body of the loop of [rebuild_cache]: one [ss << ...] statement. *)
Definition rebuild_cache_step (ss : string) (entry : N * string) : string :=
  ss ++ pretty entry.1 ++ "," ++ entry.2 ++ CBS_EOL.

(** [StringIdMap::rebuild_cache]. *)
Definition rebuild_cache (m : t) : t :=
  let ss := fold_left rebuild_cache_step (map_to_list (id_strings m)) "" in
  {| next_id := next_id m; id_strings := id_strings m;
     strings := strings m; cached_list := ss |}.

(** First loop of [add]: throw if a name is already stored. *)
Definition add_check (strings_in : list string) : M t unit :=
  for_each strings_in (λ name,
    m ← get;
    if decide (name ∈ strings m)
    then throw (invalid_argument "Name already exists.")
    else mret tt).

(** One iteration of the second loop of [add]. *)
Definition add_one (name : string) (m : t) : t :=
  {| next_id := ulong_incr (next_id m);
     id_strings := <[next_id m := c_str name]> (id_strings m);
     strings := {[name]} ∪ strings m;
     cached_list := cached_list m |}.

(** Second loop of [add]; [inserted_ids] is the local vector. *)
Fixpoint add_insert (strings_in : list string) (inserted_ids : list N)
    : M t (list N) :=
  match strings_in with
  | [] => mret inserted_ids
  | name :: rest =>
      m ← get;
      put (add_one name m);;
      add_insert rest (inserted_ids ++ [next_id m])
  end.

(** [StringIdMap::add]. *)
Definition add (strings_in : list string) : M t (list N) :=
  add_check strings_in;;
  inserted_ids ← add_insert strings_in [];
  m ← get;
  put (rebuild_cache m);;
  mret inserted_ids.

(** [StringIdMap::get_id_string_list]. *)
Definition get_id_string_list (m : t) : string := cached_list m.

(** [StringIdMap::has_id]. *)
Definition has_id (string_id : N) (m : t) : bool :=
  bool_decide (is_Some (id_strings m !! string_id)).

(** [StringIdMap::get_string]. *)
Definition get_string (string_id : N) (m : t) : res string :=
  map_at (id_strings m) string_id.

(** [StringIdMap::get_sorted_keys]; the [std::set] is a [gset]. *)
Definition get_sorted_keys (m : t) : gset N :=
  fold_left (λ (keys : gset N) (entry : N * string), {[entry.1]} ∪ keys)
            (map_to_list (id_strings m)) ∅.

(** [StringIdMap::clear]. *)
Definition clear (m : t) : t :=
  rebuild_cache
    {| next_id := next_id m; id_strings := ∅; strings := ∅;
       cached_list := cached_list m |}.

End StringIdMap.

(** ** bookingdata.hpp *)

Definition SEATS_PER_ROOM : nat := 20.

Inductive BookingResult : Type := ACCEPTED | NOT_AVAILABLE | INVALID.

Global Instance BookingResult_eq_dec : EqDecision BookingResult.
Proof. solve_decision. Defined.

(** ** bookingdata.cpp: class CinemaRoom *)

Module CinemaRoom.

(** [seat_available] is a [std::array<bool, SEATS_PER_ROOM>]: a list whose
    length is [SEATS_PER_ROOM] in every room the constructor makes. *)
Record t : Type := mk {
  seat_cache : string;
  seat_available : list bool
}.

(** The body of the loop of [rebuild_cache]; the loop state is the
    [first] flag and the stream. *)
Definition rebuild_cache_step (seat_available : list bool)
    (st : bool * string) (idx : nat) : bool * string :=
  if (seat_available !!! idx : bool) then
    let ss := if st.1 then st.2 else st.2 ++ "," in
    (false, ss ++ pretty (N.of_nat idx))
  else st.

(** [CinemaRoom::rebuild_cache]. *)
Definition rebuild_cache (r : t) : t :=
  let st := fold_left (rebuild_cache_step (seat_available r))
                      (seq 0 (length (seat_available r))) (true, "") in
  {| seat_cache := st.2 ++ CBS_EOL; seat_available := seat_available r |}.

(** [CinemaRoom::CinemaRoom]. *)
Definition new : t :=
  rebuild_cache
    {| seat_cache := ""; seat_available := replicate SEATS_PER_ROOM true |}.

(** [CinemaRoom::get_seats]. *)
Definition get_seats (r : t) : string := seat_cache r.

(** First loop of [book_seats]: [Some] is the value of an early
    [return], [None] means the loop ran to its end. *)
Fixpoint book_check (seat_available : list bool) (seats_to_book : list N)
    : option BookingResult :=
  match seats_to_book with
  | [] => None
  | seat :: rest =>
      if (N.of_nat (length seat_available) <=? seat)%N then Some INVALID
      else if negb (seat_available !!! N.to_nat seat : bool) then Some NOT_AVAILABLE
      else book_check seat_available rest
  end.

(** Second loop of [book_seats]. *)
Definition book_mark (seat_available : list bool) (seats_to_book : list N)
    : list bool :=
  fold_left (λ sa seat, <[N.to_nat seat := false]> sa)
            seats_to_book seat_available.

(** [CinemaRoom::book_seats]. *)
Definition book_seats (seats_to_book : list N) (r : t) : BookingResult * t :=
  match book_check (seat_available r) seats_to_book with
  | Some result => (result, r)
  | None =>
      (ACCEPTED,
       rebuild_cache
         {| seat_cache := seat_cache r;
            seat_available := book_mark (seat_available r) seats_to_book |})
  end.

End CinemaRoom.

(** ** bookingdata.cpp: class BookingData *)

Module BookingData.

Record t : Type := mk {
  movie_list : StringIdMap.t;
  theater_list : StringIdMap.t;
  rooms : gmap N (gmap N CinemaRoom.t);
  theaters_per_movie_cache : gmap N string
}.

Definition set_movie_list (ml : StringIdMap.t) (s : t) : t :=
  {| movie_list := ml; theater_list := theater_list s; rooms := rooms s;
     theaters_per_movie_cache := theaters_per_movie_cache s |}.

Definition set_theater_list (tl : StringIdMap.t) (s : t) : t :=
  {| movie_list := movie_list s; theater_list := tl; rooms := rooms s;
     theaters_per_movie_cache := theaters_per_movie_cache s |}.

Definition set_rooms (rs : gmap N (gmap N CinemaRoom.t)) (s : t) : t :=
  {| movie_list := movie_list s; theater_list := theater_list s; rooms := rs;
     theaters_per_movie_cache := theaters_per_movie_cache s |}.

Definition set_cache (c : gmap N string) (s : t) : t :=
  {| movie_list := movie_list s; theater_list := theater_list s;
     rooms := rooms s; theaters_per_movie_cache := c |}.

(** A call of a method of the member [movie_list]. *)
Definition on_movie_list {A} (f : M StringIdMap.t A) : M t A := λ s,
  let '(r, ml) := f (movie_list s) in (r, set_movie_list ml s).

(** A call of a method of the member [theater_list]. *)
Definition on_theater_list {A} (f : M StringIdMap.t A) : M t A := λ s,
  let '(r, tl) := f (theater_list s) in (r, set_theater_list tl s).

(** The loop of [rebuild_cache(movie_id)]; [ss] is the stream. *)
Fixpoint rebuild_cache_loop (rooms_for_movie : list (N * CinemaRoom.t))
    (ss : string) : M t string :=
  match rooms_for_movie with
  | [] => mret ss
  | (theater_id, _) :: rest =>
      name ← const_call (λ s,
                StringIdMap.get_string theater_id (theater_list s));
      rebuild_cache_loop rest
        (ss ++ pretty theater_id ++ "," ++ name ++ CBS_EOL)
  end.

(** [BookingData::rebuild_cache(MovieId)]. *)
Definition rebuild_cache (movie_id : N) : M t unit :=
  movie_title ← const_call (λ s,
                   StringIdMap.get_string movie_id (movie_list s));
  rooms_for_movie ← const_call (λ s, map_at (rooms s) movie_id);
  ss ← rebuild_cache_loop (map_to_list rooms_for_movie) "";
  s ← get;
  put (set_cache (<[movie_id := ss]> (theaters_per_movie_cache s)) s).

(** [BookingData::rebuild_cache()]. *)
Definition rebuild_cache_all : M t unit :=
  s ← get;
  put (set_cache ∅ s);;
  s ← get;
  for_each (map_to_list (rooms s)) (λ entry, rebuild_cache entry.1).

(** [BookingData::BookingData]. *)
Definition new : t :=
  (rebuild_cache_all
     {| movie_list := StringIdMap.new; theater_list := StringIdMap.new;
        rooms := ∅; theaters_per_movie_cache := ∅ |}).2.

(** [BookingData::get_movies]. *)
Definition get_movies (s : t) : string :=
  StringIdMap.get_id_string_list (movie_list s).

(** [BookingData::get_sorted_movie_ids]. *)
Definition get_sorted_movie_ids (s : t) : gset N :=
  StringIdMap.get_sorted_keys (movie_list s).

(** [BookingData::get_theaters_for_movie]. *)
Definition get_theaters_for_movie (movie_id : N) (s : t) : res string :=
  map_at (theaters_per_movie_cache s) movie_id.

(** [BookingData::get_sorted_theater_ids]. *)
Definition get_sorted_theater_ids (s : t) : gset N :=
  StringIdMap.get_sorted_keys (theater_list s).

(** [BookingData::get_available_seats]. *)
Definition get_available_seats (movie_id theater_id : N) (s : t)
    : res string :=
  match map_at (rooms s) movie_id with
  | Throw e => Throw e
  | Ok rooms_for_movie =>
      match map_at rooms_for_movie theater_id with
      | Throw e => Throw e
      | Ok room => Ok (CinemaRoom.get_seats room)
      end
  end.

(** [BookingData::book_seats]; the room is reached through a pointer, so
    its new state is written back where it was found. *)
Definition book_seats (movie_id theater_id : N) (seats : list N)
    : M t BookingResult :=
  rooms_for_movie ← const_call (λ s, map_at (rooms s) movie_id);
  room ← const_call (λ _, map_at rooms_for_movie theater_id);
  let '(result, room') := CinemaRoom.book_seats seats room in
  s ← get;
  put (set_rooms
         (<[movie_id := <[theater_id := room']> rooms_for_movie]> (rooms s))
         s);;
  mret result.

(** [BookingData::add_movies]. *)
Definition add_movies (movies : list string) : M t unit :=
  inserted_ids ← on_movie_list (StringIdMap.add movies);
  for_each inserted_ids (λ movie_id,
    s ← get;
    put (set_rooms (<[movie_id := ∅]> (rooms s)) s);;
    rebuild_cache movie_id).

(** [BookingData::add_theaters]. *)
Definition add_theaters (theaters : list string) : M t unit :=
  on_theater_list (StringIdMap.add theaters);;
  mret tt.

(** [rooms_for_this_movie.emplace(theater_id, cinema_room)] through the
    reference into [rooms]: [emplace] keeps an element that is there. *)
Definition emplace_room (movie_id theater_id : N) (cinema_room : CinemaRoom.t)
    (s : t) : t :=
  set_rooms
    (alter (λ rooms_for_this_movie,
              match rooms_for_this_movie !! theater_id with
              | Some _ => rooms_for_this_movie
              | None => <[theater_id := cinema_room]> rooms_for_this_movie
              end) movie_id (rooms s))
    s.

(** [BookingData::add_theaters_to_movie]. *)
Definition add_theaters_to_movie (movie_id : N) (theaters : list N)
    : M t unit :=
  _ ← const_call (λ s, map_at (rooms s) movie_id);
  for_each theaters (λ theater_id,
    rooms_for_this_movie ← const_call (λ s, map_at (rooms s) movie_id);
    if decide (is_Some (rooms_for_this_movie !! theater_id))
    then throw (runtime_error "Theater already displaying the movie")
    else mret tt);;
  for_each theaters (λ theater_id,
    s ← get;
    put (emplace_room movie_id theater_id CinemaRoom.new s));;
  rebuild_cache movie_id.

(** [BookingData::clear]. *)
Definition clear : M t unit :=
  s ← get;
  put {| movie_list := StringIdMap.clear (movie_list s);
         theater_list := StringIdMap.clear (theater_list s);
         rooms := ∅;
         theaters_per_movie_cache := ∅ |};;
  rebuild_cache_all.

End BookingData.


(** ** commandexecution.hpp, commandexecution.cpp

    The commands act on the singleton [BookingData::get_instance()]: the
    store is the state they read and, for [book], change. *)

Inductive CommandStatus : Type := OK | INVALID_REQ | REJECTED.

Global Instance CommandStatus_eq_dec : EqDecision CommandStatus.
Proof. solve_decision. Defined.

(** [CommandResult]: the body of the reply and the status. *)
Definition CommandResult : Type := string * CommandStatus.

(** [list_movies]. *)
Definition list_movies (s : BookingData.t) : CommandResult :=
  (BookingData.get_movies s, OK).

(** [list_theaters]; [catch(...)] takes every exception. *)
Definition list_theaters (movie_id : N) (s : BookingData.t) : CommandResult :=
  match BookingData.get_theaters_for_movie movie_id s with
  | Ok body => (body, OK)
  | Throw _ => ("Invalid movieid" ++ CBS_EOL, INVALID_REQ)
  end.

(** [list_seats]. *)
Definition list_seats (movie_id theater_id : N) (s : BookingData.t)
    : CommandResult :=
  match BookingData.get_available_seats movie_id theater_id s with
  | Ok body => (body, OK)
  | Throw _ =>
      ("Invalid combination of movieid and theaterid" ++ CBS_EOL, INVALID_REQ)
  end.

(** [book]. *)
Definition book (movie_id theater_id : N) (seat_numbers : list N)
    (s : BookingData.t) : CommandResult * BookingData.t :=
  match BookingData.book_seats movie_id theater_id seat_numbers s with
  | (Ok booking_result, s') =>
      if decide (booking_result = ACCEPTED) then
        (("Booking OK" ++ CBS_EOL, OK), s')
      else if decide (booking_result = NOT_AVAILABLE) then
        (("Seats not available" ++ CBS_EOL, REJECTED), s')
      else
        (("Invalid movieid, theaterid or seatnumbers" ++ CBS_EOL, INVALID_REQ),
         s')
  | (Throw _, s') =>
      (("Invalid movieid, theaterid or seatnumbers" ++ CBS_EOL, INVALID_REQ),
       s')
  end.

(** ** request.hpp, request.cpp

    The class hierarchy under [Request] is one inductive type, a virtual
    method is a function by cases on it. [seat_nums] is the list that
    iterating the [std::unordered_set] yields. *)

Module Request.

(** [enum Request::Type]. *)
Inductive Kind : Type := LIST_MOVIES | LIST_THEATERS | LIST_SEATS | BOOK | INVALID.

Inductive t : Type :=
  | RequestListMovies
  | RequestListTheaters (movie_id : N)
  | RequestListSeats (movie_id theater_id : N)
  | RequestBook (movie_id theater_id : N) (seat_nums : list N)
  | RequestInvalid.

(** [get_type]. *)
Definition get_type (r : t) : Kind :=
  match r with
  | RequestListMovies => LIST_MOVIES
  | RequestListTheaters _ => LIST_THEATERS
  | RequestListSeats _ _ => LIST_SEATS
  | RequestBook _ _ _ => BOOK
  | RequestInvalid => INVALID
  end.

(** [execute]. *)
Definition execute (r : t) (s : BookingData.t) : CommandResult * BookingData.t :=
  match r with
  | RequestListMovies => (list_movies s, s)
  | RequestListTheaters movie_id => (list_theaters movie_id s, s)
  | RequestListSeats movie_id theater_id =>
      (list_seats movie_id theater_id s, s)
  | RequestBook movie_id theater_id seat_nums =>
      book movie_id theater_id seat_nums s
  | RequestInvalid => (("Invalid request" ++ CBS_EOL, INVALID_REQ), s)
  end.

End Request.

(** ** requestparser.cpp

    The three regular expressions are made of a fixed prefix, runs of
    decimal digits ([\d+]) and single underscores. A digit is never an
    underscore, so there is one way to match: each run of digits is the
    longest one. [std::regex_match] matches the whole input. *)

(** The value of a decimal digit, [None] for any other character. *)
Definition digit_value (c : ascii) : option N :=
  let code := N_of_ascii c in
  if ((48 <=? code) && (code <=? 57))%N then Some (code - 48)%N else None.

(** The input without the prefix [p], when it starts with [p]. *)
Fixpoint strip_prefix (p input : string) : option string :=
  match p, input with
  | EmptyString, _ => Some input
  | String a p', String b input' =>
      if Ascii.eqb a b then strip_prefix p' input' else None
  | String _ _, EmptyString => None
  end.

(** The longest run of digits at the start of the input, and the rest. *)
Fixpoint span_digits (input : string) : string * string :=
  match input with
  | EmptyString => (EmptyString, EmptyString)
  | String c rest =>
      match digit_value c with
      | Some _ => let '(run, rest') := span_digits rest in (String c run, rest')
      | None => (EmptyString, input)
      end
  end.

(** [\d+] at the start of the input: the captured run and the rest. *)
Definition match_digits (input : string) : option (string * string) :=
  match span_digits input with
  | (EmptyString, _) => None
  | (run, rest) => Some (run, rest)
  end.

(** A single underscore at the start of the input: the rest. *)
Definition match_underscore (input : string) : option string :=
  match input with
  | String c rest => if Ascii.eqb c "_"%char then Some rest else None
  | EmptyString => None
  end.

(** [regex_theaters] = [^\/api\/listtheaters_(\d+)$]: the capture. *)
Definition regex_theaters (input : string) : option string :=
  rest ← strip_prefix "/api/listtheaters_" input;
  '(g1, rest) ← match_digits rest;
  if decide (rest = "") then Some g1 else None.

(** [regex_seats] = [^\/api\/listseats_(\d+)_(\d+)$]: the two captures. *)
Definition regex_seats (input : string) : option (string * string) :=
  rest ← strip_prefix "/api/listseats_" input;
  '(g1, rest) ← match_digits rest;
  rest ← match_underscore rest;
  '(g2, rest) ← match_digits rest;
  if decide (rest = "") then Some (g1, g2) else None.

(** [(_\d+){0,n}$]: at most [n] more groups up to the end of the input. *)
Fixpoint match_more_seats (n : nat) (input : string) : bool :=
  match input with
  | EmptyString => true
  | _ =>
      match n with
      | O => false
      | S n' =>
          match match_underscore input with
          | None => false
          | Some rest =>
              match match_digits rest with
              | None => false
              | Some (_, rest') => match_more_seats n' rest'
              end
          end
      end
  end.

(** [REGEX_BOOK] = [^\/api\/book_(\d+)_(\d+)_(\d+(_\d+){0,19})$]: captures
    1, 2 and 3. *)
Definition REGEX_BOOK (input : string) : option (string * string * string) :=
  rest ← strip_prefix "/api/book_" input;
  '(g1, rest) ← match_digits rest;
  rest ← match_underscore rest;
  '(g2, rest) ← match_digits rest;
  g3 ← match_underscore rest;
  '(_, rest) ← match_digits g3;
  if match_more_seats 19 rest then Some (g1, g2, g3) else None.

(** The digits of a string read as a decimal number, most significant
    first; [None] when a character is not a digit. *)
Fixpoint decimal_value (str : string) (acc : N) : option N :=
  match str with
  | EmptyString => Some acc
  | String c rest =>
      match digit_value c with
      | Some d => decimal_value rest (10 * acc + d)%N
      | None => None
      end
  end.

(** [std::stoul] on the strings this file passes to it, which are captures
    of [\d+]: the value, or [std::out_of_range] when it does not fit an
    [unsigned long]. A string that is empty or has another character has no
    conversion here ([std::invalid_argument]). *)
Definition stoul (str : string) : res N :=
  match str with
  | EmptyString => Throw (invalid_argument "stoul")
  | _ =>
      match decimal_value str 0 with
      | None => Throw (invalid_argument "stoul")
      | Some value =>
          if (value <? ULONG_MODULUS)%N then Ok value else Throw out_of_range
      end
  end.

(** The strings that the loop [while (std::getline(stream, seat_str, '_'))]
    reads: the pieces between underscores; the loop ends when nothing is
    left to extract, so there is no empty piece after a last underscore.
    [cur] is the piece being read. *)
Fixpoint getline_all (stream : string) (cur : string) : list string :=
  match stream with
  | EmptyString => if decide (cur = "") then [] else [cur]
  | String c rest =>
      if Ascii.eqb c "_"%char then cur :: getline_all rest ""
      else getline_all rest (cur ++ String c "")
  end.

(** The loop of [parse_request_book]; [seat_numbers] lists the set in the
    order of insertion. *)
Fixpoint parse_request_book_loop (movie_id theater_id : N)
    (seat_strs : list string) (seat_numbers : list N) : res Request.t :=
  match seat_strs with
  | [] => Ok (Request.RequestBook movie_id theater_id seat_numbers)
  | seat_str :: rest =>
      match stoul seat_str with
      | Throw e => Throw e
      | Ok seat =>
          if decide (seat ∈ seat_numbers) then Ok Request.RequestInvalid
          else parse_request_book_loop movie_id theater_id rest
                 (seat_numbers ++ [seat])
      end
  end.

(** [parse_request_book]. *)
Definition parse_request_book (match_ : string * string * string)
    : res Request.t :=
  let '(g1, g2, g3) := match_ in
  match stoul g1 with
  | Throw e => Throw e
  | Ok movie_id =>
      match stoul g2 with
      | Throw e => Throw e
      | Ok theater_id =>
          parse_request_book_loop movie_id theater_id (getline_all g3 "") []
      end
  end.

(** The [try] block of [parse_request]. *)
Definition parse_request_try (input : string) : res Request.t :=
  if decide (input = "/api/listmovies") then Ok Request.RequestListMovies
  else
    match regex_theaters input with
    | Some g1 =>
        match stoul g1 with
        | Ok movie_id => Ok (Request.RequestListTheaters movie_id)
        | Throw e => Throw e
        end
    | None =>
        match regex_seats input with
        | Some (g1, g2) =>
            match stoul g1 with
            | Throw e => Throw e
            | Ok movie_id =>
                match stoul g2 with
                | Throw e => Throw e
                | Ok theater_id =>
                    Ok (Request.RequestListSeats movie_id theater_id)
                end
            end
        | None =>
            match REGEX_BOOK input with
            | Some match_ => parse_request_book match_
            | None => Ok Request.RequestInvalid
            end
        end
    end.

(** [parse_request]. *)
Definition parse_request (input : string) : Request.t :=
  match parse_request_try input with
  | Ok request => request
  | Throw _ => Request.RequestInvalid
  end.

(** ** network.cpp *)

(** The three values of [boost::beast::http::status] that are used. *)
Inductive http_status : Type := http_ok | http_forbidden | http_bad_request.

(** [translate_command_status]. *)
Definition translate_command_status (command_status : CommandStatus)
    : http_status :=
  match command_status with
  | OK => http_ok
  | REJECTED => http_forbidden
  | INVALID_REQ => http_bad_request
  end.

(** The order in which the seat set of a parsed request is iterated is the
    container's choice: [iteration_order] maps the elements in the order of
    insertion to the order of iteration. *)
Definition iterate_seats (iteration_order : list N → list N) (r : Request.t)
    : Request.t :=
  match r with
  | Request.RequestBook movie_id theater_id seat_nums =>
      Request.RequestBook movie_id theater_id (iteration_order seat_nums)
  | _ => r
  end.

(** [handle_command] between reading the request and writing the reply:
    from the target of the request to the status and body of the reply. *)
Definition handle_command (iteration_order : list N → list N)
    (target : string) (s : BookingData.t)
    : (http_status * string) * BookingData.t :=
  let parsed_req := iterate_seats iteration_order (parse_request target) in
  let '((body, command_status), s') := Request.execute parsed_req s in
  ((translate_command_status command_status, body), s').

(** ** initbookingdata.cpp

    The functions of this file work on the store and on two function-local
    [static] variables: [state] of [fast_random] and [fixed_theaters] of
    [add_fixed_theaters_to_movie]. An [std::unordered_set] under
    construction is the list of its elements in the order of insertion; in
    which order the store iterates a set it is handed is the container's
    choice: [string_order] and [id_order] map the elements in the order of
    insertion to the order of iteration. An [std::set] is iterated in
    ascending order. *)

(** The width of [unsigned]. *)
Definition UINT_WIDTH : Z := 32.
Definition UINT_MODULUS : Z := 2 ^ UINT_WIDTH.

(** [std::unordered_set::insert]: an element that is there is kept. *)
Definition unordered_insert `{EqDecision A} (x : A) (l : list A) : list A :=
  if decide (x ∈ l) then l else (l ++ [x])%list.

(** The elements of an [std::set] in the order of iteration. *)
Definition set_ascending (X : gset N) : list N :=
  merge_sort N.le (elements X).

Module InitState.

Record t : Type := mk {
  booking_data : BookingData.t;
  state : Z;
  fixed_theaters : list N
}.

Definition set_booking_data (s : BookingData.t) (st : t) : t :=
  {| booking_data := s; state := state st;
     fixed_theaters := fixed_theaters st |}.

Definition set_state (x : Z) (st : t) : t :=
  {| booking_data := booking_data st; state := x;
     fixed_theaters := fixed_theaters st |}.

Definition set_fixed_theaters (l : list N) (st : t) : t :=
  {| booking_data := booking_data st; state := state st;
     fixed_theaters := l |}.

(** The values the statics are initialised with, around a store. *)
Definition new (s : BookingData.t) : t :=
  {| booking_data := s; state := 305419896; fixed_theaters := [] |}.

End InitState.

(** A call of a method of [BookingData::get_instance()]. *)
Definition on_booking_data {A} (f : M BookingData.t A) : M InitState.t A :=
  λ st,
  let '(r, s) := f (InitState.booking_data st) in
  (r, InitState.set_booking_data s st).

(** The ten titles that [init_movie_list] inserts first. *)
Definition real_movies : list string :=
  ["The Godfather"; "A night at the opera"; "Pulp Fiction"; "Seven Samurai";
   "Terminator 2: Judgment Day"; "AKIRA"; "Bilal: A New Breed of Hero";
   String "194"%char (String "161"%char "Bienvenido Mr. Marshall!");
   "Lucky Baskhar"; "Fist of Fury"].

(** The loop [for (int idx=0; idx<10000; ++idx)] of [init_movie_list] and
    of [init_theater_list]: [names] is the set, [prefix] the text before
    the number. *)
Definition insert_fake_names (prefix : string) (count : nat)
    (names : list string) : list string :=
  fold_left (λ names idx,
               unordered_insert (prefix ++ pretty (N.of_nat idx)) names)
            (seq 0 count) names.

(** The set [movie_titles] that [init_movie_list] has built when it calls
    the store. *)
Definition movie_titles : list string :=
  insert_fake_names
    "Movie " (N.to_nat 10000)
    (fold_left (λ titles title, unordered_insert title titles)
               real_movies []).

(** [init_movie_list]. *)
Definition init_movie_list (string_order : list string → list string)
    : M InitState.t unit :=
  on_booking_data (BookingData.add_movies (string_order movie_titles)).

(** The set [theater_names] that [init_theater_list] has built when it
    calls the store. *)
Definition theater_names : list string :=
  insert_fake_names "theater " (N.to_nat 10000) [].

(** [init_theater_list]. *)
Definition init_theater_list (string_order : list string → list string)
    : M InitState.t unit :=
  on_booking_data (BookingData.add_theaters (string_order theater_names)).

(** The loop of [add_fixed_theaters_to_movie]. *)
Fixpoint fixed_theaters_loop (theaters : list N) (count : N)
    (fixed_theaters : list N) : list N :=
  match theaters with
  | [] => fixed_theaters
  | theater_id :: rest =>
      if (10 <=? count)%N then fixed_theaters
      else fixed_theaters_loop rest (ulong_incr count)
                               (unordered_insert theater_id fixed_theaters)
  end.

(** [add_fixed_theaters_to_movie]. *)
Definition add_fixed_theaters_to_movie (id_order : list N → list N)
    (movie_id : N) (theaters : list N) : M InitState.t unit :=
  st ← get;
  (if decide (InitState.fixed_theaters st = [])
   then put (InitState.set_fixed_theaters
               (fixed_theaters_loop theaters 0 (InitState.fixed_theaters st))
               st)
   else mret tt);;
  st ← get;
  on_booking_data
    (BookingData.add_theaters_to_movie
       movie_id (id_order (InitState.fixed_theaters st))).

(** The three assignments of [fast_random] on the 32-bit [state]. *)
Definition fast_random_step (state : Z) : Z :=
  let state := Z.lxor state (Z.shiftl state 13 mod UINT_MODULUS) in
  let state := Z.lxor state (Z.shiftr state 17) in
  let state := Z.lxor state (Z.shiftl state 5 mod UINT_MODULUS) in
  state.

(** [fast_random]. *)
Definition fast_random : M InitState.t Z :=
  st ← get;
  let state := fast_random_step (InitState.state st) in
  put (InitState.set_state state st);;
  mret (Z.land state 127).

(** The loop of [add_random_theaters_to_movie]. *)
Fixpoint random_theaters_loop (theaters : list N) (random_theaters : list N)
    : M InitState.t (list N) :=
  match theaters with
  | [] => mret random_theaters
  | theater_id :: rest =>
      r ← fast_random;
      random_theaters_loop rest
        (if decide (r = 0%Z)
         then unordered_insert theater_id random_theaters
         else random_theaters)
  end.

(** [add_random_theaters_to_movie]. *)
Definition add_random_theaters_to_movie (id_order : list N → list N)
    (movie_id : N) (theaters : list N) : M InitState.t unit :=
  random_theaters ← random_theaters_loop theaters [];
  on_booking_data
    (BookingData.add_theaters_to_movie movie_id (id_order random_theaters)).

(** The loop of [init_theaters_with_movies]. *)
Fixpoint init_theaters_with_movies_loop (id_order : list N → list N)
    (movies theaters : list N) (count : N) : M InitState.t unit :=
  match movies with
  | [] => mret tt
  | movie :: rest =>
      (if (count <? 10)%N
       then add_fixed_theaters_to_movie id_order movie theaters
       else add_random_theaters_to_movie id_order movie theaters);;
      init_theaters_with_movies_loop id_order rest theaters
                                     (ulong_incr count)
  end.

(** [init_theaters_with_movies]. *)
Definition init_theaters_with_movies (id_order : list N → list N)
    : M InitState.t unit :=
  movies ← const_call (λ st,
              Ok (BookingData.get_sorted_movie_ids
                    (InitState.booking_data st)));
  theaters ← const_call (λ st,
                Ok (BookingData.get_sorted_theater_ids
                      (InitState.booking_data st)));
  init_theaters_with_movies_loop id_order (set_ascending movies)
                                 (set_ascending theaters) 0.

(** [init_booking_data], without the two messages it prints. *)
Definition init_booking_data (string_order : list string → list string)
    (id_order : list N → list N) : M InitState.t unit :=
  init_movie_list string_order;;
  init_theater_list string_order;;
  init_theaters_with_movies id_order.

(** ** Definitions that follow the words of the specification *)

(** One line [<id>,<name><EOL>] of a movies or theaters listing. *)
Definition name_line (entry : N * string) : string :=
  pretty entry.1 ++ "," ++ entry.2 ++ CBS_EOL.

(** The concatenation of one line per entry. *)
Definition name_listing (entries : list (N * string)) : string :=
  String.concat "" (name_line <$> entries).

(** The indices of the seats that are currently available, ascending. *)
Definition available_indices (seat_available : list bool) : list nat :=
  filter (λ i, seat_available !! i = Some true)
         (seq 0 (length seat_available)).

(** The seat availability listing: decimal indices separated by single
    commas, then the end of line. *)
Definition seat_listing (indices : list nat) : string :=
  String.concat "," ((λ i, pretty (N.of_nat i)) <$> indices) ++ CBS_EOL.

(** The consecutive integers [n], [n+1], ..., [n+k-1]. *)
Definition consecutive_ids (n : N) (k : nat) : list N :=
  (λ i, (n + N.of_nat i)%N) <$> seq 0 k.

(** The value of a counter after [k] increments. *)
Definition ulong_advance (n : N) (k : nat) : N := Nat.iter k ulong_incr n.

(** A sequence of operations on one name table. *)
Inductive table_op : Type :=
  | OpAdd (names : list string)
  | OpClear.

(** Runs the operations in order on [m] and logs the ids that are issued,
    in the order they are issued; [None] when one of the adds throws. *)
Fixpoint run_ops (ops : list table_op) (m : StringIdMap.t)
    : option (list N * StringIdMap.t) :=
  match ops with
  | [] => Some ([], m)
  | OpAdd names :: rest =>
      match StringIdMap.add names m with
      | (Ok ids, m') =>
          match run_ops rest m' with
          | Some (later, m'') => Some ((ids ++ later)%list, m'')
          | None => None
          end
      | (Throw _, _) => None
      end
  | OpClear :: rest => run_ops rest (StringIdMap.clear m)
  end.

(** The room of a (movie, theater) pair, if there is one. *)
Definition room_at (s : BookingData.t) (movie_id theater_id : N)
    : option CinemaRoom.t :=
  rooms_for_movie ← BookingData.rooms s !! movie_id;
  rooms_for_movie !! theater_id.

(** Cache agreement: the cached listing is the one a rebuild from the
    current contents produces. *)
Definition table_cache_agrees (m : StringIdMap.t) : Prop :=
  StringIdMap.cached_list m
  = StringIdMap.cached_list (StringIdMap.rebuild_cache m).

Definition room_cache_agrees (r : CinemaRoom.t) : Prop :=
  CinemaRoom.seat_cache r
  = CinemaRoom.seat_cache (CinemaRoom.rebuild_cache r).

Definition theaters_cache_agrees (movie_id : N) (s : BookingData.t) : Prop :=
  (BookingData.rebuild_cache movie_id s).1 = Ok tt ∧
  is_Some (BookingData.theaters_per_movie_cache s !! movie_id) ∧
  BookingData.theaters_per_movie_cache s !! movie_id
  = BookingData.theaters_per_movie_cache
      (BookingData.rebuild_cache movie_id s).2 !! movie_id.

(** The listing that [BookingData::rebuild_cache(movie_id)] computes before
    it stores it: the part of its body up to the assignment. *)
Definition theaters_listing (movie_id : N) : M BookingData.t string :=
  movie_title ← const_call (λ s,
                   StringIdMap.get_string movie_id (BookingData.movie_list s));
  rooms_for_movie ← const_call (λ s, map_at (BookingData.rooms s) movie_id);
  BookingData.rebuild_cache_loop (map_to_list rooms_for_movie) "".

(** The entries [(id, name)] of the theater listing of a movie, computed
    from the contents of the store alone: one per room of the movie, in the
    order of the rooms, with the name that the theaters table has for the
    id; there is no listing ([None]) when a theater has no name. *)
Fixpoint theater_entries (theater_names : gmap N string)
    (rooms_for_movie : list (N * CinemaRoom.t)) : option (list (N * string)) :=
  match rooms_for_movie with
  | [] => Some []
  | (theater_id, _) :: rest =>
      name ← theater_names !! theater_id;
      entries ← theater_entries theater_names rest;
      Some ((theater_id, name) :: entries)
  end.

(** The cached listing is the listing recomputed from scratch from the
    current contents; none of the three statements mentions a function of
    the code. For a name table: one line per entry of the id-to-name map. *)
Definition table_listing_current (m : StringIdMap.t) : Prop :=
  StringIdMap.cached_list m
  = name_listing (map_to_list (StringIdMap.id_strings m)).

(** For a room: the listing of the indices of its free seats. *)
Definition room_listing_current (r : CinemaRoom.t) : Prop :=
  CinemaRoom.seat_cache r
  = seat_listing (available_indices (CinemaRoom.seat_available r)).

(** For the theaters of a movie: the movie is in use and has a room map,
    every theater with a room has a name, and the cached listing is one
    line per room, with the id and the name of its theater. *)
Definition theaters_listing_current (movie_id : N) (s : BookingData.t)
    : Prop :=
  is_Some (StringIdMap.id_strings (BookingData.movie_list s) !! movie_id) ∧
  ∃ rooms_for_movie entries,
    BookingData.rooms s !! movie_id = Some rooms_for_movie ∧
    theater_entries (StringIdMap.id_strings (BookingData.theater_list s))
                    (map_to_list rooms_for_movie) = Some entries ∧
    BookingData.theaters_per_movie_cache s !! movie_id
    = Some (name_listing entries).

(** ** Invariants and notions used by the further properties *)

(** A string without NUL character. *)
Fixpoint nul_free (s : string) : bool :=
  match s with
  | EmptyString => true
  | String c rest => negb (Ascii.eqb c "000"%char) && nul_free rest
  end.

(** The consistency of a name table: the counter is a non-zero
    [unsigned long] above every id in use, every recorded string is that of
    a stored name, and there are as many ids as names. *)
Definition table_wf (m : StringIdMap.t) : Prop :=
  (1 ≤ StringIdMap.next_id m < ULONG_MODULUS)%N ∧
  (∀ id, is_Some (StringIdMap.id_strings m !! id) →
         (1 ≤ id < StringIdMap.next_id m)%N) ∧
  (∀ id str, StringIdMap.id_strings m !! id = Some str →
             ∃ name, name ∈ StringIdMap.strings m ∧ str = c_str name) ∧
  size (StringIdMap.id_strings m) = size (StringIdMap.strings m).

(** A run of bookings on one room. *)
Definition book_all (requests : list (list N)) (r : CinemaRoom.t)
    : CinemaRoom.t :=
  fold_left (λ r seats, (CinemaRoom.book_seats seats r).2) requests r.

(** A room as the constructor and bookings leave it: 20 seats, and a
    cached listing that is the listing of its free seats. *)
Definition room_wf (r : CinemaRoom.t) : Prop :=
  length (CinemaRoom.seat_available r) = SEATS_PER_ROOM ∧
  room_listing_current r.

(** The consistency of the store. *)
Definition store_wf (s : BookingData.t) : Prop :=
  table_wf (BookingData.movie_list s) ∧
  table_wf (BookingData.theater_list s) ∧
  table_listing_current (BookingData.movie_list s) ∧
  table_listing_current (BookingData.theater_list s) ∧
  dom (BookingData.rooms s)
    = dom (StringIdMap.id_strings (BookingData.movie_list s)) ∧
  dom (BookingData.theaters_per_movie_cache s) = dom (BookingData.rooms s) ∧
  (∀ movie_id theater_id,
     is_Some (room_at s movie_id theater_id) →
     is_Some (StringIdMap.id_strings (BookingData.theater_list s)
              !! theater_id)) ∧
  (∀ movie_id, is_Some (BookingData.rooms s !! movie_id) →
               theaters_listing_current movie_id s) ∧
  (∀ movie_id theater_id room,
     room_at s movie_id theater_id = Some room → room_wf room).

(** A string of decimal digits only. *)
Fixpoint all_digits (s : string) : bool :=
  match s with
  | EmptyString => true
  | String c rest =>
      match digit_value c with
      | Some _ => all_digits rest
      | None => false
      end
  end.

(** The target of a request, written from its parts. *)
Definition join_ids (ids : list N) : string :=
  String.concat "_" (pretty <$> ids).

Definition listtheaters_target (movie_id : N) : string :=
  "/api/listtheaters_" ++ pretty movie_id.

Definition listseats_target (movie_id theater_id : N) : string :=
  "/api/listseats_" ++ pretty movie_id ++ "_" ++ pretty theater_id.

Definition book_target (movie_id theater_id : N) (seats : list N) : string :=
  "/api/book_" ++ pretty movie_id ++ "_" ++ pretty theater_id ++ "_"
    ++ join_ids seats.

(** No room has been created yet for any of [movies]. *)
Definition roomless (movies : list N) (s : BookingData.t) : Prop :=
  ∀ movie_id theater_id,
    movie_id ∈ movies → room_at s movie_id theater_id = None.

(** Every room of the store is as its constructor leaves it. *)
Definition rooms_fresh (s : BookingData.t) : Prop :=
  ∀ movie_id theater_id room,
    room_at s movie_id theater_id = Some room → room = CinemaRoom.new.

(** The set that [add_fixed_theaters_to_movie] hands to the store when it
    is called with [theaters]. *)
Definition fixed_theaters_used (theaters : list N) (st : InitState.t)
    : list N :=
  if decide (InitState.fixed_theaters st = [])
  then fixed_theaters_loop theaters 0 []
  else InitState.fixed_theaters st.

(** The state of [fast_random] is a non-zero 32-bit value. *)
Definition fast_random_state_ok (state : Z) : Prop :=
  (0 < state < UINT_MODULUS)%Z.

(** ** Proofs *)

Ltac munfold :=
  unfold mbind, mret, M_bind, M_ret, get, put, throw, const_call in *.

(** *** Strings *)

Lemma string_app_cons (ch : ascii) (a b : string) :
  String ch a ++ b = String ch (a ++ b).
Proof. reflexivity. Qed.

Lemma string_app_assoc (a b c : string) : (a ++ b) ++ c = a ++ (b ++ c).
Proof.
  induction a as [|ch a IH]; [done |].
  by rewrite !string_app_cons, IH.
Qed.

Lemma string_app_nil_l (s : string) : "" ++ s = s.
Proof. reflexivity. Qed.

Lemma string_app_nil_r (a : string) : a ++ "" = a.
Proof.
  induction a as [|ch a IH]; [done |].
  by rewrite string_app_cons, IH.
Qed.

(** *** The name table *)

Lemma add_check_ok (strings_in : list string) (m : StringIdMap.t) :
  (∀ name, name ∈ strings_in → name ∉ StringIdMap.strings m) →
  StringIdMap.add_check strings_in m = (Ok tt, m).
Proof.
  unfold StringIdMap.add_check.
  induction strings_in as [|name rest IH]; intros Hfresh; [done |].
  simpl. munfold.
  destruct (decide (name ∈ StringIdMap.strings m)) as [Hin | _].
  - exfalso. apply (Hfresh name); [left | done].
  - apply IH. intros x Hx. apply Hfresh. by right.
Qed.

Lemma add_check_throw (strings_in : list string) (m : StringIdMap.t) :
  (∃ name, name ∈ strings_in ∧ name ∈ StringIdMap.strings m) →
  StringIdMap.add_check strings_in m
  = (Throw (invalid_argument "Name already exists."), m).
Proof.
  unfold StringIdMap.add_check.
  induction strings_in as [|name rest IH]; intros (x & Hx & Hin).
  - by apply elem_of_nil in Hx.
  - simpl. munfold.
    destruct (decide (name ∈ StringIdMap.strings m)) as [_ | Hnot]; [done |].
    apply IH. exists x. split; [| done].
    apply elem_of_cons in Hx as [-> | Hx]; [done | done].
Qed.

Lemma add_check_state (strings_in : list string) (m : StringIdMap.t) :
  (StringIdMap.add_check strings_in m).2 = m.
Proof.
  destruct (decide (Exists (λ name, name ∈ StringIdMap.strings m) strings_in))
    as [Hex | Hno].
  - apply Exists_exists in Hex. by rewrite add_check_throw.
  - rewrite add_check_ok; [done |]. intros name Hname Hin.
    apply Hno, Exists_exists. eauto.
Qed.

Lemma add_check_inv_ok (strings_in : list string) (m m' : StringIdMap.t) :
  StringIdMap.add_check strings_in m = (Ok tt, m') →
  ∀ name, name ∈ strings_in → name ∉ StringIdMap.strings m.
Proof.
  intros Hok name Hname Hin.
  rewrite add_check_throw in Hok; [done | eauto].
Qed.

Lemma ulong_advance_seq_S (n : N) (k : nat) :
  ulong_advance n <$> seq 0 (S k)
  = n :: (ulong_advance (ulong_incr n) <$> seq 0 k).
Proof.
  cbn [seq fmap list_fmap]. f_equal.
  rewrite <- fmap_S_seq, <- list_fmap_compose.
  apply list_fmap_ext. intros _ i _. unfold ulong_advance. simpl.
  by rewrite <- Nat.iter_succ_r.
Qed.

Lemma add_insert_spec (strings_in : list string) :
  ∀ (inserted_ids : list N) (m : StringIdMap.t),
    StringIdMap.add_insert strings_in inserted_ids m
    = (Ok (inserted_ids
           ++ (ulong_advance (StringIdMap.next_id m)
                 <$> seq 0 (length strings_in)))%list,
       fold_left (λ m name, StringIdMap.add_one name m) strings_in m).
Proof.
  induction strings_in as [|name rest IH]; intros inserted_ids m.
  - simpl. munfold. by rewrite app_nil_r.
  - cbn [StringIdMap.add_insert]. munfold. rewrite IH.
    cbn [fold_left length]. rewrite ulong_advance_seq_S.
    by rewrite <- app_assoc.
Qed.

Lemma add_all_next_id (strings_in : list string) :
  ∀ m : StringIdMap.t,
    StringIdMap.next_id
      (fold_left (λ m name, StringIdMap.add_one name m) strings_in m)
    = ulong_advance (StringIdMap.next_id m) (length strings_in).
Proof.
  induction strings_in as [|name rest IH]; intros m; [done |].
  cbn [fold_left length]. rewrite IH. unfold ulong_advance. simpl.
  by rewrite <- Nat.iter_succ_r.
Qed.

Lemma add_all_id_strings (strings_in : list string) :
  ∀ (m : StringIdMap.t) (i : nat),
    i < length strings_in →
    is_Some
      (StringIdMap.id_strings
         (fold_left (λ m name, StringIdMap.add_one name m) strings_in m)
       !! ulong_advance (StringIdMap.next_id m) i).
Proof.
  assert (Hkeep : ∀ (l : list string) (m : StringIdMap.t) (k : N),
    is_Some (StringIdMap.id_strings m !! k) →
    is_Some (StringIdMap.id_strings
               (fold_left (λ m name, StringIdMap.add_one name m) l m) !! k)).
  { induction l as [|x l IHl]; intros m k Hk; [done |].
    cbn [fold_left]. apply IHl. simpl.
    destruct (decide (StringIdMap.next_id m = k)) as [-> | Hne].
    - rewrite lookup_insert_eq. eauto.
    - by rewrite lookup_insert_ne. }
  induction strings_in as [|name rest IH]; intros m i Hi; [simpl in Hi; lia |].
  cbn [fold_left]. destruct i as [|i].
  - apply Hkeep. simpl. rewrite lookup_insert_eq. eauto.
  - unfold ulong_advance. rewrite Nat.iter_succ_r.
    apply (IH (StringIdMap.add_one name m) i). simpl in Hi. lia.
Qed.

Lemma add_ok (strings_in : list string) (m : StringIdMap.t) :
  (∀ name, name ∈ strings_in → name ∉ StringIdMap.strings m) →
  StringIdMap.add strings_in m
  = (Ok (ulong_advance (StringIdMap.next_id m) <$> seq 0 (length strings_in)),
     StringIdMap.rebuild_cache
       (fold_left (λ m name, StringIdMap.add_one name m) strings_in m)).
Proof.
  intros Hfresh. unfold StringIdMap.add. munfold.
  rewrite (add_check_ok _ _ Hfresh), add_insert_spec. done.
Qed.

Lemma add_throw (strings_in : list string) (m : StringIdMap.t) :
  (∃ name, name ∈ strings_in ∧ name ∈ StringIdMap.strings m) →
  StringIdMap.add strings_in m
  = (Throw (invalid_argument "Name already exists."), m).
Proof.
  intros Hdup. unfold StringIdMap.add. munfold.
  by rewrite (add_check_throw _ _ Hdup).
Qed.

Lemma add_inv_ok (strings_in : list string) (m m' : StringIdMap.t)
    (ids : list N) :
  StringIdMap.add strings_in m = (Ok ids, m') →
  (∀ name, name ∈ strings_in → name ∉ StringIdMap.strings m) ∧
  ids = (ulong_advance (StringIdMap.next_id m) <$> seq 0 (length strings_in)) ∧
  m' = StringIdMap.rebuild_cache
         (fold_left (λ m name, StringIdMap.add_one name m) strings_in m).
Proof.
  intros Hadd.
  assert (Hfresh : ∀ name, name ∈ strings_in → name ∉ StringIdMap.strings m).
  { intros name Hname Hin. rewrite add_throw in Hadd; [done | eauto]. }
  rewrite (add_ok _ _ Hfresh) in Hadd. by inversion Hadd.
Qed.

(** *** The counter *)

Lemma ulong_advance_lt (n : N) (i : nat) :
  (n + N.of_nat i < ULONG_MODULUS)%N → ulong_advance n i = (n + N.of_nat i)%N.
Proof.
  unfold ulong_advance. induction i as [|i IH]; intros Hlt.
  - simpl. lia.
  - simpl. rewrite IH by lia. unfold ulong_incr.
    rewrite N.mod_small by lia. lia.
Qed.

Lemma ulong_advance_consecutive (n : N) (k : nat) :
  (n + N.of_nat k ≤ ULONG_MODULUS)%N →
  ulong_advance n <$> seq 0 k = consecutive_ids n k.
Proof.
  intros Hle. unfold consecutive_ids. apply list_fmap_ext.
  intros j i Hi. apply lookup_seq in Hi as [-> Hi].
  apply ulong_advance_lt. lia.
Qed.

Lemma consecutive_ids_app (n : N) (a b : nat) :
  consecutive_ids n (a + b)
  = (consecutive_ids n a ++ consecutive_ids (n + N.of_nat a) b)%list.
Proof.
  unfold consecutive_ids. rewrite seq_app, fmap_app. f_equal.
  replace (0 + a)%nat with (a + 0)%nat by lia.
  rewrite <- (fmap_add_seq a 0 b), <- list_fmap_compose.
  apply list_fmap_ext. intros _ i _. simpl. lia.
Qed.

Lemma elem_of_consecutive_ids (n : N) (k : nat) (x : N) :
  x ∈ consecutive_ids n k ↔ (n ≤ x < n + N.of_nat k)%N.
Proof.
  unfold consecutive_ids. rewrite list_elem_of_fmap. split.
  - intros (i & -> & Hi). apply elem_of_seq in Hi. lia.
  - intros Hx. exists (N.to_nat (x - n)). split; [lia |].
    apply elem_of_seq. lia.
Qed.

Lemma consecutive_ids_sorted (k : nat) :
  ∀ n : N, StronglySorted N.lt (consecutive_ids n k).
Proof.
  induction k as [|k IH]; intros n; [constructor |].
  change (S k) with (1 + k). rewrite consecutive_ids_app.
  change (consecutive_ids n 1) with [(n + 0)%N]. simpl.
  constructor; [apply IH |].
  apply Forall_forall. intros x Hx.
  apply elem_of_consecutive_ids in Hx. lia.
Qed.

Lemma consecutive_ids_NoDup (n : N) (k : nat) : NoDup (consecutive_ids n k).
Proof.
  assert (Hinj : Inj eq eq (λ i : nat, (n + N.of_nat i)%N)).
  { intros i j Hij. lia. }
  unfold consecutive_ids. apply (NoDup_fmap_2 _), NoDup_seq.
Qed.

Lemma length_consecutive_ids (n : N) (k : nat) :
  length (consecutive_ids n k) = k.
Proof. unfold consecutive_ids. by rewrite length_fmap, length_seq. Qed.

(** C4. A batch add in which at least one name is already present throws
    [std::invalid_argument] (DuplicateName) and returns the table exactly
    as it was: counter, id-to-name map, name set and cache are the same. *)
Theorem add_duplicate_leaves_table_unchanged
    (strings_in : list string) (m : StringIdMap.t) :
  (∃ name, name ∈ strings_in ∧ name ∈ StringIdMap.strings m) →
  ∃ m', StringIdMap.add strings_in m
        = (Throw (invalid_argument "Name already exists."), m') ∧
        m' = m ∧
        StringIdMap.next_id m' = StringIdMap.next_id m ∧
        StringIdMap.id_strings m' = StringIdMap.id_strings m ∧
        StringIdMap.strings m' = StringIdMap.strings m ∧
        StringIdMap.cached_list m' = StringIdMap.cached_list m.
Proof.
  intros Hdup. exists m. by rewrite (add_throw _ _ Hdup).
Qed.

Lemma add_duplicate_leaves_table_unchanged_witness :
  let m := (StringIdMap.add ["Terminator"; "The Matrix"] StringIdMap.new).2 in
  ∃ m', StringIdMap.add ["AKIRA"; "Terminator"] m
        = (Throw (invalid_argument "Name already exists."), m') ∧
        m' = m ∧
        StringIdMap.next_id m' = StringIdMap.next_id m ∧
        StringIdMap.id_strings m' = StringIdMap.id_strings m ∧
        StringIdMap.strings m' = StringIdMap.strings m ∧
        StringIdMap.cached_list m' = StringIdMap.cached_list m.
Proof.
  intros m. apply add_duplicate_leaves_table_unchanged.
  exists "Terminator". split; [by right; left |].
  by vm_compute.
Defined.

(** C9. An add of [k] names none of which is in the table, at counter
    value [n], succeeds and returns exactly [k] ids; the id at position [i]
    is the counter after [i] increments, and as long as the 64-bit counter
    does not wrap ([n + k <= 2^64]) the returned list is [n], [n+1], ...,
    [n+k-1] in this order, which is strictly increasing. *)
Theorem add_returns_consecutive_ids
    (strings_in : list string) (m : StringIdMap.t) :
  (∀ name, name ∈ strings_in → name ∉ StringIdMap.strings m) →
  let n := StringIdMap.next_id m in
  let k := length strings_in in
  ∃ ids m',
    StringIdMap.add strings_in m = (Ok ids, m') ∧
    length ids = k ∧
    (∀ i, i < k → ids !! i = Some (ulong_advance n i)) ∧
    ((n + N.of_nat k ≤ ULONG_MODULUS)%N →
       ids = consecutive_ids n k ∧
       (∀ i, i < k → ids !! i = Some (n + N.of_nat i)%N) ∧
       StronglySorted N.lt ids).
Proof.
  intros Hfresh n k. eexists _, _. split; [by apply add_ok |].
  split; [by rewrite length_fmap, length_seq |].
  split.
  - intros i Hi. rewrite list_lookup_fmap, lookup_seq_lt by done. done.
  - intros Hle. rewrite ulong_advance_consecutive by done.
    split; [done |]. split; [| apply consecutive_ids_sorted].
    intros i Hi. unfold consecutive_ids.
    rewrite list_lookup_fmap, lookup_seq_lt by done. done.
Qed.

Lemma add_returns_consecutive_ids_witness :
  let m := (StringIdMap.add ["Terminator"] StringIdMap.new).2 in
  StringIdMap.next_id m = 2%N ∧
  ∃ ids m',
    StringIdMap.add ["The Matrix"; "The Flintstones"; "AKIRA"] m
      = (Ok ids, m') ∧
    ids = [2; 3; 4]%N.
Proof.
  intros m. split; [done |].
  destruct (add_returns_consecutive_ids
              ["The Matrix"; "The Flintstones"; "AKIRA"] m)
    as (ids & m' & Hadd & _ & _ & Hids).
  - apply Forall_forall. by apply (bool_decide_unpack _); vm_compute.
  - exists ids, m'. split; [done |].
    destruct Hids as [-> _]; [by vm_compute | done].
Defined.

(** *** Sequences of operations on one table *)

Lemma next_id_rebuild_cache (m : StringIdMap.t) :
  StringIdMap.next_id (StringIdMap.rebuild_cache m) = StringIdMap.next_id m.
Proof. done. Qed.

Lemma next_id_clear (m : StringIdMap.t) :
  StringIdMap.next_id (StringIdMap.clear m) = StringIdMap.next_id m.
Proof. done. Qed.

Lemma run_ops_app (ops1 : list table_op) :
  ∀ (ops2 : list table_op) (m m' : StringIdMap.t) (ids : list N),
    run_ops (ops1 ++ ops2) m = Some (ids, m') →
    ∃ ids1 m1 ids2,
      run_ops ops1 m = Some (ids1, m1) ∧
      run_ops ops2 m1 = Some (ids2, m') ∧
      ids = (ids1 ++ ids2)%list.
Proof.
  induction ops1 as [|[names|] ops1 IH]; intros ops2 m m' ids Hrun.
  - exists [], m, ids. done.
  - simpl in *.
    destruct (StringIdMap.add names m) as [[ids0|e] m0]; [| done].
    destruct (run_ops (ops1 ++ ops2) m0) as [[later m'']|] eqn:Hrest; [| done].
    inversion Hrun; subst.
    destruct (IH _ _ _ _ Hrest) as (ids1 & m1 & ids2 & -> & H2 & ->).
    exists (ids0 ++ ids1)%list, m1, ids2. by rewrite app_assoc.
  - simpl in *. by apply IH.
Qed.

Lemma run_ops_consecutive (ops : list table_op) :
  ∀ (m m' : StringIdMap.t) (ids : list N),
    run_ops ops m = Some (ids, m') →
    (StringIdMap.next_id m + N.of_nat (length ids) ≤ ULONG_MODULUS)%N →
    ids = consecutive_ids (StringIdMap.next_id m) (length ids).
Proof.
  induction ops as [|[names|] ops IH]; intros m m' ids Hrun Hle.
  - simpl in Hrun. by inversion Hrun.
  - simpl in Hrun.
    destruct (StringIdMap.add names m) as [[ids0|e] m0] eqn:Hadd; [| done].
    destruct (run_ops ops m0) as [[later m'']|] eqn:Hrest; [| done].
    inversion Hrun; subst. clear Hrun.
    apply add_inv_ok in Hadd as (_ & -> & ->).
    rewrite length_app, length_fmap, length_seq in *.
    rewrite ulong_advance_consecutive by lia.
    destruct later as [|id later].
    + rewrite app_nil_r. simpl. by rewrite Nat.add_0_r.
    + specialize (IH _ _ _ Hrest).
      rewrite next_id_rebuild_cache, add_all_next_id in IH.
      rewrite ulong_advance_lt in IH by (simpl in Hle; lia).
      rewrite consecutive_ids_app. f_equal. apply IH. lia.
  - simpl in Hrun. apply (IH _ _ _ Hrun). by rewrite next_id_clear.
Qed.

(** C5. In every run of successful adds and clears on a freshly
    constructed table that issues at most 2^64 - 1 ids (the 64-bit counter
    has not wrapped): the ids issued are 1, 2, 3, ... in the order of
    issue, so they are pairwise distinct, none is 0 and they are strictly
    increasing; [clear] keeps the counter, and every id issued after a
    clear is greater than every id issued before it. *)
Theorem issued_ids_unique_and_increasing
    (ops : list table_op) (issued : list N) (m' : StringIdMap.t) :
  run_ops ops StringIdMap.new = Some (issued, m') →
  (1 + N.of_nat (length issued) ≤ ULONG_MODULUS)%N →
  issued = consecutive_ids 1 (length issued) ∧
  NoDup issued ∧
  (0%N ∉ issued) ∧
  StronglySorted N.lt issued ∧
  (∀ m, StringIdMap.next_id (StringIdMap.clear m) = StringIdMap.next_id m) ∧
  (∀ before after ids1 m1,
     ops = (before ++ OpClear :: after)%list →
     run_ops before StringIdMap.new = Some (ids1, m1) →
     ∃ ids2, issued = (ids1 ++ ids2)%list ∧
             ∀ a b, a ∈ ids1 → b ∈ ids2 → (a < b)%N).
Proof.
  intros Hrun Hle.
  pose proof (run_ops_consecutive _ _ _ _ Hrun Hle) as Hids.
  change (StringIdMap.next_id StringIdMap.new) with 1%N in Hids.
  assert (Hsorted : StronglySorted N.lt issued).
  { rewrite Hids. apply consecutive_ids_sorted. }
  split; [done |]. split; [rewrite Hids; apply consecutive_ids_NoDup |].
  split; [rewrite Hids, elem_of_consecutive_ids; lia |].
  split; [done |]. split; [apply next_id_clear |].
  intros before after ids1 m1 -> Hbefore.
  apply run_ops_app in Hrun as (ids1' & m1' & ids2 & Hb & _ & ->).
  rewrite Hbefore in Hb. inversion Hb; subst. exists ids2. split; [done |].
  intros a b Ha Hb'. by eapply (StronglySorted_app_1_elem_of N.lt).
Qed.

Lemma issued_ids_unique_and_increasing_witness :
  let ops := [OpAdd ["Terminator"; "AKIRA"]; OpClear; OpAdd ["Terminator"]] in
  ∃ m', run_ops ops StringIdMap.new = Some ([1; 2; 3]%N, m') ∧
        NoDup [1; 2; 3]%N ∧ (0%N ∉ [1; 2; 3]%N) ∧
        StronglySorted N.lt [1; 2; 3]%N.
Proof.
  intros ops.
  set (m' := (StringIdMap.add ["Terminator"]
                (StringIdMap.clear
                   (StringIdMap.add ["Terminator"; "AKIRA"]
                      StringIdMap.new).2)).2).
  assert (Hrun : run_ops ops StringIdMap.new = Some ([1; 2; 3]%N, m')).
  { by vm_compute. }
  exists m'. split; [done |].
  destruct (issued_ids_unique_and_increasing ops _ _ Hrun)
    as (_ & Hnd & H0 & Hs & _); [by vm_compute | done].
Defined.

(** *** The room: rendering *)

Lemma StronglySorted_lt_seq (n : nat) : ∀ i, StronglySorted lt (seq i n).
Proof.
  induction n as [|n IH]; intros i; [constructor |].
  simpl. constructor; [apply IH |].
  apply Forall_seq. intros j Hj. lia.
Qed.

Lemma StronglySorted_filter {A} (R : A → A → Prop) (P : A → Prop)
    `{∀ x, Decision (P x)} (l : list A) :
  StronglySorted R l → StronglySorted R (filter P l).
Proof.
  induction 1 as [|x l Hl IH Hx]; [constructor |].
  rewrite filter_cons. destruct (decide (P x)); [| done].
  constructor; [done |].
  apply Forall_forall. intros y Hy. apply list_elem_of_filter in Hy as [_ Hy].
  by eapply Forall_forall in Hx.
Qed.

Lemma elem_of_available_indices (seat_available : list bool) (i : nat) :
  i ∈ available_indices seat_available ↔ seat_available !! i = Some true.
Proof.
  unfold available_indices. rewrite list_elem_of_filter, elem_of_seq.
  split; [by intros [? _] |].
  intros Hi. split; [done |]. apply lookup_lt_Some in Hi. lia.
Qed.

Lemma available_indices_sorted (seat_available : list bool) :
  StronglySorted lt (available_indices seat_available).
Proof. apply StronglySorted_filter, StronglySorted_lt_seq. Qed.

Lemma rebuild_cache_fold (seat_available : list bool) (idxs : list nat) :
  Forall (λ i, i < length seat_available) idxs →
  ∀ (first : bool) (ss : string),
    fold_left (CinemaRoom.rebuild_cache_step seat_available) idxs (first, ss)
    = match filter (λ i, seat_available !! i = Some true) idxs with
      | [] => (first, ss)
      | av =>
          (false,
           ss ++ (if first then "" else ",")
              ++ String.concat "," ((λ i, pretty (N.of_nat i)) <$> av))
      end.
Proof.
  induction 1 as [|idx rest Hidx Hrest IH]; intros first ss; [done |].
  cbn [fold_left]. rewrite filter_cons.
  unfold CinemaRoom.rebuild_cache_step at 2.
  rewrite (list_lookup_lookup_total_lt seat_available idx Hidx).
  destruct (seat_available !!! idx) eqn:Hseat.
  - rewrite decide_True by done. rewrite IH. cbn [fst snd].
    destruct (filter _ rest) as [|a av].
    + destruct first; cbn [fmap list_fmap String.concat].
      * done.
      * by rewrite string_app_assoc.
    + destruct first; cbn [fmap list_fmap String.concat].
      * by rewrite !string_app_assoc.
      * by rewrite !string_app_assoc.
  - rewrite decide_False by (intros [=]). apply IH.
Qed.

Lemma rebuild_cache_listing (r : CinemaRoom.t) :
  CinemaRoom.seat_cache (CinemaRoom.rebuild_cache r)
  = seat_listing (available_indices (CinemaRoom.seat_available r)).
Proof.
  unfold CinemaRoom.rebuild_cache, seat_listing, available_indices.
  cbn [CinemaRoom.seat_cache]. rewrite rebuild_cache_fold.
  - by destruct (filter _ _).
  - apply Forall_seq. intros j Hj. lia.
Qed.

Lemma seat_available_rebuild_cache (r : CinemaRoom.t) :
  CinemaRoom.seat_available (CinemaRoom.rebuild_cache r)
  = CinemaRoom.seat_available r.
Proof. done. Qed.

Lemma room_rebuild_cache_agrees (r : CinemaRoom.t) :
  room_cache_agrees (CinemaRoom.rebuild_cache r).
Proof. unfold room_cache_agrees. by rewrite !rebuild_cache_listing. Qed.

Lemma room_listing_current_iff (r : CinemaRoom.t) :
  room_listing_current r ↔ room_cache_agrees r.
Proof.
  unfold room_listing_current, room_cache_agrees.
  by rewrite rebuild_cache_listing.
Qed.

Lemma room_rebuild_cache_current (r : CinemaRoom.t) :
  room_listing_current (CinemaRoom.rebuild_cache r).
Proof. apply room_listing_current_iff, room_rebuild_cache_agrees. Qed.

(** C6. The listing that a rebuild renders for a room is the ascending
    list of the indices that are available, in decimal, separated by single
    commas and followed by CR LF; it is CR LF alone when no seat is
    available; a freshly constructed room has 20 seats, all available, and
    renders as the 20 indices 0..19. *)
Theorem seat_listing_format (r : CinemaRoom.t) :
  let seats := CinemaRoom.seat_available r in
  CinemaRoom.get_seats (CinemaRoom.rebuild_cache r)
    = seat_listing (available_indices seats) ∧
  (room_cache_agrees r →
     CinemaRoom.get_seats r = seat_listing (available_indices seats)) ∧
  StronglySorted lt (available_indices seats) ∧
  (∀ i, i ∈ available_indices seats ↔ seats !! i = Some true) ∧
  ((∀ i, seats !! i ≠ Some true) →
     CinemaRoom.get_seats (CinemaRoom.rebuild_cache r) = CBS_EOL) ∧
  CinemaRoom.seat_available CinemaRoom.new = replicate 20 true ∧
  CinemaRoom.get_seats CinemaRoom.new
    = "0,1,2,3,4,5,6,7,8,9,10,11,12,13,14,15,16,17,18,19" ++ CBS_EOL.
Proof.
  intros seats. unfold CinemaRoom.get_seats.
  split; [apply rebuild_cache_listing |].
  split; [intros ->; apply rebuild_cache_listing |].
  split; [apply available_indices_sorted |].
  split; [apply elem_of_available_indices |].
  split; [| split; by vm_compute].
  intros Hnone. rewrite rebuild_cache_listing. fold seats.
  destruct (available_indices seats) as [|i av] eqn:Hav; [done |].
  destruct (Hnone i). apply elem_of_available_indices.
  fold seats. rewrite Hav. left.
Qed.

Lemma seat_listing_format_witness :
  let r := {| CinemaRoom.seat_cache := CBS_EOL;
              CinemaRoom.seat_available := replicate 20 false |} in
  CinemaRoom.get_seats r = CBS_EOL ∧
  CinemaRoom.get_seats (CinemaRoom.rebuild_cache r) = CBS_EOL.
Proof.
  intros r.
  destruct (seat_listing_format r) as (_ & Hget & _ & _ & Hnone & _).
  split.
  - rewrite Hget; by vm_compute.
  - apply Hnone. intros i Hi. cbn [r CinemaRoom.seat_available] in Hi.
    by apply lookup_replicate in Hi as [? _].
Defined.

(** *** The room: booking *)

Lemma book_check_not_accepted (seat_available : list bool)
    (seats_to_book : list N) :
  CinemaRoom.book_check seat_available seats_to_book ≠ Some ACCEPTED.
Proof.
  induction seats_to_book as [|seat rest IH]; [done |].
  simpl. destruct (_ <=? _)%N; [done |].
  by destruct (negb _).
Qed.

(** The first loop runs to its end exactly when every requested seat is in
    range and available. *)
Lemma book_check_None (seat_available : list bool) (seats_to_book : list N) :
  CinemaRoom.book_check seat_available seats_to_book = None ↔
  ∀ seat, seat ∈ seats_to_book → seat_available !! N.to_nat seat = Some true.
Proof.
  induction seats_to_book as [|seat rest IH].
  - split; [| done]. intros _ seat Hseat. by apply elem_of_nil in Hseat.
  - simpl. destruct (N.leb_spec (N.of_nat (length seat_available)) seat)
      as [Hge | Hlt].
    { split; [done |]. intros Hall.
      specialize (Hall seat (list_elem_of_here _ _)).
      apply lookup_lt_Some in Hall. lia. }
    rewrite (list_lookup_total_alt seat_available).
    destruct (seat_available !! N.to_nat seat) as [[|]|] eqn:Hseat; simpl.
    + rewrite IH. split.
      * intros Hall x Hx. apply elem_of_cons in Hx as [-> | Hx]; eauto.
      * intros Hall x Hx. apply Hall. by right.
    + split; [done |]. intros Hall.
      specialize (Hall seat (list_elem_of_here _ _)). congruence.
    + apply lookup_ge_None in Hseat. lia.
Qed.

Lemma book_mark_lookup (seats_to_book : list N) :
  ∀ (seat_available : list bool) (i : nat),
    CinemaRoom.book_mark seat_available seats_to_book !! i
    = if decide (N.of_nat i ∈ seats_to_book)
      then (λ _, false) <$> seat_available !! i
      else seat_available !! i.
Proof.
  unfold CinemaRoom.book_mark.
  induction seats_to_book as [|seat rest IH]; intros seat_available i.
  - cbn [fold_left]. rewrite decide_False; [done | apply not_elem_of_nil].
  - cbn [fold_left]. rewrite IH, list_lookup_insert.
    assert (Hsome : N.to_nat seat < length seat_available →
                    N.to_nat seat = i →
                    Some false = (λ _, false) <$> seat_available !! i).
    { intros Hlt <-. by apply lookup_lt_is_Some in Hlt as [b ->]. }
    destruct (decide (N.of_nat i ∈ seat :: rest)) as [Hin | Hnin];
      destruct (decide (N.of_nat i ∈ rest)) as [Hin' | Hnin'];
      destruct (decide (N.to_nat seat = i ∧ _)) as [[Heq Hlt] | Hno];
      try done.
    + by rewrite <- Hsome.
    + by apply Hsome.
    + apply elem_of_cons in Hin as [<- | Hin]; [| done].
      rewrite Nat2N.id in Hno.
      destruct (seat_available !! i) eqn:Hi; [| done].
      apply lookup_lt_Some in Hi. tauto.
    + destruct Hnin. by apply list_elem_of_further.
    + destruct Hnin. by apply list_elem_of_further.
    + destruct Hnin. rewrite <- Heq, N2Nat.id. apply list_elem_of_here.
Qed.

Lemma length_book_mark (seats_to_book : list N) :
  ∀ seat_available : list bool,
    length (CinemaRoom.book_mark seat_available seats_to_book)
    = length seat_available.
Proof.
  unfold CinemaRoom.book_mark.
  induction seats_to_book as [|seat rest IH]; intros seat_available; [done |].
  cbn [fold_left]. by rewrite IH, length_insert.
Qed.

Lemma book_seats_rejected (seats_to_book : list N) (r : CinemaRoom.t) :
  (CinemaRoom.book_seats seats_to_book r).1 ≠ ACCEPTED →
  (CinemaRoom.book_seats seats_to_book r).2 = r.
Proof.
  unfold CinemaRoom.book_seats.
  by destruct (CinemaRoom.book_check _ _).
Qed.

Lemma book_seats_accepted (seats_to_book : list N) (r : CinemaRoom.t) :
  (CinemaRoom.book_seats seats_to_book r).1 = ACCEPTED →
  CinemaRoom.book_seats seats_to_book r
  = (ACCEPTED,
     CinemaRoom.rebuild_cache
       {| CinemaRoom.seat_cache := CinemaRoom.seat_cache r;
          CinemaRoom.seat_available :=
            CinemaRoom.book_mark (CinemaRoom.seat_available r)
                                 seats_to_book |}).
Proof.
  unfold CinemaRoom.book_seats.
  destruct (CinemaRoom.book_check _ _) as [result|] eqn:Hcheck; [| done].
  simpl. intros ->. by apply book_check_not_accepted in Hcheck.
Qed.

Lemma book_seats_length (seats_to_book : list N) (r : CinemaRoom.t) :
  length (CinemaRoom.seat_available (CinemaRoom.book_seats seats_to_book r).2)
  = length (CinemaRoom.seat_available r).
Proof.
  unfold CinemaRoom.book_seats.
  destruct (CinemaRoom.book_check _ _); [done |].
  simpl. apply length_book_mark.
Qed.

(** C3. If [book_seats] returns ACCEPTED, the seats available afterwards
    are those available before that are not in the requested set; if it
    returns anything else the room is exactly as before; and the empty
    request is ACCEPTED and leaves the availability array as it was (and
    the whole room, when its cache agreed). *)
Theorem book_seats_monotone (seats_to_book : list N) (r : CinemaRoom.t) :
  let result := (CinemaRoom.book_seats seats_to_book r).1 in
  let r' := (CinemaRoom.book_seats seats_to_book r).2 in
  (result = ACCEPTED →
     ∀ i, i ∈ available_indices (CinemaRoom.seat_available r') ↔
          i ∈ available_indices (CinemaRoom.seat_available r) ∧
          N.of_nat i ∉ seats_to_book) ∧
  (result ≠ ACCEPTED →
     r' = r ∧
     available_indices (CinemaRoom.seat_available r')
     = available_indices (CinemaRoom.seat_available r)) ∧
  (CinemaRoom.book_seats [] r).1 = ACCEPTED ∧
  CinemaRoom.seat_available (CinemaRoom.book_seats [] r).2
  = CinemaRoom.seat_available r ∧
  (room_cache_agrees r → (CinemaRoom.book_seats [] r).2 = r).
Proof.
  intros result r'. subst result r'. split; [| split].
  - intros Hacc i. rewrite (book_seats_accepted _ _ Hacc).
    cbn [snd]. rewrite seat_available_rebuild_cache.
    cbn [CinemaRoom.seat_available].
    rewrite !elem_of_available_indices, book_mark_lookup.
    destruct (decide (N.of_nat i ∈ seats_to_book)) as [Hin | Hnin].
    + split; [| tauto]. by destruct (CinemaRoom.seat_available r !! i).
    + tauto.
  - intros Hrej. by rewrite (book_seats_rejected _ _ Hrej).
  - split; [done |]. split; [done |].
    unfold room_cache_agrees. destruct r as [cache seats].
    cbn. by intros ->.
Qed.

Lemma book_seats_monotone_witness :
  let r := CinemaRoom.new in
  let r' := (CinemaRoom.book_seats [0; 1; 2]%N r).2 in
  (∀ i, i ∈ available_indices (CinemaRoom.seat_available r') ↔
        i ∈ available_indices (CinemaRoom.seat_available r) ∧
        N.of_nat i ∉ [0; 1; 2]%N) ∧
  (CinemaRoom.book_seats [3; 25]%N r').2 = r' ∧
  (CinemaRoom.book_seats [] r').2 = r'.
Proof.
  intros r r'.
  destruct (book_seats_monotone [0; 1; 2]%N r) as (Hacc & _).
  destruct (book_seats_monotone [3; 25]%N r') as (_ & Hrej & _ & _ & Hnil).
  split; [apply Hacc; by vm_compute |].
  split; [apply Hrej; by vm_compute |].
  apply Hnil. by vm_compute.
Defined.

(** A request with an out-of-range seat is never accepted and leaves the
    room as it was. *)
Lemma book_seats_out_of_range_rejected
    (seats_to_book : list N) (r : CinemaRoom.t) (seat : N) :
  seat ∈ seats_to_book →
  (N.of_nat (length (CinemaRoom.seat_available r)) ≤ seat)%N →
  (CinemaRoom.book_seats seats_to_book r).1 ≠ ACCEPTED ∧
  (CinemaRoom.book_seats seats_to_book r).2 = r.
Proof.
  intros Hseat Hge.
  assert (Hrej : (CinemaRoom.book_seats seats_to_book r).1 ≠ ACCEPTED).
  { unfold CinemaRoom.book_seats.
    destruct (CinemaRoom.book_check _ _) as [result|] eqn:Hcheck.
    - simpl. intros ->. by apply book_check_not_accepted in Hcheck.
    - exfalso. pose proof (proj1 (book_check_None _ _) Hcheck _ Hseat) as Hs.
      apply lookup_lt_Some in Hs. lia. }
  split; [done | by apply book_seats_rejected].
Qed.

(** When every in-range seat of the request is available, a request with
    an out-of-range seat returns INVALID. *)
Lemma book_check_invalid (seat_available : list bool) (seats_to_book : list N) :
  (∃ seat, seat ∈ seats_to_book ∧
           (N.of_nat (length seat_available) ≤ seat)%N) →
  (∀ seat, seat ∈ seats_to_book →
           (seat < N.of_nat (length seat_available))%N →
           seat_available !! N.to_nat seat = Some true) →
  CinemaRoom.book_check seat_available seats_to_book = Some INVALID.
Proof.
  induction seats_to_book as [|seat rest IH]; intros (bad & Hbad & Hge) Hav.
  - by apply elem_of_nil in Hbad.
  - simpl. destruct (N.leb_spec (N.of_nat (length seat_available)) seat)
      as [Hle | Hlt]; [done |].
    rewrite (list_lookup_total_correct _ _ true); simpl.
    + apply IH.
      * exists bad. split; [| done].
        apply elem_of_cons in Hbad as [-> | Hbad]; [lia | done].
      * intros x Hx. apply Hav. by apply list_elem_of_further.
    + apply Hav; [apply list_elem_of_here | done].
Qed.

Lemma book_seats_invalid_when_rest_available
    (seats_to_book : list N) (r : CinemaRoom.t) :
  (∃ seat, seat ∈ seats_to_book ∧
           (N.of_nat (length (CinemaRoom.seat_available r)) ≤ seat)%N) →
  (∀ seat, seat ∈ seats_to_book →
           (seat < N.of_nat (length (CinemaRoom.seat_available r)))%N →
           CinemaRoom.seat_available r !! N.to_nat seat = Some true) →
  CinemaRoom.book_seats seats_to_book r = (INVALID, r).
Proof.
  intros Hbad Hav. unfold CinemaRoom.book_seats.
  by rewrite (book_check_invalid _ _ Hbad Hav).
Qed.

(** C2 (the code departs from it). At a room of 20 seats in which seat 0
    is taken, the request that iterates as 0, 25 contains the index 25 >= 20
    and yet returns NOT_AVAILABLE: the single checking loop returns at the
    first offending seat it meets, so an unavailable seat that is iterated
    before the out-of-range one decides the result. In the other iteration
    order the same request returns INVALID. *)
Theorem book_seats_invalid_does_not_dominate :
  let r := (CinemaRoom.book_seats [0%N] CinemaRoom.new).2 in
  length (CinemaRoom.seat_available r) = SEATS_PER_ROOM ∧
  CinemaRoom.seat_available r !! 0 = Some false ∧
  (N.of_nat SEATS_PER_ROOM ≤ 25)%N ∧
  CinemaRoom.book_seats [0; 25]%N r = (NOT_AVAILABLE, r) ∧
  CinemaRoom.book_seats [25; 0]%N r = (INVALID, r).
Proof. by vm_compute. Qed.

(** *** The name table: cache *)

Lemma name_table_fold (entries : list (N * string)) :
  ∀ ss : string,
    fold_left StringIdMap.rebuild_cache_step entries ss
    = ss ++ name_listing entries.
Proof.
  unfold name_listing.
  induction entries as [|entry rest IH]; intros ss.
  - simpl. by rewrite string_app_nil_r.
  - cbn [fold_left]. rewrite IH. unfold StringIdMap.rebuild_cache_step.
    assert (Hcons : String.concat "" (name_line <$> entry :: rest)
                    = name_line entry ++ String.concat "" (name_line <$> rest)).
    { rewrite fmap_cons. destruct (name_line <$> rest) as [|line lines].
      - cbn [String.concat]. by rewrite string_app_nil_r.
      - reflexivity. }
    rewrite Hcons. unfold name_line. by rewrite !string_app_assoc.
Qed.

Lemma table_rebuild_cache_listing (m : StringIdMap.t) :
  StringIdMap.cached_list (StringIdMap.rebuild_cache m)
  = name_listing (map_to_list (StringIdMap.id_strings m)).
Proof. unfold StringIdMap.rebuild_cache. simpl. by rewrite name_table_fold. Qed.

Lemma table_rebuild_cache_agrees (m : StringIdMap.t) :
  table_cache_agrees (StringIdMap.rebuild_cache m).
Proof. done. Qed.

Lemma table_listing_current_iff (m : StringIdMap.t) :
  table_listing_current m ↔ table_cache_agrees m.
Proof.
  unfold table_listing_current, table_cache_agrees.
  by rewrite table_rebuild_cache_listing.
Qed.

Lemma table_rebuild_cache_current (m : StringIdMap.t) :
  table_listing_current (StringIdMap.rebuild_cache m).
Proof. apply table_listing_current_iff, table_rebuild_cache_agrees. Qed.

Lemma table_clear_eq (m : StringIdMap.t) :
  StringIdMap.clear m
  = {| StringIdMap.next_id := StringIdMap.next_id m;
       StringIdMap.id_strings := ∅; StringIdMap.strings := ∅;
       StringIdMap.cached_list := "" |}.
Proof.
  unfold StringIdMap.clear, StringIdMap.rebuild_cache. simpl.
  by rewrite map_to_list_empty.
Qed.

Lemma table_clear_idempotent (m : StringIdMap.t) :
  StringIdMap.clear (StringIdMap.clear m) = StringIdMap.clear m.
Proof. by rewrite !table_clear_eq. Qed.

Lemma get_sorted_keys_clear (m : StringIdMap.t) :
  StringIdMap.get_sorted_keys (StringIdMap.clear m) = ∅.
Proof.
  rewrite table_clear_eq. unfold StringIdMap.get_sorted_keys. simpl.
  by rewrite map_to_list_empty.
Qed.

(** *** The store: rebuilding a theater listing *)

Lemma rebuild_cache_loop_state (entries : list (N * CinemaRoom.t)) :
  ∀ (ss : string) (s : BookingData.t),
    (BookingData.rebuild_cache_loop entries ss s).2 = s.
Proof.
  induction entries as [|[theater_id room] rest IH]; intros ss s; [done |].
  cbn [BookingData.rebuild_cache_loop]. munfold.
  destruct (StringIdMap.get_string _ _); [apply IH | done].
Qed.

Lemma rebuild_cache_loop_set_cache (entries : list (N * CinemaRoom.t)) :
  ∀ (ss : string) (s : BookingData.t) (c : gmap N string),
    (BookingData.rebuild_cache_loop entries ss (BookingData.set_cache c s)).1
    = (BookingData.rebuild_cache_loop entries ss s).1.
Proof.
  induction entries as [|[theater_id room] rest IH]; intros ss s c; [done |].
  cbn [BookingData.rebuild_cache_loop]. munfold. simpl.
  destruct (StringIdMap.get_string _ _); [apply IH | done].
Qed.

Lemma theaters_listing_state (movie_id : N) (s : BookingData.t) :
  (theaters_listing movie_id s).2 = s.
Proof.
  unfold theaters_listing. munfold.
  destruct (StringIdMap.get_string _ _); [| done].
  destruct (map_at _ _); [| done].
  apply rebuild_cache_loop_state.
Qed.

Lemma theaters_listing_set_cache (movie_id : N) (s : BookingData.t)
    (c : gmap N string) :
  (theaters_listing movie_id (BookingData.set_cache c s)).1
  = (theaters_listing movie_id s).1.
Proof.
  unfold theaters_listing. munfold. simpl.
  destruct (StringIdMap.get_string _ _); [| done].
  destruct (map_at _ _); [| done].
  apply rebuild_cache_loop_set_cache.
Qed.

Lemma store_rebuild_cache_eq (movie_id : N) (s : BookingData.t) :
  BookingData.rebuild_cache movie_id s
  = match (theaters_listing movie_id s).1 with
    | Ok ss =>
        (Ok tt,
         BookingData.set_cache
           (<[movie_id := ss]> (BookingData.theaters_per_movie_cache s)) s)
    | Throw e => (Throw e, s)
    end.
Proof.
  unfold BookingData.rebuild_cache, theaters_listing. munfold.
  destruct (StringIdMap.get_string _ _); [| done].
  destruct (map_at _ _) as [rooms_for_movie|]; [| done].
  pose proof (rebuild_cache_loop_state (map_to_list rooms_for_movie) "" s)
    as Hstate.
  destruct (BookingData.rebuild_cache_loop _ _ _) as [[ss|e] s0];
    simpl in *; by subst.
Qed.

Lemma theaters_cache_agrees_iff (movie_id : N) (s : BookingData.t) :
  theaters_cache_agrees movie_id s ↔
  ∃ ss, (theaters_listing movie_id s).1 = Ok ss ∧
        BookingData.theaters_per_movie_cache s !! movie_id = Some ss.
Proof.
  unfold theaters_cache_agrees. rewrite store_rebuild_cache_eq.
  destruct (theaters_listing movie_id s).1 as [ss|e]; simpl.
  - rewrite lookup_insert_eq. split.
    + intros (_ & _ & Heq). eauto.
    + intros (ss' & [= <-] & Heq). rewrite Heq. eauto.
  - split; [by intros [? _] | by intros (ss & ? & _)].
Qed.

Lemma name_listing_cons (entry : N * string) (entries : list (N * string)) :
  name_listing (entry :: entries) = name_line entry ++ name_listing entries.
Proof.
  unfold name_listing. rewrite fmap_cons.
  destruct (name_line <$> entries) as [|line lines].
  - cbn [String.concat]. by rewrite string_app_nil_r.
  - reflexivity.
Qed.

Lemma rebuild_cache_loop_entries (rooms_for_movie : list (N * CinemaRoom.t)) :
  ∀ (ss : string) (s : BookingData.t),
    (BookingData.rebuild_cache_loop rooms_for_movie ss s).1
    = match theater_entries
              (StringIdMap.id_strings (BookingData.theater_list s))
              rooms_for_movie with
      | Some entries => Ok (ss ++ name_listing entries)
      | None => Throw out_of_range
      end.
Proof.
  induction rooms_for_movie as [|[theater_id room] rest IH]; intros ss s.
  - simpl. by rewrite string_app_nil_r.
  - cbn [BookingData.rebuild_cache_loop theater_entries]. munfold.
    unfold StringIdMap.get_string, map_at.
    destruct (StringIdMap.id_strings (BookingData.theater_list s)
              !! theater_id) as [name|]; [| done].
    cbn [mbind option_bind]. rewrite IH.
    destruct (theater_entries _ rest) as [entries|]; [| done].
    cbn [mbind option_bind]. rewrite name_listing_cons. unfold name_line.
    cbn [fst snd]. by rewrite !string_app_assoc.
Qed.

Lemma theaters_listing_entries (movie_id : N) (s : BookingData.t)
    (ss : string) :
  (theaters_listing movie_id s).1 = Ok ss ↔
  is_Some (StringIdMap.id_strings (BookingData.movie_list s) !! movie_id) ∧
  ∃ rooms_for_movie entries,
    BookingData.rooms s !! movie_id = Some rooms_for_movie ∧
    theater_entries (StringIdMap.id_strings (BookingData.theater_list s))
                    (map_to_list rooms_for_movie) = Some entries ∧
    ss = name_listing entries.
Proof.
  unfold theaters_listing. munfold.
  unfold StringIdMap.get_string at 1, map_at.
  destruct (StringIdMap.id_strings (BookingData.movie_list s) !! movie_id)
    as [title|].
  2: { split; [done |]. intros [Hsome _]. by apply is_Some_None in Hsome. }
  destruct (BookingData.rooms s !! movie_id) as [rooms_for_movie|].
  2: { split; [done |]. intros (_ & rooms' & entries' & Hrooms & _).
       discriminate Hrooms. }
  rewrite rebuild_cache_loop_entries.
  destruct (theater_entries _ _) as [entries|] eqn:Hentries.
  - rewrite string_app_nil_l. split.
    + intros [= <-]. split; [by eexists |]. by exists rooms_for_movie, entries.
    + intros (_ & rooms' & entries' & [= <-] & Hentries' & ->). congruence.
  - split; [done |]. intros (_ & rooms' & entries' & [= <-] & Hentries' & _).
    congruence.
Qed.

Lemma theaters_listing_current_iff (movie_id : N) (s : BookingData.t) :
  theaters_listing_current movie_id s ↔ theaters_cache_agrees movie_id s.
Proof.
  rewrite theaters_cache_agrees_iff. unfold theaters_listing_current. split.
  - intros (Hmovie & rooms_for_movie & entries & Hrooms & Hentries & Hcache).
    exists (name_listing entries). split; [| done].
    apply theaters_listing_entries. split; [done |].
    by exists rooms_for_movie, entries.
  - intros (ss & Hlisting & Hcache).
    apply theaters_listing_entries in Hlisting
      as (Hmovie & rooms_for_movie & entries & Hrooms & Hentries & ->).
    split; [done |]. by exists rooms_for_movie, entries.
Qed.

Lemma store_rebuild_cache_agrees (movie_id : N) (s s' : BookingData.t) :
  BookingData.rebuild_cache movie_id s = (Ok tt, s') →
  theaters_cache_agrees movie_id s'.
Proof.
  rewrite store_rebuild_cache_eq. intros Hrebuild.
  apply theaters_cache_agrees_iff.
  destruct (theaters_listing movie_id s).1 as [ss|e] eqn:Hlisting; [| done].
  inversion Hrebuild; subst. exists ss.
  rewrite theaters_listing_set_cache. simpl.
  by rewrite lookup_insert_eq.
Qed.

(** *** The store: clear *)

Lemma store_clear_eq (s : BookingData.t) :
  BookingData.clear s
  = (Ok tt,
     {| BookingData.movie_list := StringIdMap.clear (BookingData.movie_list s);
        BookingData.theater_list :=
          StringIdMap.clear (BookingData.theater_list s);
        BookingData.rooms := ∅;
        BookingData.theaters_per_movie_cache := ∅ |}).
Proof.
  unfold BookingData.clear, BookingData.rebuild_cache_all. munfold. simpl.
  by rewrite map_to_list_empty.
Qed.

(** C8. [clear] always returns; clearing a cleared store gives the same
    store again; and in a cleared store the movie listing is the empty
    string, both sorted id sets are empty, and no theater listing and no
    seat listing exists for any id (those two reads throw). *)
Theorem clear_idempotent (s : BookingData.t) :
  let s1 := (BookingData.clear s).2 in
  BookingData.clear s = (Ok tt, s1) ∧
  BookingData.clear s1 = (Ok tt, s1) ∧
  BookingData.get_movies s1 = "" ∧
  StringIdMap.get_id_string_list (BookingData.theater_list s1) = "" ∧
  BookingData.get_sorted_movie_ids s1 = ∅ ∧
  BookingData.get_sorted_theater_ids s1 = ∅ ∧
  BookingData.rooms s1 = ∅ ∧
  BookingData.theaters_per_movie_cache s1 = ∅ ∧
  (∀ movie_id,
     BookingData.get_theaters_for_movie movie_id s1 = Throw out_of_range) ∧
  (∀ movie_id theater_id,
     BookingData.get_available_seats movie_id theater_id s1
     = Throw out_of_range).
Proof.
  intros s1. subst s1. rewrite !store_clear_eq.
  cbn [snd BookingData.movie_list BookingData.theater_list].
  rewrite !table_clear_idempotent.
  unfold BookingData.get_movies, BookingData.get_sorted_movie_ids,
    BookingData.get_sorted_theater_ids, BookingData.get_theaters_for_movie,
    BookingData.get_available_seats, map_at.
  cbn [BookingData.movie_list BookingData.theater_list BookingData.rooms
       BookingData.theaters_per_movie_cache].
  rewrite !get_sorted_keys_clear, !table_clear_eq.
  repeat split; intros; by rewrite ?lookup_empty.
Qed.

(** *** The store: booking *)

Lemma store_book_seats_eq (movie_id theater_id : N) (seats : list N)
    (s : BookingData.t) :
  BookingData.book_seats movie_id theater_id seats s
  = match BookingData.rooms s !! movie_id with
    | None => (Throw out_of_range, s)
    | Some rooms_for_movie =>
        match rooms_for_movie !! theater_id with
        | None => (Throw out_of_range, s)
        | Some room =>
            (Ok (CinemaRoom.book_seats seats room).1,
             BookingData.set_rooms
               (<[movie_id :=
                    <[theater_id := (CinemaRoom.book_seats seats room).2]>
                      rooms_for_movie]> (BookingData.rooms s)) s)
        end
    end.
Proof.
  unfold BookingData.book_seats, map_at. munfold.
  destruct (BookingData.rooms s !! movie_id) as [rooms_for_movie|]; [| done].
  destruct (rooms_for_movie !! theater_id) as [room|]; [| done].
  by destruct (CinemaRoom.book_seats seats room).
Qed.

Lemma room_at_book_seats (movie_id theater_id : N) (seats : list N)
    (s : BookingData.t) :
  room_at (BookingData.book_seats movie_id theater_id seats s).2
          movie_id theater_id
  = (λ room, (CinemaRoom.book_seats seats room).2)
      <$> room_at s movie_id theater_id.
Proof.
  rewrite store_book_seats_eq. unfold room_at.
  destruct (BookingData.rooms s !! movie_id) as [rooms_for_movie|] eqn:Hm;
    [destruct (rooms_for_movie !! theater_id) as [room|] eqn:Ht |];
    cbn [fst snd]; rewrite ?Hm; cbn [mbind option_bind]; rewrite ?Ht;
    try done.
  cbn [BookingData.set_rooms BookingData.rooms].
  rewrite lookup_insert_eq. cbn [mbind option_bind].
  by rewrite lookup_insert_eq.
Qed.

(** C10. Whatever [book_seats(m, t, S)] returns or throws, both name
    tables, the theaters-per-movie caches, the set of movies and of
    (movie, theater) pairs that have a room, and every room other than
    (m, t) are unchanged; the room (m, t) becomes what [CinemaRoom::book_seats]
    makes of it; and when the call throws the whole store is unchanged. *)
Theorem book_seats_frame (movie_id theater_id : N) (seats : list N)
    (s : BookingData.t) :
  let outcome := (BookingData.book_seats movie_id theater_id seats s).1 in
  let s' := (BookingData.book_seats movie_id theater_id seats s).2 in
  BookingData.movie_list s' = BookingData.movie_list s ∧
  BookingData.theater_list s' = BookingData.theater_list s ∧
  BookingData.theaters_per_movie_cache s'
    = BookingData.theaters_per_movie_cache s ∧
  dom (BookingData.rooms s') = dom (BookingData.rooms s) ∧
  (∀ m t, is_Some (room_at s' m t) ↔ is_Some (room_at s m t)) ∧
  (∀ m t, (m, t) ≠ (movie_id, theater_id) → room_at s' m t = room_at s m t) ∧
  room_at s' movie_id theater_id
    = (λ room, (CinemaRoom.book_seats seats room).2)
        <$> room_at s movie_id theater_id ∧
  (∀ e, outcome = Throw e → s' = s) ∧
  (room_at s movie_id theater_id = None ↔ outcome = Throw out_of_range).
Proof.
  intros outcome s'. subst outcome s'. rewrite store_book_seats_eq.
  unfold room_at.
  destruct (BookingData.rooms s !! movie_id) as [rooms_for_movie|] eqn:Hm;
    [destruct (rooms_for_movie !! theater_id) as [room|] eqn:Ht |];
    cbn [fst snd]; rewrite ?Hm; cbn [mbind option_bind]; rewrite ?Ht.
  2, 3: by repeat split; intros; simplify_eq.
  cbn [BookingData.set_rooms BookingData.movie_list BookingData.theater_list
       BookingData.rooms BookingData.theaters_per_movie_cache].
  assert (Hother : ∀ m t, (m, t) ≠ (movie_id, theater_id) →
    (<[movie_id := <[theater_id := (CinemaRoom.book_seats seats room).2]>
                     rooms_for_movie]> (BookingData.rooms s) !! m
       ≫= λ rfm, rfm !! t)
    = (BookingData.rooms s !! m ≫= λ rfm, rfm !! t)).
  { intros m t Hne. destruct (decide (m = movie_id)) as [-> | Hm'].
    - rewrite lookup_insert_eq, Hm. cbn [mbind option_bind].
      rewrite lookup_insert_ne; [done | congruence].
    - by rewrite lookup_insert_ne. }
  assert (Hthis :
    (<[movie_id := <[theater_id := (CinemaRoom.book_seats seats room).2]>
                     rooms_for_movie]> (BookingData.rooms s) !! movie_id
       ≫= λ rfm, rfm !! theater_id)
    = Some (CinemaRoom.book_seats seats room).2).
  { rewrite lookup_insert_eq. cbn [mbind option_bind].
    by rewrite lookup_insert_eq. }
  repeat split; try done.
  - rewrite dom_insert_L. apply subseteq_union_1_L, singleton_subseteq_l.
    by apply elem_of_dom_2 in Hm.
  - destruct (decide ((m, t) = (movie_id, theater_id))) as [[= -> ->] | Hne].
    + rewrite Hm. cbn [mbind option_bind]. rewrite Ht. done.
    + by rewrite <- (Hother m t Hne).
  - destruct (decide ((m, t) = (movie_id, theater_id))) as [[= -> ->] | Hne].
    + by rewrite Hthis.
    + by rewrite (Hother m t Hne).
Qed.

Lemma book_seats_frame_witness :
  let s := (BookingData.add_theaters_to_movie 1 [1; 2]%N
              (BookingData.add_theaters ["T"; "U"]
                 (BookingData.add_movies ["M"] BookingData.new).2).2).2 in
  let s' := (BookingData.book_seats 1 1 [0; 1; 2]%N s).2 in
  (BookingData.book_seats 1 1 [0; 1; 2]%N s).1 = Ok ACCEPTED ∧
  room_at s' 1 2 = room_at s 1 2 ∧
  (BookingData.book_seats 1 3 [0]%N s).2 = s.
Proof.
  intros s s'. split; [by vm_compute |].
  destruct (book_seats_frame 1 1 [0; 1; 2]%N s)
    as (_ & _ & _ & _ & _ & Hother & _).
  destruct (book_seats_frame 1 3 [0]%N s)
    as (_ & _ & _ & _ & _ & _ & _ & Hthrow & _).
  split; [by apply Hother | by apply (Hthrow out_of_range); vm_compute].
Defined.

(** *** The store: assigning theaters *)

(** The two failures that the method checks for leave the store as it was. *)
Lemma add_theaters_to_movie_unknown_movie (movie_id : N) (theaters : list N)
    (s : BookingData.t) :
  BookingData.rooms s !! movie_id = None →
  BookingData.add_theaters_to_movie movie_id theaters s
  = (Throw out_of_range, s).
Proof.
  intros Hm. unfold BookingData.add_theaters_to_movie, map_at. munfold.
  by rewrite Hm.
Qed.

Lemma assigned_check_throw (movie_id : N) (theaters : list N)
    (s : BookingData.t) (rooms_for_movie : gmap N CinemaRoom.t) :
  BookingData.rooms s !! movie_id = Some rooms_for_movie →
  (∃ theater_id, theater_id ∈ theaters ∧
                 is_Some (rooms_for_movie !! theater_id)) →
  for_each theaters (λ theater_id,
    rooms_for_this_movie ← const_call (λ s,
                              map_at (BookingData.rooms s) movie_id);
    if decide (is_Some (rooms_for_this_movie !! theater_id))
    then throw (runtime_error "Theater already displaying the movie")
    else mret tt) s
  = (Throw (runtime_error "Theater already displaying the movie"), s).
Proof.
  intros Hm. induction theaters as [|theater_id rest IH]; intros (x & Hx & Hin).
  - by apply elem_of_nil in Hx.
  - cbn [for_each]. unfold map_at. munfold. rewrite Hm.
    destruct (decide (is_Some (rooms_for_movie !! theater_id)))
      as [_ | Hnot]; [done |].
    unfold map_at in IH. munfold. apply IH. exists x. split; [| done].
    by apply elem_of_cons in Hx as [-> | Hx].
Qed.

Lemma add_theaters_to_movie_already_assigned (movie_id : N)
    (theaters : list N) (s : BookingData.t)
    (rooms_for_movie : gmap N CinemaRoom.t) :
  BookingData.rooms s !! movie_id = Some rooms_for_movie →
  (∃ theater_id, theater_id ∈ theaters ∧
                 is_Some (rooms_for_movie !! theater_id)) →
  BookingData.add_theaters_to_movie movie_id theaters s
  = (Throw (runtime_error "Theater already displaying the movie"), s).
Proof.
  intros Hm Hassigned. unfold BookingData.add_theaters_to_movie.
  unfold mbind at 1 2, M_bind at 1 2, const_call at 1, map_at at 1.
  rewrite Hm. by rewrite (assigned_check_throw _ _ _ _ Hm Hassigned).
Qed.

(** C1 (the code departs from it). With movie 1 and theater 1 in the store
    and no room yet, assigning the unknown theater id 7 to movie 1 throws
    [std::out_of_range] from the cache rebuild, after the room for
    theater 7 has been created: [rooms[1]] has changed, a seat listing
    for (1, 7) can now be read, and the cached theater listing of movie 1
    is the old one. *)
Theorem add_theaters_to_movie_unknown_theater_changes_store :
  let s := (BookingData.add_theaters ["T"]
              (BookingData.add_movies ["M"] BookingData.new).2).2 in
  let outcome := BookingData.add_theaters_to_movie 1 [7%N] s in
  StringIdMap.has_id 1 (BookingData.movie_list s) = true ∧
  StringIdMap.has_id 7 (BookingData.theater_list s) = false ∧
  BookingData.rooms s !! 1%N = Some ∅ ∧
  outcome.1 = Throw out_of_range ∧
  BookingData.rooms outcome.2 !! 1%N = Some {[ 7%N := CinemaRoom.new ]} ∧
  BookingData.rooms outcome.2 ≠ BookingData.rooms s ∧
  room_at s 1 7 = None ∧
  room_at outcome.2 1 7 = Some CinemaRoom.new ∧
  BookingData.get_available_seats 1 7 outcome.2
    = Ok ("0,1,2,3,4,5,6,7,8,9,10,11,12,13,14,15,16,17,18,19" ++ CBS_EOL) ∧
  BookingData.theaters_per_movie_cache outcome.2
    = BookingData.theaters_per_movie_cache s.
Proof.
  intros s outcome. repeat split; by vm_compute.
Qed.

(** *** The store: adding movies *)

Lemma add_movies_body (movie_id : N) (s : BookingData.t) :
  is_Some (StringIdMap.id_strings (BookingData.movie_list s) !! movie_id) →
  (s0 ← get;
   put (BookingData.set_rooms (<[movie_id := ∅]> (BookingData.rooms s0)) s0);;
   BookingData.rebuild_cache movie_id) s
  = (Ok tt,
     {| BookingData.movie_list := BookingData.movie_list s;
        BookingData.theater_list := BookingData.theater_list s;
        BookingData.rooms := <[movie_id := ∅]> (BookingData.rooms s);
        BookingData.theaters_per_movie_cache :=
          <[movie_id := ""]> (BookingData.theaters_per_movie_cache s) |}).
Proof.
  intros [title Htitle]. munfold. rewrite store_rebuild_cache_eq.
  unfold theaters_listing, StringIdMap.get_string, map_at. munfold. simpl.
  rewrite Htitle, lookup_insert_eq, map_to_list_empty. done.
Qed.

Lemma add_movies_loop (inserted_ids : list N) :
  ∀ s : BookingData.t,
    (∀ id, id ∈ inserted_ids →
       is_Some (StringIdMap.id_strings (BookingData.movie_list s) !! id)) →
    ∃ s',
      for_each inserted_ids (λ movie_id,
        s0 ← get;
        put (BookingData.set_rooms
               (<[movie_id := ∅]> (BookingData.rooms s0)) s0);;
        BookingData.rebuild_cache movie_id) s = (Ok tt, s') ∧
      BookingData.movie_list s' = BookingData.movie_list s ∧
      BookingData.theater_list s' = BookingData.theater_list s ∧
      (∀ id, id ∈ inserted_ids →
         BookingData.rooms s' !! id = Some ∅ ∧
         BookingData.theaters_per_movie_cache s' !! id = Some "") ∧
      (∀ id, id ∉ inserted_ids →
         BookingData.rooms s' !! id = BookingData.rooms s !! id ∧
         BookingData.theaters_per_movie_cache s' !! id
         = BookingData.theaters_per_movie_cache s !! id).
Proof.
  induction inserted_ids as [|movie_id rest IH]; intros s Hids.
  - exists s. split; [done |]. split; [done |]. split; [done |].
    split; [| done]. intros id Hid. by apply elem_of_nil in Hid.
  - cbn [for_each]. unfold mbind at 1, M_bind at 1.
    rewrite add_movies_body by (apply Hids, list_elem_of_here).
    match goal with |- context [for_each rest _ ?s1] =>
      destruct (IH s1) as (s' & Hloop & Hml & Htl & Hnew & Hold)
    end.
    { intros id Hid. simpl. by apply Hids, list_elem_of_further. }
    exists s'. rewrite Hloop. simpl in Hml, Htl.
    split; [done |]. split; [done |]. split; [done |]. split.
    + intros id Hid. destruct (decide (id ∈ rest)) as [Hin | Hnin];
        [by apply Hnew |].
      apply elem_of_cons in Hid as [-> | Hid]; [| done].
      destruct (Hold movie_id Hnin) as [-> ->]. simpl.
      by rewrite !lookup_insert_eq.
    + intros id Hid. apply not_elem_of_cons in Hid as [Hne Hnin].
      destruct (Hold id Hnin) as [-> ->]. simpl.
      by rewrite !lookup_insert_ne.
Qed.

Lemma add_inserted_ids_present (strings_in : list string)
    (m m' : StringIdMap.t) (ids : list N) :
  StringIdMap.add strings_in m = (Ok ids, m') →
  ∀ id, id ∈ ids → is_Some (StringIdMap.id_strings m' !! id).
Proof.
  intros Hadd id Hid. apply add_inv_ok in Hadd as (_ & -> & ->).
  apply list_elem_of_fmap in Hid as (i & -> & Hi).
  apply elem_of_seq in Hi. simpl. apply add_all_id_strings. lia.
Qed.

Lemma add_movies_ok (movies : list string) (s : BookingData.t)
    (ids : list N) (ml : StringIdMap.t) :
  StringIdMap.add movies (BookingData.movie_list s) = (Ok ids, ml) →
  ∃ s', BookingData.add_movies movies s = (Ok tt, s') ∧
        BookingData.movie_list s' = ml ∧
        BookingData.theater_list s' = BookingData.theater_list s ∧
        (∀ id, id ∈ ids →
           BookingData.rooms s' !! id = Some ∅ ∧
           BookingData.theaters_per_movie_cache s' !! id = Some "") ∧
        (∀ id, id ∉ ids →
           BookingData.rooms s' !! id = BookingData.rooms s !! id ∧
           BookingData.theaters_per_movie_cache s' !! id
           = BookingData.theaters_per_movie_cache s !! id).
Proof.
  intros Hadd. unfold BookingData.add_movies, BookingData.on_movie_list.
  unfold mbind at 1, M_bind at 1. rewrite Hadd.
  destruct (add_movies_loop ids (BookingData.set_movie_list ml s))
    as (s' & Hloop & Hml & Htl & Hnew & Hold).
  { simpl. by eapply add_inserted_ids_present. }
  exists s'. by rewrite Hloop.
Qed.

Lemma add_movies_throw (movies : list string) (s : BookingData.t) :
  (∃ name, name ∈ movies ∧
           name ∈ StringIdMap.strings (BookingData.movie_list s)) →
  BookingData.add_movies movies s
  = (Throw (invalid_argument "Name already exists."), s).
Proof.
  intros Hdup. unfold BookingData.add_movies, BookingData.on_movie_list.
  unfold mbind at 1, M_bind at 1. rewrite (add_throw _ _ Hdup).
  by destruct s.
Qed.

(** C7. After each mutator returns, the cached listing of what it changed
    is the listing recomputed from scratch from the current contents; the
    recomputed listings are defined from the contents alone, not by the
    rebuild functions of the code. The name table after [add] and [clear]:
    its cache is one line [<id>,<name>] with CR LF per entry of the
    id-to-name map. The room after the constructor and after [book_seats]:
    its cache is the listing of its free seats. The movies table and the
    theater listing of every new movie after [add_movies], the theaters
    table after [add_theaters], the theater listing of the movie after
    [add_theaters_to_movie]: one line per room of the movie with the id and
    the name of the theater. After the store's [clear] both tables list
    nothing, and there is neither a room nor a cached theater listing. *)
Theorem cache_agreement :
  (∀ names m ids m',
     StringIdMap.add names m = (Ok ids, m') →
     table_listing_current m' ∧
     StringIdMap.get_id_string_list m'
     = name_listing (map_to_list (StringIdMap.id_strings m'))) ∧
  (∀ m,
     table_listing_current (StringIdMap.clear m) ∧
     StringIdMap.get_id_string_list (StringIdMap.clear m)
     = name_listing (map_to_list (StringIdMap.id_strings (StringIdMap.clear m)))) ∧
  room_listing_current CinemaRoom.new ∧
  (∀ seats r,
     ((CinemaRoom.book_seats seats r).1 = ACCEPTED ∨ room_listing_current r) →
     room_listing_current (CinemaRoom.book_seats seats r).2 ∧
     CinemaRoom.get_seats (CinemaRoom.book_seats seats r).2
     = seat_listing
         (available_indices
            (CinemaRoom.seat_available (CinemaRoom.book_seats seats r).2))) ∧
  (∀ movie_id theater_id seats s room',
     (∀ room, room_at s movie_id theater_id = Some room →
              room_listing_current room) →
     room_at (BookingData.book_seats movie_id theater_id seats s).2
             movie_id theater_id = Some room' →
     room_listing_current room') ∧
  (∀ movies s ids ml,
     StringIdMap.add movies (BookingData.movie_list s) = (Ok ids, ml) →
     ∃ s', BookingData.add_movies movies s = (Ok tt, s') ∧
           BookingData.movie_list s' = ml ∧
           table_listing_current (BookingData.movie_list s') ∧
           ∀ id, id ∈ ids → theaters_listing_current id s') ∧
  (∀ theaters s s',
     BookingData.add_theaters theaters s = (Ok tt, s') →
     table_listing_current (BookingData.theater_list s')) ∧
  (∀ movie_id theaters s s',
     BookingData.add_theaters_to_movie movie_id theaters s = (Ok tt, s') →
     theaters_listing_current movie_id s') ∧
  (∀ s, ∃ s',
     BookingData.clear s = (Ok tt, s') ∧
     table_listing_current (BookingData.movie_list s') ∧
     table_listing_current (BookingData.theater_list s') ∧
     BookingData.get_movies s' = "" ∧
     BookingData.rooms s' = ∅ ∧
     BookingData.theaters_per_movie_cache s' = ∅ ∧
     BookingData.rebuild_cache_all s' = (Ok tt, s')).
Proof.
  assert (Hbook : ∀ seats r,
    ((CinemaRoom.book_seats seats r).1 = ACCEPTED ∨ room_listing_current r) →
    room_listing_current (CinemaRoom.book_seats seats r).2).
  { intros seats r [Hacc | Hagree].
    - rewrite (book_seats_accepted _ _ Hacc). apply room_rebuild_cache_current.
    - unfold CinemaRoom.book_seats.
      destruct (CinemaRoom.book_check _ _); [done |].
      apply room_rebuild_cache_current. }
  split; [| split; [| split; [| split; [| split; [| split; [| split;
    [| split]]]]]]].
  - intros names m ids m' Hadd. apply add_inv_ok in Hadd as (_ & _ & ->).
    split; [apply table_rebuild_cache_current |].
    unfold StringIdMap.get_id_string_list.
    by rewrite table_rebuild_cache_listing.
  - intros m. split; [apply table_rebuild_cache_current |].
    unfold StringIdMap.get_id_string_list, StringIdMap.clear.
    by rewrite table_rebuild_cache_listing.
  - apply room_rebuild_cache_current.
  - intros seats r Hbefore. split; apply Hbook, Hbefore.
  - intros movie_id theater_id seats s room' Hbefore Hafter.
    rewrite room_at_book_seats in Hafter.
    destruct (room_at s movie_id theater_id) as [room|]; [| done].
    inversion Hafter; subst. apply Hbook. right. by apply Hbefore.
  - intros movies s ids ml Hadd.
    destruct (add_movies_ok _ _ _ _ Hadd) as (s' & Hs' & Hml & _ & Hnew & _).
    exists s'. split; [done |]. split; [done |]. split.
    + rewrite Hml. apply add_inv_ok in Hadd as (_ & _ & ->).
      apply table_rebuild_cache_current.
    + intros id Hid.
      destruct (Hnew id Hid) as [Hrooms Hcache].
      destruct (add_inserted_ids_present _ _ _ _ Hadd id Hid)
        as [title Htitle].
      split; [rewrite Hml; by eexists |].
      exists ∅, []. split; [done |]. split; [| done].
      by rewrite map_to_list_empty.
  - intros theaters s s'.
    unfold BookingData.add_theaters, BookingData.on_theater_list. munfold.
    destruct (StringIdMap.add theaters (BookingData.theater_list s))
      as [[ids|e] tl] eqn:Hadd; [| done].
    intros [= <-]. simpl. apply add_inv_ok in Hadd as (_ & _ & ->).
    apply table_rebuild_cache_current.
  - intros movie_id theaters s s'.
    unfold BookingData.add_theaters_to_movie.
    unfold mbind at 1 2 3, M_bind at 1 2 3, const_call at 1.
    destruct (map_at (BookingData.rooms s) movie_id); [| done].
    destruct (for_each theaters _ s) as [[[]|e] s1]; [| done].
    destruct (for_each theaters _ s1) as [[[]|e] s2]; [| done].
    intros Hrebuild.
    by eapply theaters_listing_current_iff, store_rebuild_cache_agrees.
  - intros s. eexists. rewrite store_clear_eq. split; [done |].
    cbn [BookingData.movie_list BookingData.theater_list BookingData.rooms
         BookingData.theaters_per_movie_cache].
    rewrite !table_clear_eq.
    split; [unfold table_listing_current; simpl; by rewrite map_to_list_empty |].
    split; [unfold table_listing_current; simpl; by rewrite map_to_list_empty |].
    do 3 (split; [done |]).
    unfold BookingData.rebuild_cache_all. munfold. simpl.
    by rewrite map_to_list_empty.
Qed.

Lemma cache_agreement_witness :
  let s := (BookingData.add_theaters ["T"]
              (BookingData.add_movies ["M"] BookingData.new).2).2 in
  let s' := (BookingData.add_theaters_to_movie 1 [1%N] s).2 in
  table_listing_current (StringIdMap.add ["Terminator"] StringIdMap.new).2 ∧
  room_listing_current (CinemaRoom.book_seats [0; 1]%N CinemaRoom.new).2 ∧
  CinemaRoom.get_seats (CinemaRoom.book_seats [0; 1]%N CinemaRoom.new).2
  = "2,3,4,5,6,7,8,9,10,11,12,13,14,15,16,17,18,19" ++ CBS_EOL ∧
  table_listing_current (BookingData.theater_list s) ∧
  theaters_listing_current 1 s' ∧
  BookingData.theaters_per_movie_cache s' !! 1%N = Some ("1,T" ++ CBS_EOL).
Proof.
  intros s s'.
  destruct cache_agreement
    as (Hadd & _ & _ & Hbook & _ & _ & Htheaters & Hassign & _).
  split.
  { eapply (Hadd ["Terminator"] StringIdMap.new [1%N]). by vm_compute. }
  destruct (Hbook [0; 1]%N CinemaRoom.new) as [Hcurrent Hseats].
  { left. by vm_compute. }
  split; [exact Hcurrent |].
  split; [rewrite Hseats; by vm_compute |].
  split.
  { apply (Htheaters ["T"]
             (BookingData.add_movies ["M"] BookingData.new).2).
    by vm_compute. }
  split; [| by vm_compute].
  apply (Hassign 1%N [1%N] s). by vm_compute.
Defined.

(** *** The name table: lookups after an add *)

Lemma c_str_nul_free (s : string) : nul_free s = true → c_str s = s.
Proof.
  induction s as [|c s IH]; [done |]. simpl.
  destruct (Ascii.eqb c "000"); [done |]. simpl. intros Hs. by rewrite IH.
Qed.

Lemma ulong_advance_S (n : N) (k : nat) :
  ulong_advance n (S k) = ulong_advance (ulong_incr n) k.
Proof. unfold ulong_advance. by rewrite Nat.iter_succ_r. Qed.

Lemma ulong_incr_lt (n : N) :
  (n + 1 < ULONG_MODULUS)%N → ulong_incr n = (n + 1)%N.
Proof. intros Hlt. unfold ulong_incr. by rewrite N.mod_small. Qed.

Lemma add_all_lookup_below (strings_in : list string) :
  ∀ (m : StringIdMap.t) (id : N),
    (id < StringIdMap.next_id m)%N →
    (StringIdMap.next_id m + N.of_nat (length strings_in) ≤ ULONG_MODULUS)%N →
    StringIdMap.id_strings
      (fold_left (λ m name, StringIdMap.add_one name m) strings_in m) !! id
    = StringIdMap.id_strings m !! id.
Proof.
  induction strings_in as [|name rest IH]; intros m id Hid Hle; [done |].
  cbn [fold_left]. destruct rest as [|name' rest].
  - simpl. rewrite lookup_insert_ne; [done | lia].
  - rewrite IH.
    + simpl. rewrite lookup_insert_ne; [done | lia].
    + simpl. rewrite ulong_incr_lt; simpl in Hle; lia.
    + simpl. rewrite ulong_incr_lt; simpl in *; lia.
Qed.

Lemma add_all_lookup_new (strings_in : list string) :
  ∀ (m : StringIdMap.t) (i : nat) (name : string),
    strings_in !! i = Some name →
    (StringIdMap.next_id m + N.of_nat (length strings_in) ≤ ULONG_MODULUS)%N →
    StringIdMap.id_strings
      (fold_left (λ m name, StringIdMap.add_one name m) strings_in m)
      !! (StringIdMap.next_id m + N.of_nat i)%N
    = Some (c_str name).
Proof.
  induction strings_in as [|name0 rest IH]; intros m i name Hi Hle; [done |].
  cbn [fold_left]. destruct i as [|i].
  - simpl in Hi. inversion Hi; subst. rewrite N.add_0_r.
    destruct rest as [|name' rest].
    + simpl. by rewrite lookup_insert_eq.
    + rewrite add_all_lookup_below.
      * simpl. by rewrite lookup_insert_eq.
      * simpl. rewrite ulong_incr_lt; simpl in Hle; lia.
      * simpl. rewrite ulong_incr_lt; simpl in *; lia.
  - simpl in Hi. apply lookup_lt_Some in Hi as Hlen.
    specialize (IH (StringIdMap.add_one name0 m) i name Hi).
    simpl in IH, Hle. rewrite ulong_incr_lt in IH by lia.
    replace (StringIdMap.next_id m + N.of_nat (S i))%N
      with (StringIdMap.next_id m + 1 + N.of_nat i)%N by lia.
    apply IH. lia.
Qed.

Lemma add_all_lookup_inv (strings_in : list string) :
  ∀ (m : StringIdMap.t) (id : N),
    is_Some (StringIdMap.id_strings
               (fold_left (λ m name, StringIdMap.add_one name m) strings_in m)
             !! id) →
    is_Some (StringIdMap.id_strings m !! id) ∨
    ∃ i, i < length strings_in ∧ id = ulong_advance (StringIdMap.next_id m) i.
Proof.
  induction strings_in as [|name rest IH]; intros m id Hid; [by left |].
  cbn [fold_left] in Hid. apply IH in Hid as [Hid | (i & Hi & ->)].
  - simpl in Hid. destruct (decide (StringIdMap.next_id m = id)) as [<- | Hne].
    + right. exists 0. split; [simpl; lia | done].
    + left. by rewrite lookup_insert_ne in Hid.
  - right. exists (S i). split; [simpl; lia |]. by rewrite ulong_advance_S.
Qed.

(** X1. Round trip of an add. When none of the names is stored and the
    counter does not wrap, the add succeeds and returns one id per name, in
    the order of the names; each returned id is in use afterwards and reads
    back the characters of its name before the first NUL, hence the name
    itself when the name holds no NUL. *)
Theorem add_then_lookup (strings_in : list string) (m : StringIdMap.t) :
  (∀ name, name ∈ strings_in → name ∉ StringIdMap.strings m) →
  (StringIdMap.next_id m + N.of_nat (length strings_in) ≤ ULONG_MODULUS)%N →
  ∃ ids m',
    StringIdMap.add strings_in m = (Ok ids, m') ∧
    length ids = length strings_in ∧
    ∀ i name, strings_in !! i = Some name →
      ∃ id, ids !! i = Some id ∧
            StringIdMap.has_id id m' = true ∧
            StringIdMap.get_string id m' = Ok (c_str name) ∧
            (nul_free name = true → StringIdMap.get_string id m' = Ok name).
Proof.
  intros Hfresh Hle. eexists _, _. split; [by apply add_ok |].
  split; [by rewrite length_fmap, length_seq |].
  intros i name Hi. apply lookup_lt_Some in Hi as Hlen.
  exists (StringIdMap.next_id m + N.of_nat i)%N.
  assert (Hlookup := add_all_lookup_new _ m i name Hi Hle).
  split.
  { rewrite list_lookup_fmap, lookup_seq_lt by done. simpl.
    f_equal. apply ulong_advance_lt. lia. }
  unfold StringIdMap.has_id, StringIdMap.get_string, map_at. simpl.
  rewrite Hlookup. split; [by apply bool_decide_eq_true_2 |].
  split; [done |]. intros Hnul. by rewrite c_str_nul_free.
Qed.

Lemma add_then_lookup_witness :
  ∃ ids m',
    StringIdMap.add ["Terminator"; "The Matrix"] StringIdMap.new
      = (Ok ids, m') ∧
    ∃ id, ids !! 1 = Some id ∧
          StringIdMap.get_string id m' = Ok "The Matrix".
Proof.
  destruct (add_then_lookup ["Terminator"; "The Matrix"] StringIdMap.new)
    as (ids & m' & Hadd & _ & Hget).
  - intros name _. apply not_elem_of_empty.
  - by vm_compute.
  - exists ids, m'. split; [done |].
    destruct (Hget 1 "The Matrix" eq_refl) as (id & Hid & _ & _ & Hname).
    exists id. split; [done |]. by apply Hname.
Defined.

Lemma add_all_strings (strings_in : list string) :
  ∀ m : StringIdMap.t,
    StringIdMap.strings
      (fold_left (λ m name, StringIdMap.add_one name m) strings_in m)
    = list_to_set strings_in ∪ StringIdMap.strings m.
Proof.
  induction strings_in as [|name rest IH]; intros m.
  - simpl. set_solver.
  - cbn [fold_left]. rewrite IH. simpl. set_solver.
Qed.

Lemma id_strings_rebuild_cache (m : StringIdMap.t) :
  StringIdMap.id_strings (StringIdMap.rebuild_cache m)
  = StringIdMap.id_strings m.
Proof. done. Qed.

Lemma strings_rebuild_cache (m : StringIdMap.t) :
  StringIdMap.strings (StringIdMap.rebuild_cache m) = StringIdMap.strings m.
Proof. done. Qed.

(** X2. An add changes no entry that is already in the table: every id in
    use before still reads the same string, and the ids in use afterwards
    are the old ones and the returned ones, which were not in use. *)
Theorem add_keeps_existing (strings_in : list string) (m : StringIdMap.t) :
  table_wf m →
  (∀ name, name ∈ strings_in → name ∉ StringIdMap.strings m) →
  (StringIdMap.next_id m + N.of_nat (length strings_in) ≤ ULONG_MODULUS)%N →
  ∃ ids m',
    StringIdMap.add strings_in m = (Ok ids, m') ∧
    (∀ id, is_Some (StringIdMap.id_strings m !! id) →
           StringIdMap.get_string id m' = StringIdMap.get_string id m) ∧
    (∀ id, StringIdMap.has_id id m' = true ↔
           StringIdMap.has_id id m = true ∨ id ∈ ids) ∧
    (∀ id, id ∈ ids → StringIdMap.has_id id m = false).
Proof.
  intros (_ & Hkeys & _ & _) Hfresh Hle.
  eexists _, _. split; [by apply add_ok |].
  rewrite ulong_advance_consecutive by done.
  unfold StringIdMap.get_string, StringIdMap.has_id, map_at.
  rewrite id_strings_rebuild_cache.
  assert (Hnew : ∀ id, id ∈ consecutive_ids (StringIdMap.next_id m)
                              (length strings_in) →
                       StringIdMap.id_strings m !! id = None).
  { intros id Hid. apply elem_of_consecutive_ids in Hid.
    destruct (StringIdMap.id_strings m !! id) eqn:Hlookup; [| done].
    assert (is_Some (StringIdMap.id_strings m !! id)) as Hsome%Hkeys by eauto.
    lia. }
  split; [| split].
  - intros id Hid. rewrite add_all_lookup_below; [done | | done].
    apply Hkeys in Hid. lia.
  - intros id. rewrite !bool_decide_eq_true. split.
    + intros Hid. apply add_all_lookup_inv in Hid as [Hid | (i & Hi & ->)];
        [by left |].
      right. rewrite ulong_advance_lt by lia.
      apply elem_of_consecutive_ids. lia.
    + intros [Hid | Hid].
      * rewrite add_all_lookup_below; [done | | done].
        apply Hkeys in Hid. lia.
      * apply elem_of_consecutive_ids in Hid.
        replace id with (ulong_advance (StringIdMap.next_id m)
                           (N.to_nat (id - StringIdMap.next_id m))).
        { apply add_all_id_strings. lia. }
        rewrite ulong_advance_lt; lia.
  - intros id Hid. apply bool_decide_eq_false_2.
    rewrite (Hnew id Hid). by intros [? ?].
Qed.

Lemma get_sorted_keys_dom (m : StringIdMap.t) :
  StringIdMap.get_sorted_keys m = dom (StringIdMap.id_strings m).
Proof.
  assert (Hfold : ∀ (l : list (N * string)) (acc : gset N) (id : N),
    id ∈ fold_left (λ (keys : gset N) (entry : N * string),
                      {[entry.1]} ∪ keys) l acc
    ↔ id ∈ l.*1 ∨ id ∈ acc).
  { induction l as [|entry l IH]; intros acc id.
    - simpl. split; [by right | intros [Hin | Hin]; [| done]].
      by apply elem_of_nil in Hin.
    - cbn [fold_left]. rewrite IH, fmap_cons, elem_of_cons. set_solver. }
  apply set_eq. intros id. unfold StringIdMap.get_sorted_keys.
  rewrite Hfold, elem_of_dom, list_elem_of_fmap. split.
  - intros [([id' name] & -> & Hin) | Hin]; [| by apply not_elem_of_empty in Hin].
    apply elem_of_map_to_list in Hin. eauto.
  - intros [name Hname]. left. exists (id, name).
    split; [done |]. by apply elem_of_map_to_list.
Qed.

(** X3. The keys that [get_sorted_keys] collects are exactly the ids in
    use: an id is among them iff [has_id] holds; [has_id] holds iff
    [get_string] returns a string, and fails iff [get_string] throws
    [std::out_of_range]. *)
Theorem get_sorted_keys_spec (m : StringIdMap.t) :
  StringIdMap.get_sorted_keys m = dom (StringIdMap.id_strings m) ∧
  (∀ id, id ∈ StringIdMap.get_sorted_keys m ↔ StringIdMap.has_id id m = true) ∧
  (∀ id, StringIdMap.has_id id m = true ↔
         ∃ name, StringIdMap.get_string id m = Ok name) ∧
  (∀ id, StringIdMap.has_id id m = false ↔
         StringIdMap.get_string id m = Throw out_of_range).
Proof.
  split; [apply get_sorted_keys_dom |]. rewrite get_sorted_keys_dom.
  unfold StringIdMap.has_id, StringIdMap.get_string, map_at.
  split; [| split].
  - intros id. by rewrite elem_of_dom, bool_decide_eq_true.
  - intros id. rewrite bool_decide_eq_true.
    destruct (StringIdMap.id_strings m !! id) as [name|].
    + split; eauto.
    + split; [by intros [? ?] | by intros [? ?]].
  - intros id. rewrite bool_decide_eq_false.
    destruct (StringIdMap.id_strings m !! id) as [name|].
    + split; [intros Hno; destruct Hno; eauto | done].
    + split; [done | by intros _ [? ?]].
Qed.

(** X4. A name that a successful add has stored is refused from then on:
    an add whose input holds such a name throws [std::invalid_argument] and
    leaves the table as it was. *)
Theorem add_again_throws (strings_in again : list string)
    (m m' : StringIdMap.t) (ids : list N) :
  StringIdMap.add strings_in m = (Ok ids, m') →
  (∃ name, name ∈ again ∧ name ∈ strings_in) →
  StringIdMap.add again m'
  = (Throw (invalid_argument "Name already exists."), m').
Proof.
  intros Hadd (name & Hagain & Hin). apply add_throw.
  exists name. split; [done |].
  apply add_inv_ok in Hadd as (_ & _ & ->). simpl.
  rewrite add_all_strings. set_solver.
Qed.

Lemma add_again_throws_witness :
  let m' := (StringIdMap.add ["Terminator"; "The Matrix"] StringIdMap.new).2 in
  StringIdMap.add ["AKIRA"; "Terminator"] m'
  = (Throw (invalid_argument "Name already exists."), m').
Proof.
  intros m'.
  apply (add_again_throws ["Terminator"; "The Matrix"] _ StringIdMap.new _
           [1; 2]%N).
  - by vm_compute.
  - exists "Terminator". split; apply list_elem_of_In; simpl; tauto.
Defined.

(** X5. After [clear] no id is in use, every lookup throws and no name is
    stored, so any names can be added, also those stored before; the ids
    they get continue from the counter, which [clear] does not reset. *)
Theorem clear_then_add (strings_in : list string) (m : StringIdMap.t) :
  (∀ id, StringIdMap.has_id id (StringIdMap.clear m) = false) ∧
  (∀ id, StringIdMap.get_string id (StringIdMap.clear m)
         = Throw out_of_range) ∧
  StringIdMap.strings (StringIdMap.clear m) = ∅ ∧
  ∃ m',
    StringIdMap.add strings_in (StringIdMap.clear m)
    = (Ok (ulong_advance (StringIdMap.next_id m)
             <$> seq 0 (length strings_in)), m') ∧
    StringIdMap.strings m' = list_to_set strings_in.
Proof.
  rewrite table_clear_eq.
  unfold StringIdMap.has_id, StringIdMap.get_string, map_at. simpl.
  split; [| split; [| split]].
  - intros id. apply bool_decide_eq_false_2. rewrite lookup_empty.
    by intros [? ?].
  - intros id. by rewrite lookup_empty.
  - done.
  - eexists. split.
    + rewrite add_ok; [reflexivity |].
      simpl. intros name _. apply not_elem_of_empty.
    + rewrite strings_rebuild_cache, add_all_strings. simpl. set_solver.
Qed.

(** *** The name table: consistency *)

Lemma table_wf_add_one (name : string) (m : StringIdMap.t) :
  table_wf m →
  name ∉ StringIdMap.strings m →
  (StringIdMap.next_id m + 1 < ULONG_MODULUS)%N →
  table_wf (StringIdMap.add_one name m).
Proof.
  intros (Hnext & Hkeys & Hnames & Hsize) Hfresh Hlt.
  assert (Hnone : StringIdMap.id_strings m !! StringIdMap.next_id m = None).
  { destruct (StringIdMap.id_strings m !! StringIdMap.next_id m) eqn:Hl;
      [| done].
    assert (is_Some (StringIdMap.id_strings m !! StringIdMap.next_id m))
      as Hsome%Hkeys by eauto. lia. }
  unfold table_wf. simpl. rewrite ulong_incr_lt by done.
  split; [lia |]. split; [| split].
  - intros id Hid. destruct (decide (StringIdMap.next_id m = id)) as [<- | Hne];
      [lia |].
    rewrite lookup_insert_ne in Hid by done. apply Hkeys in Hid. lia.
  - intros id str Hid.
    destruct (decide (StringIdMap.next_id m = id)) as [<- | Hne].
    + rewrite lookup_insert_eq in Hid. inversion Hid; subst.
      exists name. split; [set_solver | done].
    + rewrite lookup_insert_ne in Hid by done.
      destruct (Hnames id str Hid) as (name' & Hin & ->).
      exists name'. split; [set_solver | done].
  - rewrite map_size_insert_None by done.
    rewrite size_union by set_solver. rewrite size_singleton. lia.
Qed.

Lemma table_wf_add_all (strings_in : list string) :
  ∀ m : StringIdMap.t,
    table_wf m →
    NoDup strings_in →
    (∀ name, name ∈ strings_in → name ∉ StringIdMap.strings m) →
    (StringIdMap.next_id m + N.of_nat (length strings_in) < ULONG_MODULUS)%N →
    table_wf (fold_left (λ m name, StringIdMap.add_one name m) strings_in m).
Proof.
  induction strings_in as [|name rest IH]; intros m Hwf Hnd Hfresh Hlt;
    [done |].
  apply NoDup_cons in Hnd as [Hname Hnd]. cbn [fold_left]. apply IH.
  - apply table_wf_add_one; [done | | simpl in Hlt; lia].
    apply Hfresh, list_elem_of_here.
  - done.
  - intros x Hx. simpl. apply not_elem_of_union. split.
    + apply not_elem_of_singleton. by intros ->.
    + by apply Hfresh, list_elem_of_further.
  - simpl. rewrite ulong_incr_lt; simpl in Hlt; lia.
Qed.

Lemma table_wf_rebuild_cache (m : StringIdMap.t) :
  table_wf m → table_wf (StringIdMap.rebuild_cache m).
Proof. done. Qed.

Lemma table_wf_new : table_wf StringIdMap.new.
Proof.
  unfold table_wf. simpl. split; [by vm_compute |].
  split; [| split].
  - intros id [x Hx]. by rewrite lookup_empty in Hx.
  - intros id str Hx. by rewrite lookup_empty in Hx.
  - done.
Qed.

Lemma table_wf_add (strings_in : list string) (m : StringIdMap.t) :
  table_wf m →
  NoDup strings_in →
  (StringIdMap.next_id m + N.of_nat (length strings_in) < ULONG_MODULUS)%N →
  table_wf (StringIdMap.add strings_in m).2.
Proof.
  intros Hwf Hnd Hlt.
  destruct (decide (Exists (λ name, name ∈ StringIdMap.strings m)
                           strings_in)) as [Hex | Hno].
  - apply Exists_exists in Hex. by rewrite add_throw.
  - rewrite add_ok.
    + apply table_wf_rebuild_cache. apply table_wf_add_all; try done.
      intros name Hname Hin. apply Hno, Exists_exists. eauto.
    + intros name Hname Hin. apply Hno, Exists_exists. eauto.
Qed.

Lemma table_wf_clear (m : StringIdMap.t) :
  table_wf m → table_wf (StringIdMap.clear m).
Proof.
  intros (Hnext & _). rewrite table_clear_eq. unfold table_wf. simpl.
  split; [done |]. split; [| split].
  - intros id [x Hx]. by rewrite lookup_empty in Hx.
  - intros id str Hx. by rewrite lookup_empty in Hx.
  - done.
Qed.

(** X6. Consistency of the name table. The constructor establishes, and an
    add of pairwise distinct names below the wrap of the counter and [clear]
    preserve: the counter is at least 1 and below 2^64, the ids in use are
    at least 1 and below the counter, every recorded string is what
    [c_str] reads from a stored name, and there are as many ids as stored
    names. *)
Theorem table_wf_invariant :
  table_wf StringIdMap.new ∧
  (∀ strings_in m,
     table_wf m →
     NoDup strings_in →
     (StringIdMap.next_id m + N.of_nat (length strings_in) < ULONG_MODULUS)%N →
     table_wf (StringIdMap.add strings_in m).2) ∧
  (∀ m, table_wf m → table_wf (StringIdMap.clear m)).
Proof.
  split; [apply table_wf_new |].
  split; [apply table_wf_add | apply table_wf_clear].
Qed.

Lemma table_wf_invariant_witness :
  let m := (StringIdMap.add ["Terminator"; "The Matrix"] StringIdMap.new).2 in
  table_wf m ∧ table_wf (StringIdMap.clear m) ∧
  size (StringIdMap.id_strings m) = 2.
Proof.
  intros m. destruct table_wf_invariant as (Hnew & Hadd & Hclear).
  assert (Hm : table_wf m).
  { apply Hadd; [done | | by vm_compute].
    apply (bool_decide_unpack _). by vm_compute. }
  split; [done |]. split; [by apply Hclear | by vm_compute].
Defined.

Lemma add_keeps_existing_witness :
  let m := (StringIdMap.add ["Terminator"] StringIdMap.new).2 in
  ∃ ids m',
    StringIdMap.add ["The Matrix"] m = (Ok ids, m') ∧
    StringIdMap.get_string 1 m' = Ok "Terminator".
Proof.
  intros m.
  destruct (add_keeps_existing ["The Matrix"] m)
    as (ids & m' & Hadd & Hkeep & _).
  - apply table_wf_add; [apply table_wf_new | | by vm_compute].
    apply (bool_decide_unpack _). by vm_compute.
  - apply Forall_forall. by apply (bool_decide_unpack _); vm_compute.
  - by vm_compute.
  - exists ids, m'. split; [done |].
    rewrite Hkeep; [by vm_compute |].
    by apply (bool_decide_unpack _); vm_compute.
Defined.

(** *** The room: verdicts, order of the request, runs of bookings *)

Lemma book_check_INVALID (seat_available : list bool) (seats_to_book : list N) :
  CinemaRoom.book_check seat_available seats_to_book = Some INVALID →
  ∃ seat, seat ∈ seats_to_book ∧ (N.of_nat (length seat_available) ≤ seat)%N.
Proof.
  induction seats_to_book as [|seat rest IH]; [done |]. simpl.
  destruct (N.leb_spec (N.of_nat (length seat_available)) seat) as [Hge | Hlt].
  - intros _. exists seat. split; [apply list_elem_of_here | done].
  - destruct (negb _); [done |]. intros (x & Hx & Hge)%IH.
    exists x. split; [by apply list_elem_of_further | done].
Qed.

Lemma book_check_NOT_AVAILABLE (seat_available : list bool)
    (seats_to_book : list N) :
  CinemaRoom.book_check seat_available seats_to_book = Some NOT_AVAILABLE →
  ∃ seat, seat ∈ seats_to_book ∧
          seat_available !! N.to_nat seat = Some false.
Proof.
  induction seats_to_book as [|seat rest IH]; [done |]. simpl.
  destruct (N.leb_spec (N.of_nat (length seat_available)) seat) as [Hge | Hlt];
    [done |].
  rewrite (list_lookup_total_alt seat_available).
  destruct (seat_available !! N.to_nat seat) as [[|]|] eqn:Hseat; simpl.
  - intros (x & Hx & Hfalse)%IH.
    exists x. split; [by apply list_elem_of_further | done].
  - intros _. exists seat. split; [apply list_elem_of_here | done].
  - apply lookup_ge_None in Hseat. lia.
Qed.

Lemma book_seats_accepted_iff (seats_to_book : list N) (r : CinemaRoom.t) :
  (CinemaRoom.book_seats seats_to_book r).1 = ACCEPTED ↔
  ∀ seat, seat ∈ seats_to_book →
          CinemaRoom.seat_available r !! N.to_nat seat = Some true.
Proof.
  rewrite <- book_check_None. unfold CinemaRoom.book_seats.
  destruct (CinemaRoom.book_check _ _) as [result|] eqn:Hcheck; simpl.
  - split; [| done]. intros ->. by apply book_check_not_accepted in Hcheck.
  - done.
Qed.

Lemma book_seats_verdict_NA (seats_to_book : list N) (r : CinemaRoom.t) :
  (CinemaRoom.book_seats seats_to_book r).1 = NOT_AVAILABLE →
  ∃ seat, seat ∈ seats_to_book ∧
          CinemaRoom.seat_available r !! N.to_nat seat = Some false.
Proof.
  unfold CinemaRoom.book_seats.
  destruct (CinemaRoom.book_check _ _) as [result|] eqn:Hcheck; [| done].
  simpl. intros ->. by apply book_check_NOT_AVAILABLE.
Qed.

(** X7. What the result of [CinemaRoom::book_seats] tells. It is ACCEPTED
    iff every requested seat exists and is free; it is INVALID only if a
    requested seat number is not below the number of seats; it is
    NOT_AVAILABLE only if a requested seat is taken. *)
Theorem book_seats_verdict (seats_to_book : list N) (r : CinemaRoom.t) :
  let result := (CinemaRoom.book_seats seats_to_book r).1 in
  (result = ACCEPTED ↔
     ∀ seat, seat ∈ seats_to_book →
             CinemaRoom.seat_available r !! N.to_nat seat = Some true) ∧
  (result = INVALID →
     ∃ seat, seat ∈ seats_to_book ∧
             (N.of_nat (length (CinemaRoom.seat_available r)) ≤ seat)%N) ∧
  (result = NOT_AVAILABLE →
     ∃ seat, seat ∈ seats_to_book ∧
             CinemaRoom.seat_available r !! N.to_nat seat = Some false).
Proof.
  intros result. subst result. split; [apply book_seats_accepted_iff |].
  unfold CinemaRoom.book_seats.
  destruct (CinemaRoom.book_check _ _) as [result|] eqn:Hcheck; simpl.
  - split; intros ->.
    + by apply book_check_INVALID.
    + by apply book_check_NOT_AVAILABLE.
  - done.
Qed.

Lemma book_seats_verdict_witness :
  let r := (CinemaRoom.book_seats [0; 1]%N CinemaRoom.new).2 in
  (CinemaRoom.book_seats [2; 3]%N r).1 = ACCEPTED ∧
  (∃ seat, seat ∈ [5; 1]%N ∧
           CinemaRoom.seat_available r !! N.to_nat seat = Some false) ∧
  (∃ seat, seat ∈ [5; 20]%N ∧
           (N.of_nat (length (CinemaRoom.seat_available r)) ≤ seat)%N).
Proof.
  intros r.
  destruct (book_seats_verdict [2; 3]%N r) as (Hacc & _).
  destruct (book_seats_verdict [5; 1]%N r) as (_ & _ & Hna).
  destruct (book_seats_verdict [5; 20]%N r) as (_ & Hinv & _).
  split; [| split].
  - apply Hacc. apply Forall_forall. by repeat constructor.
  - apply Hna. by vm_compute.
  - apply Hinv. by vm_compute.
Defined.

Lemma book_mark_perm (seats1 seats2 : list N) (seat_available : list bool) :
  seats1 ≡ₚ seats2 →
  CinemaRoom.book_mark seat_available seats1
  = CinemaRoom.book_mark seat_available seats2.
Proof.
  intros Hperm. apply list_eq. intros i. rewrite !book_mark_lookup.
  destruct (decide (N.of_nat i ∈ seats1)) as [Hin | Hnin].
  - rewrite decide_True; [done | by rewrite <- Hperm].
  - rewrite decide_False; [done | by rewrite <- Hperm].
Qed.

(** X8. Whether a request is accepted, and the room it leaves, do not
    depend on the order in which the set of seats is iterated. *)
Theorem book_seats_order_independent
    (seats1 seats2 : list N) (r : CinemaRoom.t) :
  seats1 ≡ₚ seats2 →
  ((CinemaRoom.book_seats seats1 r).1 = ACCEPTED ↔
   (CinemaRoom.book_seats seats2 r).1 = ACCEPTED) ∧
  (CinemaRoom.book_seats seats1 r).2 = (CinemaRoom.book_seats seats2 r).2.
Proof.
  intros Hperm.
  assert (Hiff : (CinemaRoom.book_seats seats1 r).1 = ACCEPTED ↔
                 (CinemaRoom.book_seats seats2 r).1 = ACCEPTED).
  { rewrite !book_seats_accepted_iff.
    split; intros Hall seat Hseat; apply Hall.
    - by rewrite Hperm.
    - by rewrite <- Hperm. }
  split; [done |].
  destruct (decide ((CinemaRoom.book_seats seats1 r).1 = ACCEPTED))
    as [Hacc | Hrej].
  - rewrite (book_seats_accepted _ _ Hacc).
    rewrite (book_seats_accepted _ _ (proj1 Hiff Hacc)). simpl.
    by rewrite (book_mark_perm _ _ _ Hperm).
  - rewrite (book_seats_rejected _ _ Hrej).
    rewrite book_seats_rejected; [done |]. intros Hacc. by apply Hrej, Hiff.
Qed.

Lemma book_seats_order_independent_witness :
  let r := (CinemaRoom.book_seats [0%N] CinemaRoom.new).2 in
  (CinemaRoom.book_seats [0; 25]%N r).2 = (CinemaRoom.book_seats [25; 0]%N r).2
  ∧ (CinemaRoom.book_seats [3; 4]%N r).2 = (CinemaRoom.book_seats [4; 3]%N r).2.
Proof.
  intros r. split.
  - apply book_seats_order_independent. apply perm_swap.
  - apply book_seats_order_independent. apply perm_swap.
Defined.

Lemma room_wf_new : room_wf CinemaRoom.new.
Proof. split; [by vm_compute | apply room_rebuild_cache_current]. Qed.

Lemma room_wf_book_seats (seats_to_book : list N) (r : CinemaRoom.t) :
  room_wf r → room_wf (CinemaRoom.book_seats seats_to_book r).2.
Proof.
  intros [Hlen Hagree]. split; [by rewrite book_seats_length |].
  unfold CinemaRoom.book_seats.
  destruct (CinemaRoom.book_check _ _); [done |].
  apply room_rebuild_cache_current.
Qed.

Lemma book_seats_available_subset (seats_to_book : list N) (r : CinemaRoom.t)
    (i : nat) :
  CinemaRoom.seat_available (CinemaRoom.book_seats seats_to_book r).2 !! i
    = Some true →
  CinemaRoom.seat_available r !! i = Some true.
Proof.
  unfold CinemaRoom.book_seats.
  destruct (CinemaRoom.book_check _ _); [done |].
  simpl. rewrite book_mark_lookup.
  destruct (decide (N.of_nat i ∈ seats_to_book)); [| done].
  by destruct (CinemaRoom.seat_available r !! i).
Qed.

Lemma book_all_available_subset (requests : list (list N)) :
  ∀ (r : CinemaRoom.t) (i : nat),
    CinemaRoom.seat_available (book_all requests r) !! i = Some true →
    CinemaRoom.seat_available r !! i = Some true.
Proof.
  unfold book_all.
  induction requests as [|seats rest IH]; intros r i Hi; [done |].
  cbn [fold_left] in Hi. apply IH in Hi.
  by apply book_seats_available_subset in Hi.
Qed.

Lemma room_wf_book_all (requests : list (list N)) :
  ∀ r : CinemaRoom.t, room_wf r → room_wf (book_all requests r).
Proof.
  unfold book_all.
  induction requests as [|seats rest IH]; intros r Hwf; [done |].
  cbn [fold_left]. by apply IH, room_wf_book_seats.
Qed.

(** X9. Whatever requests a new room has served, it has 20 seats, its
    cached listing is the listing of its free seats, every free seat number
    is below 20, and further requests never make a seat free again. *)
Theorem room_invariant (requests : list (list N)) :
  let r := book_all requests CinemaRoom.new in
  length (CinemaRoom.seat_available r) = SEATS_PER_ROOM ∧
  CinemaRoom.get_seats r
    = seat_listing (available_indices (CinemaRoom.seat_available r)) ∧
  (∀ i, i ∈ available_indices (CinemaRoom.seat_available r) →
        i < SEATS_PER_ROOM) ∧
  (∀ later i,
     i ∈ available_indices (CinemaRoom.seat_available (book_all later r)) →
     i ∈ available_indices (CinemaRoom.seat_available r)).
Proof.
  intros r.
  destruct (room_wf_book_all requests _ room_wf_new) as [Hlen Hagree].
  fold r in Hlen, Hagree. split; [done |]. split; [| split].
  - exact Hagree.
  - intros i Hi. apply elem_of_available_indices in Hi.
    apply lookup_lt_Some in Hi. by rewrite Hlen in Hi.
  - intros later i. rewrite !elem_of_available_indices.
    apply book_all_available_subset.
Qed.

(** X10. No seat is booked twice: once a request has been accepted, a later
    request that holds one of its seats is not accepted and changes
    nothing, whatever requests were served in between. *)
Theorem no_double_booking (seats_to_book : list N) (r : CinemaRoom.t)
    (later : list (list N)) (again : list N) (seat : N) :
  (CinemaRoom.book_seats seats_to_book r).1 = ACCEPTED →
  seat ∈ seats_to_book →
  seat ∈ again →
  let r1 := book_all later (CinemaRoom.book_seats seats_to_book r).2 in
  (CinemaRoom.book_seats again r1).1 ≠ ACCEPTED ∧
  (CinemaRoom.book_seats again r1).2 = r1.
Proof.
  intros Hacc Hseat Hagain r1.
  assert (Hrej : (CinemaRoom.book_seats again r1).1 ≠ ACCEPTED).
  { subst r1. intros Hacc'.
    pose proof (proj1 (book_seats_accepted_iff _ _) Hacc' seat Hagain)
      as Hfree. clear Hacc'. rename Hfree into Hacc'.
    apply book_all_available_subset in Hacc'.
    rewrite (book_seats_accepted _ _ Hacc) in Hacc'. simpl in Hacc'.
    rewrite book_mark_lookup in Hacc'.
    rewrite decide_True in Hacc' by (by rewrite N2Nat.id).
    by destruct (CinemaRoom.seat_available r !! N.to_nat seat). }
  split; [done | by apply book_seats_rejected].
Qed.

Lemma no_double_booking_witness :
  let r1 := book_all [[5; 6]%N]
              (CinemaRoom.book_seats [0; 1; 2]%N CinemaRoom.new).2 in
  (CinemaRoom.book_seats [7; 1]%N r1).1 ≠ ACCEPTED ∧
  (CinemaRoom.book_seats [7; 1]%N r1).2 = r1.
Proof.
  apply (no_double_booking [0; 1; 2]%N CinemaRoom.new [[5; 6]%N] [7; 1]%N 1%N).
  - by vm_compute.
  - apply list_elem_of_In. simpl. tauto.
  - apply list_elem_of_In. simpl. tauto.
Defined.

(** X11. Booking two disjoint sets of seats in one request is accepted iff
    booking the first and then the second is accepted, and then both leave
    the same room. *)
Theorem book_seats_split (seats1 seats2 : list N) (r : CinemaRoom.t) :
  (∀ seat, seat ∈ seats1 → seat ∉ seats2) →
  let r1 := (CinemaRoom.book_seats seats1 r).2 in
  ((CinemaRoom.book_seats (seats1 ++ seats2) r).1 = ACCEPTED ↔
   (CinemaRoom.book_seats seats1 r).1 = ACCEPTED ∧
   (CinemaRoom.book_seats seats2 r1).1 = ACCEPTED) ∧
  ((CinemaRoom.book_seats (seats1 ++ seats2) r).1 = ACCEPTED →
   (CinemaRoom.book_seats (seats1 ++ seats2) r).2
   = (CinemaRoom.book_seats seats2 r1).2).
Proof.
  intros Hdisj r1.
  assert (Hiff : (CinemaRoom.book_seats (seats1 ++ seats2) r).1 = ACCEPTED ↔
                 (CinemaRoom.book_seats seats1 r).1 = ACCEPTED ∧
                 (CinemaRoom.book_seats seats2 r1).1 = ACCEPTED).
  { rewrite !book_seats_accepted_iff. split.
    - intros Hall.
      assert (H1 : ∀ seat, seat ∈ seats1 →
                CinemaRoom.seat_available r !! N.to_nat seat = Some true).
      { intros seat Hs. apply Hall, elem_of_app. by left. }
      split; [done |]. intros seat Hs. subst r1.
      apply book_seats_accepted_iff in H1.
      rewrite (book_seats_accepted _ _ H1). simpl.
      rewrite book_mark_lookup, N2Nat.id.
      rewrite decide_False; [apply Hall, elem_of_app; by right |].
      intros Hin. by apply (Hdisj seat).
    - intros [H1 H2] seat [Hs | Hs]%elem_of_app; [by apply H1 |].
      apply H2 in Hs. subst r1. by apply book_seats_available_subset in Hs. }
  split; [done |]. intros Hacc. destruct (proj1 Hiff Hacc) as [H1 H2].
  rewrite (book_seats_accepted _ _ Hacc), (book_seats_accepted _ _ H2).
  subst r1. rewrite (book_seats_accepted _ _ H1). simpl.
  unfold CinemaRoom.book_mark. by rewrite fold_left_app.
Qed.

Lemma book_seats_split_witness :
  (CinemaRoom.book_seats [0; 1; 2; 3]%N CinemaRoom.new).2
  = (CinemaRoom.book_seats [2; 3]%N
       (CinemaRoom.book_seats [0; 1]%N CinemaRoom.new).2).2.
Proof.
  destruct (book_seats_split [0; 1]%N [2; 3]%N CinemaRoom.new) as [_ Hsplit].
  - intros seat Hs Hs'. apply list_elem_of_In in Hs, Hs'. simpl in *.
    intuition congruence.
  - apply Hsplit. by vm_compute.
Defined.

Lemma room_invariant_witness :
  let r := book_all [[0; 1]%N; [1; 2]%N; [25]%N; [19]%N] CinemaRoom.new in
  CinemaRoom.get_seats r
    = "2,3,4,5,6,7,8,9,10,11,12,13,14,15,16,17,18" ++ CBS_EOL ∧
  (∀ i, i ∈ available_indices (CinemaRoom.seat_available r) →
        i < SEATS_PER_ROOM).
Proof.
  intros r.
  destruct (room_invariant [[0; 1]%N; [1; 2]%N; [25]%N; [19]%N])
    as (_ & Hget & Hlt & _).
  fold r in Hget, Hlt. split; [| exact Hlt].
  rewrite Hget. by vm_compute.
Defined.

(** *** The store: what a theater listing depends on *)

Lemma map_to_list_keys_dom {A B} (m1 : gmap N A) (m2 : gmap N B) :
  dom m1 = dom m2 → (map_to_list m1).*1 = (map_to_list m2).*1.
Proof.
  intros Hdom.
  assert (Hkeys : ∀ C (m : gmap N C),
    (map_to_list m).*1 = (map_to_list ((λ _, ()) <$> m)).*1).
  { intros C m. rewrite map_to_list_fmap, <- list_fmap_compose.
    apply list_fmap_ext. by intros _ [k x] _. }
  rewrite (Hkeys A m1), (Hkeys B m2). do 2 f_equal.
  apply map_eq. intros k. rewrite !lookup_fmap.
  destruct (m1 !! k) as [x|] eqn:H1; destruct (m2 !! k) as [y|] eqn:H2;
    try done.
  - apply elem_of_dom_2 in H1. rewrite Hdom in H1.
    apply elem_of_dom in H1 as [? ?]. congruence.
  - apply elem_of_dom_2 in H2. rewrite <- Hdom in H2.
    apply elem_of_dom in H2 as [? ?]. congruence.
Qed.

Lemma elem_of_map_to_list_keys {A} (m : gmap N A) (k : N) :
  k ∈ (map_to_list m).*1 ↔ is_Some (m !! k).
Proof.
  rewrite list_elem_of_fmap. split.
  - intros ([k' x] & -> & Hin). apply elem_of_map_to_list in Hin. eauto.
  - intros [x Hx]. exists (k, x). split; [done |].
    by apply elem_of_map_to_list.
Qed.

Lemma rebuild_cache_loop_ext (entries1 : list (N * CinemaRoom.t)) :
  ∀ (entries2 : list (N * CinemaRoom.t)) (ss : string)
    (s1 s2 : BookingData.t),
    entries1.*1 = entries2.*1 →
    (∀ theater_id, theater_id ∈ entries1.*1 →
       StringIdMap.id_strings (BookingData.theater_list s1) !! theater_id
       = StringIdMap.id_strings (BookingData.theater_list s2) !! theater_id) →
    (BookingData.rebuild_cache_loop entries1 ss s1).1
    = (BookingData.rebuild_cache_loop entries2 ss s2).1.
Proof.
  induction entries1 as [|[t1 r1] entries1 IH];
    intros [|[t2 r2] entries2] ss s1 s2 Hkeys Hnames; try done.
  rewrite !fmap_cons in Hkeys. simpl in Hkeys.
  inversion Hkeys as [[Ht Hrest]]. subst t2.
  cbn [BookingData.rebuild_cache_loop]. munfold.
  unfold StringIdMap.get_string, map_at.
  rewrite <- (Hnames t1) by (rewrite fmap_cons; apply list_elem_of_here).
  destruct (StringIdMap.id_strings (BookingData.theater_list s1) !! t1);
    [| done].
  apply IH; [done |]. intros t Ht. apply Hnames.
  rewrite fmap_cons. by apply list_elem_of_further.
Qed.

Lemma rebuild_cache_loop_ok_iff (entries : list (N * CinemaRoom.t)) :
  ∀ (ss : string) (s : BookingData.t),
    (∃ out, (BookingData.rebuild_cache_loop entries ss s).1 = Ok out) ↔
    ∀ theater_id, theater_id ∈ entries.*1 →
      is_Some (StringIdMap.id_strings (BookingData.theater_list s)
               !! theater_id).
Proof.
  induction entries as [|[t r] entries IH]; intros ss s.
  - split; [| by eexists]. intros _ t Ht. by apply elem_of_nil in Ht.
  - cbn [BookingData.rebuild_cache_loop]. munfold.
    unfold StringIdMap.get_string, map_at. rewrite fmap_cons. simpl.
    destruct (StringIdMap.id_strings (BookingData.theater_list s) !! t)
      as [name|] eqn:Hname.
    + rewrite IH. split.
      * intros Hall t' [-> | Ht']%elem_of_cons; eauto.
      * intros Hall t' Ht'. apply Hall. by apply list_elem_of_further.
    + split; [by intros [? ?] |]. intros Hall.
      destruct (Hall t (list_elem_of_here _ _)) as [? ?]. congruence.
Qed.

Lemma theaters_listing_ext (movie_id : N) (s1 s2 : BookingData.t) :
  (is_Some (StringIdMap.id_strings (BookingData.movie_list s1) !! movie_id) ↔
   is_Some (StringIdMap.id_strings (BookingData.movie_list s2) !! movie_id)) →
  dom <$> (BookingData.rooms s1 !! movie_id)
    = dom <$> (BookingData.rooms s2 !! movie_id) →
  (∀ rooms_for_movie theater_id,
     BookingData.rooms s1 !! movie_id = Some rooms_for_movie →
     is_Some (rooms_for_movie !! theater_id) →
     StringIdMap.id_strings (BookingData.theater_list s1) !! theater_id
     = StringIdMap.id_strings (BookingData.theater_list s2) !! theater_id) →
  (theaters_listing movie_id s1).1 = (theaters_listing movie_id s2).1.
Proof.
  intros Hmovie Hdom Hnames. unfold theaters_listing. munfold.
  unfold StringIdMap.get_string, map_at.
  destruct (StringIdMap.id_strings (BookingData.movie_list s1) !! movie_id)
    as [title1|] eqn:H1;
    destruct (StringIdMap.id_strings (BookingData.movie_list s2) !! movie_id)
    as [title2|] eqn:H2.
  - destruct (BookingData.rooms s1 !! movie_id) as [rfm1|] eqn:Hr1;
      destruct (BookingData.rooms s2 !! movie_id) as [rfm2|] eqn:Hr2;
      try done.
    simpl in Hdom. inversion Hdom as [Hdom'].
    apply rebuild_cache_loop_ext; [by apply map_to_list_keys_dom |].
    intros t Ht. apply (Hnames rfm1); [done |].
    by apply elem_of_map_to_list_keys.
  - destruct (proj1 Hmovie) as [? ?]; [eauto | congruence].
  - destruct (proj2 Hmovie) as [? ?]; [eauto | congruence].
  - done.
Qed.

Lemma theaters_listing_ok_iff (movie_id : N) (s : BookingData.t) :
  (∃ ss, (theaters_listing movie_id s).1 = Ok ss) ↔
  is_Some (StringIdMap.id_strings (BookingData.movie_list s) !! movie_id) ∧
  ∃ rooms_for_movie,
    BookingData.rooms s !! movie_id = Some rooms_for_movie ∧
    ∀ theater_id, is_Some (rooms_for_movie !! theater_id) →
      is_Some (StringIdMap.id_strings (BookingData.theater_list s)
               !! theater_id).
Proof.
  unfold theaters_listing. munfold.
  unfold StringIdMap.get_string at 1, map_at.
  destruct (StringIdMap.id_strings (BookingData.movie_list s) !! movie_id)
    as [title|].
  - destruct (BookingData.rooms s !! movie_id) as [rfm|].
    + rewrite rebuild_cache_loop_ok_iff. split.
      * intros Hall. split; [eauto |]. exists rfm. split; [done |].
        intros t Ht. by apply Hall, elem_of_map_to_list_keys.
      * intros (_ & rfm' & [= <-] & Hall) t Ht.
        by apply Hall, elem_of_map_to_list_keys.
    + split; [by intros [? ?] | by intros (_ & ? & ? & _)].
  - split; [by intros [? ?] | by intros ([? ?] & _)].
Qed.

Lemma add_id_strings_dom (strings_in : list string) (m m' : StringIdMap.t)
    (ids : list N) :
  table_wf m →
  (StringIdMap.next_id m + N.of_nat (length strings_in) ≤ ULONG_MODULUS)%N →
  StringIdMap.add strings_in m = (Ok ids, m') →
  (∀ id, is_Some (StringIdMap.id_strings m' !! id) ↔
         is_Some (StringIdMap.id_strings m !! id) ∨ id ∈ ids) ∧
  (∀ id, is_Some (StringIdMap.id_strings m !! id) →
         StringIdMap.id_strings m' !! id = StringIdMap.id_strings m !! id) ∧
  (∀ id, id ∈ ids → StringIdMap.id_strings m !! id = None).
Proof.
  intros (_ & Hkeys & _ & _) Hle Hadd.
  apply add_inv_ok in Hadd as (_ & -> & ->).
  rewrite ulong_advance_consecutive by done. rewrite id_strings_rebuild_cache.
  split; [| split].
  - intros id. split.
    + intros Hid. apply add_all_lookup_inv in Hid as [Hid | (i & Hi & ->)];
        [by left |].
      right. rewrite ulong_advance_lt by lia.
      apply elem_of_consecutive_ids. lia.
    + intros [Hid | Hid].
      * rewrite add_all_lookup_below; [done | | done].
        apply Hkeys in Hid. lia.
      * apply elem_of_consecutive_ids in Hid.
        replace id with (ulong_advance (StringIdMap.next_id m)
                           (N.to_nat (id - StringIdMap.next_id m))).
        { apply add_all_id_strings. lia. }
        rewrite ulong_advance_lt; lia.
  - intros id Hid. rewrite add_all_lookup_below; [done | | done].
    apply Hkeys in Hid. lia.
  - intros id Hid. apply elem_of_consecutive_ids in Hid.
    destruct (StringIdMap.id_strings m !! id) eqn:Hlookup; [| done].
    assert (is_Some (StringIdMap.id_strings m !! id)) as Hsome%Hkeys by eauto.
    lia.
Qed.

(** *** The store: failing adds *)

Lemma add_theaters_eq (theaters : list string) (s : BookingData.t) :
  BookingData.add_theaters theaters s
  = match StringIdMap.add theaters (BookingData.theater_list s) with
    | (Ok _, tl) => (Ok tt, BookingData.set_theater_list tl s)
    | (Throw e, tl) => (Throw e, BookingData.set_theater_list tl s)
    end.
Proof.
  unfold BookingData.add_theaters, BookingData.on_theater_list. munfold.
  by destruct (StringIdMap.add theaters (BookingData.theater_list s))
    as [[ids|e] tl].
Qed.

Lemma add_theaters_throw (theaters : list string) (s : BookingData.t) :
  (∃ name, name ∈ theaters ∧
           name ∈ StringIdMap.strings (BookingData.theater_list s)) →
  BookingData.add_theaters theaters s
  = (Throw (invalid_argument "Name already exists."), s).
Proof.
  intros Hdup. rewrite add_theaters_eq, (add_throw _ _ Hdup). by destruct s.
Qed.

(** X12. [add_movies] and [add_theaters] fail without a trace: when a name
    is already stored they throw [std::invalid_argument] and the store is
    unchanged; when none is they return normally, and [add_theaters] then
    changes neither the rooms, nor the cached theater listings, nor the
    movie table. *)
Theorem store_add_atomic (names : list string) (s : BookingData.t) :
  ((∃ name, name ∈ names ∧
            name ∈ StringIdMap.strings (BookingData.movie_list s)) →
   BookingData.add_movies names s
   = (Throw (invalid_argument "Name already exists."), s)) ∧
  ((∀ name, name ∈ names →
            name ∉ StringIdMap.strings (BookingData.movie_list s)) →
   (BookingData.add_movies names s).1 = Ok tt) ∧
  ((∃ name, name ∈ names ∧
            name ∈ StringIdMap.strings (BookingData.theater_list s)) →
   BookingData.add_theaters names s
   = (Throw (invalid_argument "Name already exists."), s)) ∧
  ((∀ name, name ∈ names →
            name ∉ StringIdMap.strings (BookingData.theater_list s)) →
   (BookingData.add_theaters names s).1 = Ok tt ∧
   BookingData.rooms (BookingData.add_theaters names s).2
     = BookingData.rooms s ∧
   BookingData.theaters_per_movie_cache (BookingData.add_theaters names s).2
     = BookingData.theaters_per_movie_cache s ∧
   BookingData.movie_list (BookingData.add_theaters names s).2
     = BookingData.movie_list s).
Proof.
  split; [apply add_movies_throw |]. split; [| split].
  - intros Hfresh.
    destruct (add_movies_ok names s _ _ (add_ok _ _ Hfresh)) as (s' & -> & _).
    done.
  - apply add_theaters_throw.
  - intros Hfresh. by rewrite add_theaters_eq, (add_ok _ _ Hfresh).
Qed.

Lemma store_add_atomic_witness :
  let s := (BookingData.add_movies ["M"] BookingData.new).2 in
  BookingData.add_movies ["N"; "M"] s
  = (Throw (invalid_argument "Name already exists."), s) ∧
  (BookingData.add_theaters ["M"] s).1 = Ok tt.
Proof.
  intros s.
  destruct (store_add_atomic ["N"; "M"] s) as (Hthrow & _).
  destruct (store_add_atomic ["M"] s) as (_ & _ & _ & Hok).
  split.
  - apply Hthrow. exists "M". split; [| by vm_compute].
    apply list_elem_of_In. simpl. tauto.
  - apply Hok. intros name _. by vm_compute.
Defined.

(** *** The store: assigning theaters to a movie *)

Lemma for_each_put {S A} (f : A → S → S) (l : list A) :
  ∀ s : S,
    for_each l (λ x, s0 ← get; put (f x s0)) s
    = (Ok tt, fold_left (λ s0 x, f x s0) l s).
Proof.
  induction l as [|x l IH]; intros s; [done |].
  cbn [for_each fold_left]. munfold. apply IH.
Qed.

Lemma assigned_check_ok (movie_id : N) (theaters : list N)
    (s : BookingData.t) (rooms_for_movie : gmap N CinemaRoom.t) :
  BookingData.rooms s !! movie_id = Some rooms_for_movie →
  (∀ theater_id, theater_id ∈ theaters →
                 rooms_for_movie !! theater_id = None) →
  for_each theaters (λ theater_id,
    rooms_for_this_movie ← const_call (λ s,
                              map_at (BookingData.rooms s) movie_id);
    if decide (is_Some (rooms_for_this_movie !! theater_id))
    then throw (runtime_error "Theater already displaying the movie")
    else mret tt) s
  = (Ok tt, s).
Proof.
  intros Hm. induction theaters as [|theater_id rest IH]; intros Hnone;
    [done |].
  cbn [for_each]. unfold map_at. munfold. rewrite Hm.
  rewrite decide_False.
  - unfold map_at in IH. munfold. apply IH.
    intros t Ht. by apply Hnone, list_elem_of_further.
  - rewrite (Hnone theater_id) by apply list_elem_of_here. by intros [? ?].
Qed.

Lemma emplace_room_rooms (movie_id theater_id : N) (c : CinemaRoom.t)
    (s : BookingData.t) (rooms_for_movie : gmap N CinemaRoom.t) :
  BookingData.rooms s !! movie_id = Some rooms_for_movie →
  BookingData.rooms (BookingData.emplace_room movie_id theater_id c s)
  = <[movie_id := match rooms_for_movie !! theater_id with
                  | Some _ => rooms_for_movie
                  | None => <[theater_id := c]> rooms_for_movie
                  end]> (BookingData.rooms s).
Proof.
  intros Hm. unfold BookingData.emplace_room. simpl.
  apply map_eq. intros k. destruct (decide (movie_id = k)) as [<- | Hne].
  - by rewrite lookup_alter_eq, lookup_insert_eq, Hm.
  - by rewrite lookup_alter_ne, lookup_insert_ne.
Qed.

Lemma emplace_all (movie_id : N) (c : CinemaRoom.t) (theaters : list N) :
  ∀ (s : BookingData.t) (rooms_for_movie : gmap N CinemaRoom.t),
    BookingData.rooms s !! movie_id = Some rooms_for_movie →
    ∃ rooms_for_movie',
      fold_left (λ s0 theater_id,
                   BookingData.emplace_room movie_id theater_id c s0)
                theaters s
      = BookingData.set_rooms
          (<[movie_id := rooms_for_movie']> (BookingData.rooms s)) s ∧
      ∀ theater_id,
        rooms_for_movie' !! theater_id
        = match rooms_for_movie !! theater_id with
          | Some room => Some room
          | None => if decide (theater_id ∈ theaters) then Some c else None
          end.
Proof.
  induction theaters as [|t rest IH]; intros s rfm Hm.
  - exists rfm. split.
    + simpl. rewrite insert_id by done. by destruct s.
    + intros t. destruct (rfm !! t); [done |].
      rewrite decide_False; [done | apply not_elem_of_nil].
  - cbn [fold_left].
    set (rfm1 := match rfm !! t with
                 | Some _ => rfm
                 | None => <[t := c]> rfm
                 end).
    destruct (IH (BookingData.emplace_room movie_id t c s) rfm1)
      as (rfm' & Hfold & Hlookup).
    { rewrite (emplace_room_rooms _ _ _ _ _ Hm). by rewrite lookup_insert_eq. }
    exists rfm'. split.
    + rewrite Hfold, (emplace_room_rooms _ _ _ _ _ Hm).
      unfold BookingData.set_rooms, BookingData.emplace_room. simpl.
      by rewrite insert_insert_eq.
    + intros t'. rewrite Hlookup. subst rfm1.
      destruct (decide (t = t')) as [<- | Hne].
      * destruct (rfm !! t) as [room|] eqn:Ht.
        -- by rewrite Ht.
        -- rewrite lookup_insert_eq. rewrite decide_True; [done |].
           apply list_elem_of_here.
      * assert (Hsame : (match rfm !! t with
                         | Some _ => rfm
                         | None => <[t := c]> rfm
                         end) !! t' = rfm !! t').
        { destruct (rfm !! t); [done | by rewrite lookup_insert_ne]. }
        rewrite Hsame. destruct (rfm !! t'); [done |].
        destruct (decide (t' ∈ rest)) as [Hin | Hnin].
        -- rewrite decide_True; [done | by apply list_elem_of_further].
        -- rewrite decide_False; [done |].
           intros [-> | Hin]%elem_of_cons; done.
Qed.

(** What a call that returns has done. *)
Lemma add_theaters_to_movie_inv (movie_id : N) (theaters : list N)
    (s s' : BookingData.t) :
  BookingData.add_theaters_to_movie movie_id theaters s = (Ok tt, s') →
  ∃ rooms_for_movie rooms_for_movie' ss,
    BookingData.rooms s !! movie_id = Some rooms_for_movie ∧
    (∀ theater_id, theater_id ∈ theaters →
                   rooms_for_movie !! theater_id = None) ∧
    (∀ theater_id,
       rooms_for_movie' !! theater_id
       = match rooms_for_movie !! theater_id with
         | Some room => Some room
         | None => if decide (theater_id ∈ theaters)
                   then Some CinemaRoom.new else None
         end) ∧
    (theaters_listing movie_id
       (BookingData.set_rooms
          (<[movie_id := rooms_for_movie']> (BookingData.rooms s)) s)).1
      = Ok ss ∧
    s' = {| BookingData.movie_list := BookingData.movie_list s;
            BookingData.theater_list := BookingData.theater_list s;
            BookingData.rooms :=
              <[movie_id := rooms_for_movie']> (BookingData.rooms s);
            BookingData.theaters_per_movie_cache :=
              <[movie_id := ss]> (BookingData.theaters_per_movie_cache s) |}.
Proof.
  unfold BookingData.add_theaters_to_movie.
  unfold mbind at 1 2 3, M_bind at 1 2 3, const_call at 1, map_at at 1.
  destruct (BookingData.rooms s !! movie_id) as [rfm|] eqn:Hm; [| done].
  destruct (decide (Exists (λ t, is_Some (rfm !! t)) theaters))
    as [Hex | Hno].
  { apply Exists_exists in Hex.
    by rewrite (assigned_check_throw _ _ _ _ Hm Hex). }
  assert (Hnone : ∀ t, t ∈ theaters → rfm !! t = None).
  { intros t Ht. destruct (rfm !! t) eqn:Hl; [| done].
    destruct Hno. apply Exists_exists. exists t. rewrite Hl. eauto. }
  rewrite (assigned_check_ok _ _ _ _ Hm Hnone).
  rewrite (for_each_put (λ theater_id s0,
             BookingData.emplace_room movie_id theater_id CinemaRoom.new s0)).
  destruct (emplace_all movie_id CinemaRoom.new theaters s rfm Hm)
    as (rfm' & -> & Hlookup).
  rewrite store_rebuild_cache_eq.
  destruct (theaters_listing movie_id _).1 as [ss|e] eqn:Hlisting; [| done].
  intros [= <-]. exists rfm, rfm', ss. by repeat split.
Qed.

(** X13. The two failures that [add_theaters_to_movie] checks for: for a
    movie that has no entry it throws [std::out_of_range], for a theater
    that already shows the movie it throws [std::runtime_error]; both leave
    the store unchanged. *)
Theorem add_theaters_to_movie_checked_failures
    (movie_id : N) (theaters : list N) (s : BookingData.t) :
  (BookingData.rooms s !! movie_id = None →
   BookingData.add_theaters_to_movie movie_id theaters s
   = (Throw out_of_range, s)) ∧
  (∀ theater_id,
     theater_id ∈ theaters →
     is_Some (room_at s movie_id theater_id) →
     BookingData.add_theaters_to_movie movie_id theaters s
     = (Throw (runtime_error "Theater already displaying the movie"), s)).
Proof.
  split; [apply add_theaters_to_movie_unknown_movie |].
  intros theater_id Hin Hroom. unfold room_at in Hroom.
  destruct (BookingData.rooms s !! movie_id) as [rfm|] eqn:Hm;
    [| by destruct Hroom].
  apply (add_theaters_to_movie_already_assigned _ _ _ rfm Hm). eauto.
Qed.

Lemma add_theaters_to_movie_checked_failures_witness :
  let s := (BookingData.add_theaters_to_movie 1 [1%N]
              (BookingData.add_theaters ["T"; "U"]
                 (BookingData.add_movies ["M"] BookingData.new).2).2).2 in
  BookingData.add_theaters_to_movie 2 [1%N] s = (Throw out_of_range, s) ∧
  BookingData.add_theaters_to_movie 1 [2; 1]%N s
  = (Throw (runtime_error "Theater already displaying the movie"), s).
Proof.
  intros s.
  destruct (add_theaters_to_movie_checked_failures 2 [1%N] s) as [Hmovie _].
  destruct (add_theaters_to_movie_checked_failures 1 [2; 1]%N s)
    as [_ Hassigned].
  split; [apply Hmovie; by vm_compute |].
  apply (Hassigned 1%N); [apply list_elem_of_In; simpl; tauto |].
  by apply (bool_decide_unpack _); vm_compute.
Defined.

Lemma add_theaters_to_movie_run (movie_id : N) (theaters : list N)
    (s : BookingData.t) (rooms_for_movie : gmap N CinemaRoom.t) :
  BookingData.rooms s !! movie_id = Some rooms_for_movie →
  (∀ theater_id, theater_id ∈ theaters →
                 rooms_for_movie !! theater_id = None) →
  ∃ rooms_for_movie',
    (∀ theater_id,
       rooms_for_movie' !! theater_id
       = match rooms_for_movie !! theater_id with
         | Some room => Some room
         | None => if decide (theater_id ∈ theaters)
                   then Some CinemaRoom.new else None
         end) ∧
    BookingData.add_theaters_to_movie movie_id theaters s
    = BookingData.rebuild_cache movie_id
        (BookingData.set_rooms
           (<[movie_id := rooms_for_movie']> (BookingData.rooms s)) s).
Proof.
  intros Hm Hnone.
  destruct (emplace_all movie_id CinemaRoom.new theaters s _ Hm)
    as (rfm' & Hfold & Hlookup).
  exists rfm'. split; [done |].
  unfold BookingData.add_theaters_to_movie.
  unfold mbind at 1 2 3, M_bind at 1 2 3, const_call at 1, map_at at 1.
  rewrite Hm, (assigned_check_ok _ _ _ _ Hm Hnone).
  rewrite (for_each_put (λ theater_id s0,
             BookingData.emplace_room movie_id theater_id CinemaRoom.new s0)).
  by rewrite Hfold.
Qed.

Lemma room_at_set_rooms_insert (s : BookingData.t) (movie_id : N)
    (rooms_for_movie : gmap N CinemaRoom.t) (m t : N) :
  room_at (BookingData.set_rooms
             (<[movie_id := rooms_for_movie]> (BookingData.rooms s)) s) m t
  = if decide (m = movie_id) then rooms_for_movie !! t else room_at s m t.
Proof.
  unfold room_at. simpl. destruct (decide (m = movie_id)) as [-> | Hne].
  - by rewrite lookup_insert_eq.
  - by rewrite lookup_insert_ne.
Qed.

Lemma add_theaters_to_movie_wf_ok (movie_id : N) (theaters : list N)
    (s : BookingData.t) :
  store_wf s →
  StringIdMap.has_id movie_id (BookingData.movie_list s) = true →
  (∀ theater_id, theater_id ∈ theaters →
     StringIdMap.has_id theater_id (BookingData.theater_list s) = true ∧
     room_at s movie_id theater_id = None) →
  ∃ s',
    BookingData.add_theaters_to_movie movie_id theaters s = (Ok tt, s') ∧
    BookingData.movie_list s' = BookingData.movie_list s ∧
    BookingData.theater_list s' = BookingData.theater_list s ∧
    (∀ theater_id, theater_id ∈ theaters →
       room_at s' movie_id theater_id = Some CinemaRoom.new ∧
       BookingData.get_available_seats movie_id theater_id s'
       = Ok ("0,1,2,3,4,5,6,7,8,9,10,11,12,13,14,15,16,17,18,19" ++ CBS_EOL)) ∧
    (∀ m t, m ≠ movie_id ∨ t ∉ theaters → room_at s' m t = room_at s m t) ∧
    (∀ m, m ≠ movie_id →
       BookingData.theaters_per_movie_cache s' !! m
       = BookingData.theaters_per_movie_cache s !! m) ∧
    theaters_cache_agrees movie_id s'.
Proof.
  intros (_ & _ & _ & _ & Hdom & _ & Hknown & _ & _) Hmovie Htheaters.
  apply bool_decide_eq_true in Hmovie.
  assert (Hin : movie_id ∈ dom (BookingData.rooms s)).
  { rewrite Hdom. by apply elem_of_dom. }
  apply elem_of_dom in Hin as [rfm Hm].
  assert (Hnone : ∀ t, t ∈ theaters → rfm !! t = None).
  { intros t Ht. destruct (Htheaters t Ht) as [_ Hroom].
    unfold room_at in Hroom. by rewrite Hm in Hroom. }
  destruct (add_theaters_to_movie_run _ _ _ _ Hm Hnone)
    as (rfm' & Hlookup & Hrun).
  set (s2 := BookingData.set_rooms
               (<[movie_id := rfm']> (BookingData.rooms s)) s) in *.
  assert (Hlisting : ∃ ss, (theaters_listing movie_id s2).1 = Ok ss).
  { apply theaters_listing_ok_iff. split; [done |]. exists rfm'.
    split; [by subst s2; simpl; rewrite lookup_insert_eq |].
    intros t Ht. rewrite Hlookup in Ht. simpl.
    destruct (rfm !! t) as [room|] eqn:Hold.
    - apply (Hknown movie_id t). unfold room_at. rewrite Hm. simpl.
      rewrite Hold. eauto.
    - destruct (decide (t ∈ theaters)) as [Hin | _]; [| by destruct Ht].
      destruct (Htheaters t Hin) as [Hhas _].
      by apply bool_decide_eq_true in Hhas. }
  destruct Hlisting as [ss Hss].
  assert (Hs' : BookingData.add_theaters_to_movie movie_id theaters s
    = (Ok tt, BookingData.set_cache
         (<[movie_id := ss]> (BookingData.theaters_per_movie_cache s2)) s2)).
  { by rewrite Hrun, store_rebuild_cache_eq, Hss. }
  eexists. split; [exact Hs' |]. split; [done |]. split; [done |].
  assert (Hroom : ∀ m t,
    room_at (BookingData.set_cache
               (<[movie_id := ss]> (BookingData.theaters_per_movie_cache s2))
               s2) m t
    = if decide (m = movie_id) then rfm' !! t else room_at s m t).
  { intros m t. by rewrite <- room_at_set_rooms_insert. }
  split; [| split; [| split]].
  - intros t Ht.
    assert (Hnew : rfm' !! t = Some CinemaRoom.new).
    { by rewrite Hlookup, (Hnone t Ht), decide_True. }
    split; [by rewrite Hroom, decide_True |].
    unfold BookingData.get_available_seats, map_at. subst s2. simpl.
    by rewrite lookup_insert_eq, Hnew.
  - intros m t Hother. rewrite Hroom.
    destruct (decide (m = movie_id)) as [-> | Hne]; [| done].
    destruct Hother as [? | Hnin]; [done |].
    unfold room_at. rewrite Hm. simpl. rewrite Hlookup.
    destruct (rfm !! t); [done |]. by rewrite decide_False.
  - intros m Hne. simpl. by rewrite lookup_insert_ne.
  - apply (store_rebuild_cache_agrees movie_id s2).
    by rewrite store_rebuild_cache_eq, Hss.
Qed.


(** *** The store: consistency *)

Lemma theaters_cache_agrees_transfer (movie_id : N) (s1 s2 : BookingData.t) :
  theaters_cache_agrees movie_id s1 →
  (theaters_listing movie_id s2).1 = (theaters_listing movie_id s1).1 →
  BookingData.theaters_per_movie_cache s2 !! movie_id
  = BookingData.theaters_per_movie_cache s1 !! movie_id →
  theaters_cache_agrees movie_id s2.
Proof.
  rewrite !theaters_cache_agrees_iff. intros (ss & Hlisting & Hcache) -> ->.
  eauto.
Qed.

Lemma store_wf_rebuild (s : BookingData.t) :
  store_wf s ↔
  table_wf (BookingData.movie_list s) ∧
  table_wf (BookingData.theater_list s) ∧
  table_cache_agrees (BookingData.movie_list s) ∧
  table_cache_agrees (BookingData.theater_list s) ∧
  dom (BookingData.rooms s)
    = dom (StringIdMap.id_strings (BookingData.movie_list s)) ∧
  dom (BookingData.theaters_per_movie_cache s) = dom (BookingData.rooms s) ∧
  (∀ movie_id theater_id,
     is_Some (room_at s movie_id theater_id) →
     is_Some (StringIdMap.id_strings (BookingData.theater_list s)
              !! theater_id)) ∧
  (∀ movie_id, is_Some (BookingData.rooms s !! movie_id) →
               theaters_cache_agrees movie_id s) ∧
  (∀ movie_id theater_id room,
     room_at s movie_id theater_id = Some room → room_wf room).
Proof.
  unfold store_wf. rewrite !table_listing_current_iff.
  split; intros (Hml & Htl & Hmlc & Htlc & Hdom & Hcache & Hknown & Hagree
                 & Hrooms);
    repeat (split; [done |]); (split; [| done]);
    intros movie_id Hin; by apply theaters_listing_current_iff, Hagree.
Qed.

Lemma store_wf_new : store_wf BookingData.new.
Proof.
  assert (Hnew : BookingData.new
    = {| BookingData.movie_list := StringIdMap.new;
         BookingData.theater_list := StringIdMap.new;
         BookingData.rooms := ∅;
         BookingData.theaters_per_movie_cache := ∅ |}) by (by vm_compute).
  rewrite Hnew. apply store_wf_rebuild. unfold room_at. simpl.
  split; [apply table_wf_new |]. split; [apply table_wf_new |].
  split; [by vm_compute |]. split; [by vm_compute |].
  split; [by rewrite !dom_empty_L |]. split; [by rewrite !dom_empty_L |].
  split; [| split].
  - intros m t [x Hx]. by rewrite lookup_empty in Hx.
  - intros m [x Hx]. by rewrite lookup_empty in Hx.
  - intros m t room Hx. by rewrite lookup_empty in Hx.
Qed.

Lemma store_wf_clear (s : BookingData.t) :
  store_wf s → store_wf (BookingData.clear s).2.
Proof.
  intros (Hml & Htl & _). rewrite store_clear_eq.
  apply store_wf_rebuild. unfold room_at. simpl.
  split; [by apply table_wf_clear |]. split; [by apply table_wf_clear |].
  split; [apply table_rebuild_cache_agrees |].
  split; [apply table_rebuild_cache_agrees |].
  rewrite !table_clear_eq. simpl.
  split; [by rewrite !dom_empty_L |]. split; [by rewrite !dom_empty_L |].
  split; [| split].
  - intros m t [x Hx]. by rewrite lookup_empty in Hx.
  - intros m [x Hx]. by rewrite lookup_empty in Hx.
  - intros m t room Hx. by rewrite lookup_empty in Hx.
Qed.

Lemma store_wf_book_seats (movie_id theater_id : N) (seats : list N)
    (s : BookingData.t) :
  store_wf s →
  store_wf (BookingData.book_seats movie_id theater_id seats s).2.
Proof.
  intros Hwf. rewrite store_book_seats_eq.
  destruct (BookingData.rooms s !! movie_id) as [rfm|] eqn:Hm; [| done].
  destruct (rfm !! theater_id) as [room|] eqn:Ht; [| done].
  apply store_wf_rebuild in Hwf.
  destruct Hwf
    as (Hml & Htl & Hmlc & Htlc & Hdom & Hcache & Hknown & Hagree & Hrooms).
  set (room' := (CinemaRoom.book_seats seats room).2).
  cbn [snd].
  assert (Hroom_old : room_at s movie_id theater_id = Some room).
  { unfold room_at. rewrite Hm. simpl. by rewrite Ht. }
  assert (Hdom' : dom (<[movie_id := <[theater_id := room']> rfm]>
                         (BookingData.rooms s)) = dom (BookingData.rooms s)).
  { rewrite dom_insert_L. apply subseteq_union_1_L, singleton_subseteq_l.
    by apply elem_of_dom_2 in Hm. }
  assert (Hsome : ∀ m t,
    is_Some (room_at (BookingData.set_rooms
                        (<[movie_id := <[theater_id := room']> rfm]>
                           (BookingData.rooms s)) s) m t) →
    is_Some (room_at s m t)).
  { intros m t. rewrite room_at_set_rooms_insert.
    destruct (decide (m = movie_id)) as [-> | Hne]; [| done].
    destruct (decide (theater_id = t)) as [<- | Hne].
    - rewrite Hroom_old. eauto.
    - rewrite lookup_insert_ne by done. unfold room_at. by rewrite Hm. }
  apply store_wf_rebuild. simpl.
  split; [done |]. split; [done |]. split; [done |]. split; [done |].
  split; [by rewrite Hdom' |].
  split; [by rewrite Hdom' |]. split; [| split].
  - intros m t Hroom. by apply (Hknown m), Hsome.
  - intros m Hin.
    assert (Hin' : is_Some (BookingData.rooms s !! m)).
    { apply elem_of_dom. rewrite <- Hdom'. by apply elem_of_dom. }
    apply (theaters_cache_agrees_transfer m s); [by apply Hagree | | done].
    apply theaters_listing_ext; [done | | done]. simpl.
    destruct (decide (m = movie_id)) as [-> | Hne].
    + rewrite lookup_insert_eq, Hm. simpl. f_equal.
      rewrite dom_insert_L. apply subseteq_union_1_L, singleton_subseteq_l.
      by apply elem_of_dom_2 in Ht.
    + by rewrite lookup_insert_ne.
  - intros m t r. rewrite room_at_set_rooms_insert.
    destruct (decide (m = movie_id)) as [-> | Hne]; [| apply Hrooms].
    destruct (decide (theater_id = t)) as [<- | Hne].
    + rewrite lookup_insert_eq. intros [= <-].
      apply room_wf_book_seats. by apply (Hrooms movie_id theater_id).
    + rewrite lookup_insert_ne by done. intros Hr.
      apply (Hrooms movie_id t). unfold room_at. by rewrite Hm.
Qed.

Lemma store_wf_add_movies (movies : list string) (s : BookingData.t) :
  store_wf s →
  NoDup movies →
  (StringIdMap.next_id (BookingData.movie_list s) + N.of_nat (length movies)
   < ULONG_MODULUS)%N →
  store_wf (BookingData.add_movies movies s).2.
Proof.
  intros Hwf Hnd Hlt.
  destruct (decide (Exists (λ name, name ∈ StringIdMap.strings
                                      (BookingData.movie_list s)) movies))
    as [Hex | Hno].
  { apply Exists_exists in Hex. by rewrite add_movies_throw. }
  assert (Hfresh : ∀ name, name ∈ movies →
                     name ∉ StringIdMap.strings (BookingData.movie_list s)).
  { intros name Hname Hin. apply Hno, Exists_exists. eauto. }
  pose proof (add_ok _ _ Hfresh) as Hadd.
  destruct (add_movies_ok _ _ _ _ Hadd)
    as (s' & -> & Hml' & Htl' & Hnew & Hold).
  apply store_wf_rebuild in Hwf.
  destruct Hwf
    as (Hml & Htl & Hmlc & Htlc & Hdom & Hcache & Hknown & Hagree & Hrooms).
  destruct (add_id_strings_dom _ _ _ _ Hml (N.lt_le_incl _ _ Hlt) Hadd)
    as (Hids & Hkeep & Hnone).
  pose proof (table_wf_add movies _ Hml Hnd Hlt) as Hml_wf.
  rewrite Hadd in Hml_wf. simpl in Hml_wf.
  set (ids := ulong_advance (StringIdMap.next_id (BookingData.movie_list s))
                <$> seq 0 (length movies)) in *.
  assert (Hrooms_dom : ∀ id, is_Some (BookingData.rooms s' !! id) ↔
                             is_Some (BookingData.rooms s !! id) ∨ id ∈ ids).
  { intros id. destruct (decide (id ∈ ids)) as [Hin | Hnin].
    - destruct (Hnew id Hin) as [-> _]. split; eauto.
    - destruct (Hold id Hnin) as [-> _]. tauto. }
  assert (Hcache_dom : ∀ id,
    is_Some (BookingData.theaters_per_movie_cache s' !! id) ↔
    is_Some (BookingData.theaters_per_movie_cache s !! id) ∨ id ∈ ids).
  { intros id. destruct (decide (id ∈ ids)) as [Hin | Hnin].
    - destruct (Hnew id Hin) as [_ ->]. split; eauto.
    - destruct (Hold id Hnin) as [_ ->]. tauto. }
  assert (Hroom_at : ∀ m t, room_at s' m t
                            = if decide (m ∈ ids) then None else room_at s m t).
  { intros m t. unfold room_at. destruct (decide (m ∈ ids)) as [Hin | Hnin].
    - by destruct (Hnew m Hin) as [-> _].
    - by destruct (Hold m Hnin) as [-> _]. }
  cbn [snd]. apply store_wf_rebuild. rewrite Hml', Htl'.
  split; [done |]. split; [done |].
  split; [apply table_rebuild_cache_agrees |]. split; [done |].
  split; [| split; [| split; [| split]]].
  - apply set_eq. intros id.
    rewrite !elem_of_dom, Hrooms_dom, Hids, <- !elem_of_dom, Hdom. done.
  - apply set_eq. intros id.
    rewrite !elem_of_dom, Hrooms_dom, Hcache_dom, <- !elem_of_dom, Hcache.
    done.
  - intros m t. rewrite Hroom_at. destruct (decide (m ∈ ids)).
    + by intros [? ?].
    + apply Hknown.
  - intros m Hm. destruct (decide (m ∈ ids)) as [Hin | Hnin].
    + apply theaters_cache_agrees_iff. exists "".
      destruct (Hnew m Hin) as [Hr Hc]. split; [| done].
      destruct (proj2 (Hids m) (or_intror Hin)) as [title Htitle].
      unfold theaters_listing, StringIdMap.get_string, map_at. munfold.
      rewrite Hml', Htitle, Hr, map_to_list_empty. done.
    + destruct (Hold m Hnin) as [Hr Hc].
      assert (Hm_old : is_Some (BookingData.rooms s !! m)) by by rewrite <- Hr.
      apply (theaters_cache_agrees_transfer m s); [by apply Hagree | | done].
      apply theaters_listing_ext.
      * rewrite Hml'. split; intros _.
        -- apply elem_of_dom. rewrite <- Hdom. by apply elem_of_dom.
        -- apply Hids. left. apply elem_of_dom. rewrite <- Hdom.
           by apply elem_of_dom.
      * by rewrite Hr.
      * intros rfm t _ _. by rewrite Htl'.
  - intros m t room. rewrite Hroom_at. destruct (decide (m ∈ ids)); [done |].
    apply Hrooms.
Qed.

Lemma store_wf_add_theaters (theaters : list string) (s : BookingData.t) :
  store_wf s →
  NoDup theaters →
  (StringIdMap.next_id (BookingData.theater_list s)
   + N.of_nat (length theaters) < ULONG_MODULUS)%N →
  store_wf (BookingData.add_theaters theaters s).2.
Proof.
  intros Hwf Hnd Hlt.
  destruct (decide (Exists (λ name, name ∈ StringIdMap.strings
                                      (BookingData.theater_list s)) theaters))
    as [Hex | Hno].
  { apply Exists_exists in Hex. by rewrite add_theaters_throw. }
  assert (Hfresh : ∀ name, name ∈ theaters →
                     name ∉ StringIdMap.strings (BookingData.theater_list s)).
  { intros name Hname Hin. apply Hno, Exists_exists. eauto. }
  pose proof (add_ok _ _ Hfresh) as Hadd.
  apply store_wf_rebuild in Hwf.
  destruct Hwf
    as (Hml & Htl & Hmlc & Htlc & Hdom & Hcache & Hknown & Hagree & Hrooms).
  destruct (add_id_strings_dom _ _ _ _ Htl (N.lt_le_incl _ _ Hlt) Hadd)
    as (Hids & Hkeep & Hnone).
  pose proof (table_wf_add theaters _ Htl Hnd Hlt) as Htl_wf.
  rewrite add_theaters_eq, Hadd. rewrite Hadd in Htl_wf. simpl in Htl_wf.
  cbn [snd]. apply store_wf_rebuild. unfold room_at. simpl.
  split; [done |]. split; [done |].
  split; [done |]. split; [apply table_rebuild_cache_agrees |].
  split; [done |]. split; [done |].
  split; [| split].
  - intros m t Hroom. apply Hids. left. by apply (Hknown m t).
  - intros m Hm.
    apply (theaters_cache_agrees_transfer m s); [by apply Hagree | | done].
    apply theaters_listing_ext; [done | done |].
    intros rfm t Hrfm Ht. simpl in *. apply Hkeep, (Hknown m t).
    unfold room_at. by rewrite Hrfm.
  - apply Hrooms.
Qed.

Lemma store_wf_add_theaters_to_movie (movie_id : N) (theaters : list N)
    (s s' : BookingData.t) :
  store_wf s →
  BookingData.add_theaters_to_movie movie_id theaters s = (Ok tt, s') →
  store_wf s'.
Proof.
  intros (Hml & Htl & Hmlc & Htlc & Hdom & Hcache & Hknown & Hagree
          & Hrooms)%store_wf_rebuild Hrun.
  apply add_theaters_to_movie_inv in Hrun
    as (rfm & rfm' & ss & Hm & Hnone & Hlookup & Hlisting & ->).
  set (s2 := BookingData.set_rooms
               (<[movie_id := rfm']> (BookingData.rooms s)) s) in *.
  assert (Hdom' : dom (<[movie_id := rfm']> (BookingData.rooms s))
                  = dom (BookingData.rooms s)).
  { rewrite dom_insert_L. apply subseteq_union_1_L, singleton_subseteq_l.
    by apply elem_of_dom_2 in Hm. }
  assert (Hroom_at : ∀ m t,
    room_at {| BookingData.movie_list := BookingData.movie_list s;
               BookingData.theater_list := BookingData.theater_list s;
               BookingData.rooms :=
                 <[movie_id := rfm']> (BookingData.rooms s);
               BookingData.theaters_per_movie_cache :=
                 <[movie_id := ss]> (BookingData.theaters_per_movie_cache s)
            |} m t
    = if decide (m = movie_id) then rfm' !! t else room_at s m t).
  { intros m t. by rewrite <- room_at_set_rooms_insert. }
  assert (Hlisting_ok : ∃ out, (theaters_listing movie_id s2).1 = Ok out)
    by eauto.
  apply theaters_listing_ok_iff in Hlisting_ok
    as (_ & rfm2 & Hrfm2 & Hknown').
  subst s2. simpl in Hrfm2. rewrite lookup_insert_eq in Hrfm2.
  inversion Hrfm2; subst rfm2. simpl in Hknown'.
  apply store_wf_rebuild. cbn [BookingData.movie_list BookingData.theater_list
    BookingData.rooms BookingData.theaters_per_movie_cache].
  split; [done |]. split; [done |]. split; [done |]. split; [done |].
  split; [by rewrite Hdom' |].
  split; [| split; [| split]].
  - rewrite Hdom', dom_insert_L, Hcache.
    apply subseteq_union_1_L, singleton_subseteq_l.
    by apply elem_of_dom_2 in Hm.
  - intros m t. rewrite Hroom_at.
    destruct (decide (m = movie_id)) as [-> | Hne]; [apply Hknown' |].
    apply Hknown.
  - intros m Hin. destruct (decide (m = movie_id)) as [-> | Hne].
    + apply theaters_cache_agrees_iff. exists ss.
      split; [| by simpl; rewrite lookup_insert_eq].
      rewrite <- Hlisting. apply theaters_listing_ext; done.
    + rewrite lookup_insert_ne in Hin by done.
      apply (theaters_cache_agrees_transfer m s); [by apply Hagree | |].
      * apply theaters_listing_ext; [done | | done].
        simpl. by rewrite lookup_insert_ne.
      * simpl. by rewrite lookup_insert_ne.
  - intros m t room. rewrite Hroom_at.
    destruct (decide (m = movie_id)) as [-> | Hne]; [| apply Hrooms].
    rewrite Hlookup. destruct (rfm !! t) as [old|] eqn:Hold.
    + intros [= <-]. apply (Hrooms movie_id t). unfold room_at.
      rewrite Hm. simpl. done.
    + destruct (decide (t ∈ theaters)); [| done].
      intros [= <-]. apply room_wf_new.
Qed.

Lemma store_wf_listings (s : BookingData.t) :
  store_wf s →
  BookingData.get_movies s
  = name_listing (map_to_list
                    (StringIdMap.id_strings (BookingData.movie_list s))) ∧
  (∀ movie_id,
     StringIdMap.has_id movie_id (BookingData.movie_list s) = true →
     ∃ rooms_for_movie entries,
       BookingData.rooms s !! movie_id = Some rooms_for_movie ∧
       theater_entries (StringIdMap.id_strings (BookingData.theater_list s))
                       (map_to_list rooms_for_movie) = Some entries ∧
       BookingData.get_theaters_for_movie movie_id s
       = Ok (name_listing entries)) ∧
  (∀ movie_id theater_id room,
     room_at s movie_id theater_id = Some room →
     length (CinemaRoom.seat_available room) = SEATS_PER_ROOM ∧
     BookingData.get_available_seats movie_id theater_id s
     = Ok (seat_listing
             (available_indices (CinemaRoom.seat_available room)))).
Proof.
  intros (_ & _ & Hmlc & _ & Hdom & _ & _ & Hagree & Hrooms).
  split; [exact Hmlc |]. split.
  - intros movie_id Hhas%bool_decide_eq_true.
    assert (Hin : is_Some (BookingData.rooms s !! movie_id)).
    { apply elem_of_dom. rewrite Hdom. by apply elem_of_dom. }
    destruct (Hagree movie_id Hin)
      as (_ & rooms_for_movie & entries & Hfound & Hentries & Hcache).
    exists rooms_for_movie, entries. split; [done |]. split; [done |].
    unfold BookingData.get_theaters_for_movie, map_at. by rewrite Hcache.
  - intros movie_id theater_id room Hroom.
    destruct (Hrooms _ _ _ Hroom) as [Hlen Hcurrent]. split; [done |].
    unfold BookingData.get_available_seats, map_at. unfold room_at in Hroom.
    destruct (BookingData.rooms s !! movie_id) as [rfm|]; [| done].
    simpl in Hroom. rewrite Hroom. unfold CinemaRoom.get_seats.
    by rewrite Hcurrent.
Qed.

(** X15. Consistency of the store, with every cached listing stated as
    the listing computed from the contents alone, not by the rebuild
    functions of the code. The constructor establishes, and [add_movies]
    and [add_theaters] (pairwise distinct names, no wrap of the counter), a
    returning [add_theaters_to_movie], [book_seats] and [clear] preserve:
    both tables are consistent and their cached listing is one line per
    entry; exactly the movies in use have a room map and a cached theater
    listing; every room belongs to a theater in use; the cached theater
    listing of a movie is one line per room with the id and the name of its
    theater; every room has 20 seats and its cached listing is the listing
    of its free seats. Hence in a consistent store [get_movies],
    [get_theaters_for_movie] and [get_available_seats] return these
    listings of the current contents. *)
Theorem store_wf_invariant :
  store_wf BookingData.new ∧
  (∀ movies s,
     store_wf s → NoDup movies →
     (StringIdMap.next_id (BookingData.movie_list s)
      + N.of_nat (length movies) < ULONG_MODULUS)%N →
     store_wf (BookingData.add_movies movies s).2) ∧
  (∀ theaters s,
     store_wf s → NoDup theaters →
     (StringIdMap.next_id (BookingData.theater_list s)
      + N.of_nat (length theaters) < ULONG_MODULUS)%N →
     store_wf (BookingData.add_theaters theaters s).2) ∧
  (∀ movie_id theaters s s',
     store_wf s →
     BookingData.add_theaters_to_movie movie_id theaters s = (Ok tt, s') →
     store_wf s') ∧
  (∀ movie_id theater_id seats s,
     store_wf s →
     store_wf (BookingData.book_seats movie_id theater_id seats s).2) ∧
  (∀ s, store_wf s → store_wf (BookingData.clear s).2) ∧
  (∀ s,
     store_wf s →
     BookingData.get_movies s
     = name_listing (map_to_list
                       (StringIdMap.id_strings (BookingData.movie_list s))) ∧
     (∀ movie_id,
        StringIdMap.has_id movie_id (BookingData.movie_list s) = true →
        ∃ rooms_for_movie entries,
          BookingData.rooms s !! movie_id = Some rooms_for_movie ∧
          theater_entries
            (StringIdMap.id_strings (BookingData.theater_list s))
            (map_to_list rooms_for_movie) = Some entries ∧
          BookingData.get_theaters_for_movie movie_id s
          = Ok (name_listing entries)) ∧
     (∀ movie_id theater_id room,
        room_at s movie_id theater_id = Some room →
        length (CinemaRoom.seat_available room) = SEATS_PER_ROOM ∧
        BookingData.get_available_seats movie_id theater_id s
        = Ok (seat_listing
                (available_indices (CinemaRoom.seat_available room))))).
Proof.
  split; [apply store_wf_new |].
  split; [apply store_wf_add_movies |].
  split; [apply store_wf_add_theaters |].
  split; [apply store_wf_add_theaters_to_movie |].
  split; [apply store_wf_book_seats |].
  split; [apply store_wf_clear | apply store_wf_listings].
Qed.

Lemma store_wf_invariant_witness :
  let s := (BookingData.add_theaters_to_movie 1 [1%N]
              (BookingData.add_theaters ["T"]
                 (BookingData.add_movies ["M"] BookingData.new).2).2).2 in
  let s' := (BookingData.book_seats 1 1 [0; 1]%N s).2 in
  store_wf s ∧ store_wf s' ∧
  BookingData.get_available_seats 1 1 s'
  = Ok ("2,3,4,5,6,7,8,9,10,11,12,13,14,15,16,17,18,19" ++ CBS_EOL).
Proof.
  intros s s'.
  destruct store_wf_invariant
    as (Hnew & Hmovies & Htheaters & Hassign & Hbook & _ & Hlistings).
  assert (Hs : store_wf s).
  { apply (Hassign 1%N [1%N]
             (BookingData.add_theaters ["T"]
                (BookingData.add_movies ["M"] BookingData.new).2).2);
      [| by vm_compute].
    apply Htheaters; [| by apply (bool_decide_unpack _); vm_compute
                      | by vm_compute].
    apply Hmovies; [done | by apply (bool_decide_unpack _); vm_compute
                    | by vm_compute]. }
  assert (Hs' : store_wf s') by by apply Hbook.
  split; [done |]. split; [done |].
  destruct (Hlistings s' Hs') as (_ & _ & Hseats).
  destruct (Hseats 1%N 1%N
              (CinemaRoom.book_seats [0; 1]%N CinemaRoom.new).2)
    as [_ ->]; by vm_compute.
Defined.


(** *** The store: what is listed after a booking *)

Lemma available_indices_book_mark (seat_available : list bool)
    (seats_to_book : list N) :
  available_indices (CinemaRoom.book_mark seat_available seats_to_book)
  = filter (λ i, N.of_nat i ∉ seats_to_book)
           (available_indices seat_available).
Proof.
  unfold available_indices. rewrite length_book_mark, list_filter_filter.
  apply list_filter_iff. intros i. rewrite book_mark_lookup.
  destruct (decide (N.of_nat i ∈ seats_to_book)) as [Hin | Hnin].
  - split; [| tauto]. by destruct (seat_available !! i).
  - tauto.
Qed.

(** X16. What [get_available_seats] returns after [book_seats] on an
    existing room: the result of the store is the result of the room; after
    an accepted request the listing is the previous free seats without the
    requested ones, after any other result it is the previous listing. *)
Theorem list_after_book (movie_id theater_id : N) (seats : list N)
    (s : BookingData.t) (room : CinemaRoom.t) :
  room_at s movie_id theater_id = Some room →
  room_cache_agrees room →
  let outcome := BookingData.book_seats movie_id theater_id seats s in
  outcome.1 = Ok (CinemaRoom.book_seats seats room).1 ∧
  (outcome.1 = Ok ACCEPTED →
     BookingData.get_available_seats movie_id theater_id outcome.2
     = Ok (seat_listing
             (filter (λ i, N.of_nat i ∉ seats)
                     (available_indices (CinemaRoom.seat_available room))))) ∧
  (outcome.1 ≠ Ok ACCEPTED →
     BookingData.get_available_seats movie_id theater_id outcome.2
     = Ok (seat_listing
             (available_indices (CinemaRoom.seat_available room)))).
Proof.
  intros Hroom Hagree outcome. subst outcome.
  assert (Hget : ∀ s0 r, room_at s0 movie_id theater_id = Some r →
    BookingData.get_available_seats movie_id theater_id s0
    = Ok (CinemaRoom.seat_cache r)).
  { intros s0 r. unfold room_at, BookingData.get_available_seats, map_at.
    destruct (BookingData.rooms s0 !! movie_id) as [rfm|]; [| done].
    simpl. by intros ->. }
  pose proof (room_at_book_seats movie_id theater_id seats s) as Hafter.
  rewrite Hroom in Hafter. simpl in Hafter.
  rewrite (Hget _ _ Hafter).
  assert (Hres : (BookingData.book_seats movie_id theater_id seats s).1
                 = Ok (CinemaRoom.book_seats seats room).1).
  { rewrite store_book_seats_eq. unfold room_at in Hroom.
    destruct (BookingData.rooms s !! movie_id) as [rfm|]; [| done].
    simpl in Hroom. by rewrite Hroom. }
  rewrite Hres. split; [done |]. split.
  - intros [= Hacc]. rewrite (book_seats_accepted _ _ Hacc). cbn [snd].
    rewrite rebuild_cache_listing. simpl.
    by rewrite available_indices_book_mark.
  - intros Hrej. rewrite book_seats_rejected by congruence.
    rewrite Hagree. by rewrite rebuild_cache_listing.
Qed.

Lemma list_after_book_witness :
  let s := (BookingData.add_theaters_to_movie 1 [1%N]
              (BookingData.add_theaters ["T"]
                 (BookingData.add_movies ["M"] BookingData.new).2).2).2 in
  BookingData.get_available_seats 1 1
    (BookingData.book_seats 1 1 [0; 1; 2]%N s).2
  = Ok ("3,4,5,6,7,8,9,10,11,12,13,14,15,16,17,18,19" ++ CBS_EOL).
Proof.
  intros s.
  destruct (list_after_book 1 1 [0; 1; 2]%N s CinemaRoom.new)
    as (_ & Hacc & _).
  - by vm_compute.
  - apply room_rebuild_cache_agrees.
  - rewrite Hacc; by vm_compute.
Defined.

(** X17. In a consistent store, adding movies none of which is stored and
    below the wrap of the counter succeeds: the movie ids grow by the
    consecutive ids from the counter on, which were not in use; each new
    movie has an empty theater listing and no room; the listings and rooms
    of the other movies and the theater table are unchanged. *)
Theorem add_movies_ok_spec (movies : list string) (s : BookingData.t) :
  store_wf s →
  (∀ name, name ∈ movies →
           name ∉ StringIdMap.strings (BookingData.movie_list s)) →
  (StringIdMap.next_id (BookingData.movie_list s) + N.of_nat (length movies)
   ≤ ULONG_MODULUS)%N →
  let ids := consecutive_ids (StringIdMap.next_id (BookingData.movie_list s))
                             (length movies) in
  ∃ s',
    BookingData.add_movies movies s = (Ok tt, s') ∧
    BookingData.get_sorted_movie_ids s'
      = BookingData.get_sorted_movie_ids s ∪ list_to_set ids ∧
    (∀ id, id ∈ ids → id ∉ BookingData.get_sorted_movie_ids s) ∧
    (∀ id, id ∈ ids →
       BookingData.get_theaters_for_movie id s' = Ok "" ∧
       ∀ theater_id, BookingData.get_available_seats id theater_id s'
                     = Throw out_of_range) ∧
    (∀ id, id ∉ ids →
       BookingData.get_theaters_for_movie id s'
         = BookingData.get_theaters_for_movie id s ∧
       ∀ theater_id, room_at s' id theater_id = room_at s id theater_id) ∧
    BookingData.theater_list s' = BookingData.theater_list s.
Proof.
  intros (Hml & _) Hfresh Hle ids.
  pose proof (add_ok _ _ Hfresh) as Hadd.
  rewrite ulong_advance_consecutive in Hadd by done. fold ids in Hadd.
  destruct (add_movies_ok _ _ _ _ Hadd) as (s' & Hrun & Hml' & Htl' & Hnew & Hold).
  destruct (add_id_strings_dom _ _ _ _ Hml Hle Hadd) as (Hids & _ & Hnone).
  exists s'. split; [done |].
  unfold BookingData.get_sorted_movie_ids,
    BookingData.get_theaters_for_movie, BookingData.get_available_seats,
    room_at, map_at.
  rewrite !get_sorted_keys_dom, Hml'.
  split; [| split; [| split; [| split]]].
  - apply set_eq. intros id.
    rewrite elem_of_union, !elem_of_dom, elem_of_list_to_set. apply Hids.
  - intros id Hid. rewrite not_elem_of_dom. by apply Hnone.
  - intros id Hid. destruct (Hnew id Hid) as [-> ->]. split; [done |].
    intros t. by rewrite lookup_empty.
  - intros id Hid. by destruct (Hold id Hid) as [-> ->].
  - done.
Qed.

Lemma add_movies_ok_spec_witness :
  ∃ s',
    BookingData.add_movies ["M"; "N"] BookingData.new = (Ok tt, s') ∧
    BookingData.get_sorted_movie_ids s' = {[ 1%N; 2%N ]} ∧
    BookingData.get_theaters_for_movie 2 s' = Ok "".
Proof.
  destruct (add_movies_ok_spec ["M"; "N"] BookingData.new)
    as (s' & Hrun & Hids & _ & Hnew & _).
  - apply store_wf_new.
  - intros name _. by vm_compute.
  - by vm_compute.
  - exists s'. split; [done |]. split.
    + rewrite Hids. by vm_compute.
    + apply Hnew. apply list_elem_of_In. vm_compute. tauto.
Defined.

(** *** The commands *)

Lemma get_available_seats_room_at (movie_id theater_id : N)
    (s : BookingData.t) :
  BookingData.get_available_seats movie_id theater_id s
  = match room_at s movie_id theater_id with
    | Some room => Ok (CinemaRoom.seat_cache room)
    | None => Throw out_of_range
    end.
Proof.
  unfold room_at, BookingData.get_available_seats, map_at.
  destruct (BookingData.rooms s !! movie_id) as [rfm|]; [| done].
  simpl. by destruct (rfm !! theater_id).
Qed.

Lemma list_movies_wf (s : BookingData.t) :
  store_wf s →
  list_movies s
  = (name_listing (map_to_list
                     (StringIdMap.id_strings (BookingData.movie_list s))),
     OK).
Proof.
  intros (_ & _ & Hmlc & _).
  unfold list_movies, BookingData.get_movies, StringIdMap.get_id_string_list.
  by rewrite Hmlc.
Qed.

Lemma list_theaters_wf (movie_id : N) (s : BookingData.t) :
  store_wf s →
  (StringIdMap.has_id movie_id (BookingData.movie_list s) = true →
   ∃ body, list_theaters movie_id s = (body, OK) ∧
           (theaters_listing movie_id s).1 = Ok body) ∧
  (StringIdMap.has_id movie_id (BookingData.movie_list s) = false →
   list_theaters movie_id s = ("Invalid movieid" ++ CBS_EOL, INVALID_REQ)).
Proof.
  intros (_ & _ & _ & _ & Hdom & Hcache & _ & Hagree & _).
  unfold list_theaters, BookingData.get_theaters_for_movie,
    StringIdMap.has_id, map_at.
  split.
  - intros Hhas%bool_decide_eq_true.
    assert (Hin : is_Some (BookingData.rooms s !! movie_id)).
    { apply elem_of_dom. rewrite Hdom. by apply elem_of_dom. }
    apply Hagree, theaters_listing_current_iff, theaters_cache_agrees_iff
      in Hin as (ss & Hss & ->).
    eauto.
  - intros Hhas%bool_decide_eq_false.
    assert (Hnot : BookingData.theaters_per_movie_cache s !! movie_id = None).
    { apply not_elem_of_dom. rewrite Hcache, Hdom. by rewrite elem_of_dom. }
    by rewrite Hnot.
Qed.

Lemma list_seats_wf (movie_id theater_id : N) (s : BookingData.t) :
  store_wf s →
  list_seats movie_id theater_id s
  = match room_at s movie_id theater_id with
    | Some room =>
        (seat_listing (available_indices (CinemaRoom.seat_available room)),
         OK)
    | None =>
        ("Invalid combination of movieid and theaterid" ++ CBS_EOL,
         INVALID_REQ)
    end.
Proof.
  intros (_ & _ & _ & _ & _ & _ & _ & _ & Hrooms).
  unfold list_seats. rewrite get_available_seats_room_at.
  destruct (room_at s movie_id theater_id) as [room|] eqn:Hroom; [| done].
  by destruct (Hrooms _ _ _ Hroom) as [_ ->].
Qed.

(** X18. The three listing commands on a consistent store. [list_movies]
    answers OK with one line per movie in use. [list_theaters] answers OK
    with the theater listing of the movie when the movie is in use, and
    INVALID_REQ with the text for an invalid movie id otherwise.
    [list_seats] answers OK with the listing of the free seats of the room
    when there is one, and INVALID_REQ with its text otherwise. *)
Theorem list_commands (s : BookingData.t) :
  store_wf s →
  list_movies s
    = (name_listing (map_to_list
                       (StringIdMap.id_strings (BookingData.movie_list s))),
       OK) ∧
  (∀ movie_id,
     (StringIdMap.has_id movie_id (BookingData.movie_list s) = true →
      ∃ body, list_theaters movie_id s = (body, OK) ∧
              (theaters_listing movie_id s).1 = Ok body) ∧
     (StringIdMap.has_id movie_id (BookingData.movie_list s) = false →
      list_theaters movie_id s
      = ("Invalid movieid" ++ CBS_EOL, INVALID_REQ))) ∧
  (∀ movie_id theater_id,
     (∀ room, room_at s movie_id theater_id = Some room →
        list_seats movie_id theater_id s
        = (seat_listing (available_indices (CinemaRoom.seat_available room)),
           OK)) ∧
     (room_at s movie_id theater_id = None →
      list_seats movie_id theater_id s
      = ("Invalid combination of movieid and theaterid" ++ CBS_EOL,
         INVALID_REQ))).
Proof.
  intros Hs. split; [by apply list_movies_wf |]. split.
  - intros movie_id. by apply list_theaters_wf.
  - intros movie_id theater_id. rewrite list_seats_wf by done.
    split; [by intros room -> | by intros ->].
Qed.

Lemma list_commands_witness :
  let s := (BookingData.add_theaters_to_movie 1 [1%N]
              (BookingData.add_theaters ["T"]
                 (BookingData.add_movies ["M"] BookingData.new).2).2).2 in
  list_theaters 2 s = ("Invalid movieid" ++ CBS_EOL, INVALID_REQ) ∧
  list_seats 1 2 s
  = ("Invalid combination of movieid and theaterid" ++ CBS_EOL, INVALID_REQ) ∧
  ∃ body, list_theaters 1 s = (body, OK).
Proof.
  intros s.
  assert (Hs : store_wf s).
  { apply (store_wf_add_theaters_to_movie 1%N [1%N]
             (BookingData.add_theaters ["T"]
                (BookingData.add_movies ["M"] BookingData.new).2).2);
      [| by vm_compute].
    apply store_wf_add_theaters;
      [| by apply (bool_decide_unpack _); vm_compute | by vm_compute].
    apply store_wf_add_movies;
      [apply store_wf_new | by apply (bool_decide_unpack _); vm_compute
       | by vm_compute]. }
  destruct (list_commands s Hs) as (_ & Htheaters & Hseats).
  split; [apply Htheaters; by vm_compute |].
  split; [apply Hseats; by vm_compute |].
  destruct (proj1 (Htheaters 1%N)) as (body & Hbody & _); [by vm_compute |].
  eauto.
Defined.

Lemma book_eq (movie_id theater_id : N) (seat_numbers : list N)
    (s : BookingData.t) :
  book movie_id theater_id seat_numbers s
  = match room_at s movie_id theater_id with
    | None =>
        (("Invalid movieid, theaterid or seatnumbers" ++ CBS_EOL, INVALID_REQ),
         s)
    | Some room =>
        (match (CinemaRoom.book_seats seat_numbers room).1 with
         | ACCEPTED => ("Booking OK" ++ CBS_EOL, OK)
         | NOT_AVAILABLE => ("Seats not available" ++ CBS_EOL, REJECTED)
         | INVALID =>
             ("Invalid movieid, theaterid or seatnumbers" ++ CBS_EOL,
              INVALID_REQ)
         end,
         (BookingData.book_seats movie_id theater_id seat_numbers s).2)
    end.
Proof.
  unfold book, room_at. rewrite store_book_seats_eq.
  destruct (BookingData.rooms s !! movie_id) as [rfm|]; [| done].
  simpl. destruct (rfm !! theater_id) as [room|]; [| done].
  by destruct (CinemaRoom.book_seats seat_numbers room).1.
Qed.

Lemma book_outcome (movie_id theater_id : N) (seat_numbers : list N)
    (s : BookingData.t) :
  let reply := (book movie_id theater_id seat_numbers s).1 in
  let s' := (book movie_id theater_id seat_numbers s).2 in
  (reply.2 = OK ↔
     ∃ room, room_at s movie_id theater_id = Some room ∧
             ∀ seat, seat ∈ seat_numbers →
                     CinemaRoom.seat_available room !! N.to_nat seat
                     = Some true) ∧
  (reply.2 = OK →
     reply.1 = "Booking OK" ++ CBS_EOL ∧
     ∀ room, room_at s movie_id theater_id = Some room →
       ∃ room', room_at s' movie_id theater_id = Some room' ∧
         ∀ i, i ∈ available_indices (CinemaRoom.seat_available room') ↔
              i ∈ available_indices (CinemaRoom.seat_available room) ∧
              N.of_nat i ∉ seat_numbers) ∧
  (reply.2 ≠ OK → s' = s) ∧
  (reply.2 = REJECTED →
     reply.1 = "Seats not available" ++ CBS_EOL ∧
     ∃ room seat, room_at s movie_id theater_id = Some room ∧
                  seat ∈ seat_numbers ∧
                  CinemaRoom.seat_available room !! N.to_nat seat
                  = Some false).
Proof.
  intros reply s'. subst reply s'. rewrite book_eq.
  destruct (room_at s movie_id theater_id) as [room|] eqn:Hroom.
  2: { cbn [fst snd]. split; [| split; [| split]]; try done.
       split; [done |]. by intros (? & ? & _). }
  cbn [fst snd].
  pose proof (book_seats_accepted_iff seat_numbers room) as Hacc.
  destruct (CinemaRoom.book_seats seat_numbers room).1 eqn:Hres; cbn [fst snd].
  - split; [| split; [| split]]; try done.
    + split; [| done]. intros _. exists room. split; [done |]. by apply Hacc.
    + intros _. split; [done |]. intros room0 [= <-].
      rewrite room_at_book_seats, Hroom. simpl. eexists. split; [done |].
      intros i. rewrite (book_seats_accepted _ _ Hres). cbn [snd].
      rewrite seat_available_rebuild_cache. cbn [CinemaRoom.seat_available].
      rewrite available_indices_book_mark, list_elem_of_filter. tauto.
  - assert (Hsame : (BookingData.book_seats movie_id theater_id seat_numbers
                       s).2 = s).
    { rewrite store_book_seats_eq. unfold room_at in Hroom.
      destruct (BookingData.rooms s !! movie_id) as [rfm|] eqn:Hm; [| done].
      simpl in Hroom. rewrite Hroom. cbn [snd].
      rewrite book_seats_rejected by (rewrite Hres; done).
      rewrite (insert_id rfm) by done. rewrite insert_id by done.
      by destruct s. }
    split; [| split; [| split]]; try done.
    + split; [done |]. intros (room0 & [= <-] & Hall).
      apply Hacc in Hall. congruence.
    + intros _. split; [done |].
      destruct (book_seats_verdict_NA seat_numbers room Hres)
        as (seat & Hseat & Hfalse).
      by exists room, seat.
  - assert (Hsame : (BookingData.book_seats movie_id theater_id seat_numbers
                       s).2 = s).
    { rewrite store_book_seats_eq. unfold room_at in Hroom.
      destruct (BookingData.rooms s !! movie_id) as [rfm|] eqn:Hm; [| done].
      simpl in Hroom. rewrite Hroom. cbn [snd].
      rewrite book_seats_rejected by (rewrite Hres; done).
      rewrite (insert_id rfm) by done. rewrite insert_id by done.
      by destruct s. }
    split; [| split; [| split]]; try done.
    split; [done |]. intros (room0 & [= <-] & Hall).
    apply Hacc in Hall. congruence.
Qed.

(** X19. The command [book]. Its status is OK iff the room exists and every
    requested seat exists and is free; then the body is the confirmation
    and the free seats of the room are the previous ones without the
    requested ones. With any other status the store is unchanged. The
    status REJECTED comes with its own body and only when the room exists
    and a requested seat is taken. *)
Theorem book_command (movie_id theater_id : N) (seat_numbers : list N)
    (s : BookingData.t) :
  let reply := (book movie_id theater_id seat_numbers s).1 in
  let s' := (book movie_id theater_id seat_numbers s).2 in
  (reply.2 = OK ↔
     ∃ room, room_at s movie_id theater_id = Some room ∧
             ∀ seat, seat ∈ seat_numbers →
                     CinemaRoom.seat_available room !! N.to_nat seat
                     = Some true) ∧
  (reply.2 = OK →
     reply.1 = "Booking OK" ++ CBS_EOL ∧
     ∀ room, room_at s movie_id theater_id = Some room →
       ∃ room', room_at s' movie_id theater_id = Some room' ∧
         ∀ i, i ∈ available_indices (CinemaRoom.seat_available room') ↔
              i ∈ available_indices (CinemaRoom.seat_available room) ∧
              N.of_nat i ∉ seat_numbers) ∧
  (reply.2 ≠ OK → s' = s) ∧
  (reply.2 = REJECTED →
     reply.1 = "Seats not available" ++ CBS_EOL ∧
     ∃ room seat, room_at s movie_id theater_id = Some room ∧
                  seat ∈ seat_numbers ∧
                  CinemaRoom.seat_available room !! N.to_nat seat
                  = Some false).
Proof. exact (book_outcome movie_id theater_id seat_numbers s). Qed.

Lemma book_command_witness :
  let s := (BookingData.add_theaters_to_movie 1 [1%N]
              (BookingData.add_theaters ["T"]
                 (BookingData.add_movies ["M"] BookingData.new).2).2).2 in
  (book 1 1 [3; 4]%N s).1.1 = "Booking OK" ++ CBS_EOL ∧
  (book 1 2 [3]%N s).2 = s ∧
  (book 1 1 [3]%N (book 1 1 [3; 4]%N s).2).1.1
  = "Seats not available" ++ CBS_EOL.
Proof.
  intros s. split; [| split].
  - destruct (book_command 1 1 [3; 4]%N s) as (_ & Hok & _).
    apply Hok. by vm_compute.
  - destruct (book_command 1 2 [3]%N s) as (_ & _ & Hsame & _).
    apply Hsame. by vm_compute.
  - destruct (book_command 1 1 [3]%N (book 1 1 [3; 4]%N s).2)
      as (_ & _ & _ & Hrej).
    apply Hrej. by vm_compute.
Defined.


(** *** The parser: digits and decimal numbers *)

Lemma digit_value_pretty_N_char (x : N) :
  (x < 10)%N → digit_value (pretty_N_char x) = Some x.
Proof.
  intros Hx.
  assert (x = 0 ∨ x = 1 ∨ x = 2 ∨ x = 3 ∨ x = 4 ∨ x = 5 ∨ x = 6 ∨ x = 7
          ∨ x = 8 ∨ x = 9)%N as Hcases by lia.
  repeat (destruct Hcases as [-> | Hcases]; [by vm_compute |]).
  subst. by vm_compute.
Qed.

Lemma digit_value_not_underscore (c : ascii) (d : N) :
  digit_value c = Some d → Ascii.eqb c "_"%char = false.
Proof.
  intros Hd. destruct (Ascii.eqb_spec c "_"%char) as [-> | _]; [| done].
  by vm_compute in Hd.
Qed.

Lemma all_digits_app (a b : string) :
  all_digits (a ++ b) = all_digits a && all_digits b.
Proof.
  induction a as [|c a IH]; [done |]. rewrite string_app_cons. simpl.
  by destruct (digit_value c).
Qed.

Lemma string_length_app (a b : string) :
  String.length (a ++ b) = String.length a + String.length b.
Proof.
  induction a as [|c a IH]; [done |]. rewrite string_app_cons. simpl.
  by rewrite IH.
Qed.

Lemma decimal_value_app (a : string) :
  ∀ (b : string) (acc v : N),
    decimal_value a acc = Some v →
    decimal_value (a ++ b) acc = decimal_value b v.
Proof.
  induction a as [|c a IH]; intros b acc v Ha.
  - simpl in Ha. by inversion Ha.
  - rewrite string_app_cons. simpl in *.
    destruct (digit_value c); [by apply IH | done].
Qed.

(** The digits that [pretty] writes for [x] in front of what follows. *)
Lemma pretty_N_go_run (x : N) :
  ∃ run,
    (∀ s, pretty_N_go x s = run ++ s) ∧
    all_digits run = true ∧
    ((0 < x)%N → run ≠ "") ∧
    ∀ acc, decimal_value run acc
           = Some (acc * 10 ^ N.of_nat (String.length run) + x)%N.
Proof.
  induction (N.lt_wf_0 x) as [x _ IH].
  destruct (decide (x = 0%N)) as [-> | Hpos].
  - exists "". split; [done |]. split; [done |]. split; [lia |].
    intros acc. simpl. f_equal. lia.
  - assert (Hlt : (0 < x)%N) by lia.
    destruct (IH (x `div` 10)%N) as (run & Hrun & Hdigits & _ & Hvalue).
    { by apply N.div_lt. }
    exists (run ++ String (pretty_N_char (x `mod` 10)) "").
    assert (Hmod : (x `mod` 10 < 10)%N) by (by apply N.mod_lt).
    split; [| split; [| split]].
    + intros s. rewrite pretty_N_go_step, Hrun by done.
      by rewrite string_app_assoc.
    + rewrite all_digits_app, Hdigits. simpl.
      by rewrite digit_value_pretty_N_char.
    + intros _. by destruct run.
    + intros acc. rewrite (decimal_value_app _ _ _ _ (Hvalue acc)). simpl.
      rewrite digit_value_pretty_N_char by done. f_equal.
      rewrite string_length_app. simpl.
      rewrite Nat2N.inj_add, N.pow_add_r. simpl.
      rewrite (N.div_mod x 10) at 3 by done. lia.
Qed.

Lemma pretty_N_digits (x : N) :
  all_digits (pretty x) = true ∧
  pretty x ≠ "" ∧
  decimal_value (pretty x) 0 = Some x.
Proof.
  unfold pretty, pretty_N. destruct (decide (x = 0%N)) as [-> | Hpos].
  - by vm_compute.
  - destruct (pretty_N_go_run x) as (run & Hrun & Hdigits & Hne & Hvalue).
    rewrite Hrun, string_app_nil_r.
    split; [done |]. split; [apply Hne; lia |].
    rewrite Hvalue. f_equal; lia.
Qed.

Lemma stoul_pretty (x : N) :
  stoul (pretty x)
  = if (x <? ULONG_MODULUS)%N then Ok x else Throw out_of_range.
Proof.
  destruct (pretty_N_digits x) as (_ & Hne & Hvalue). unfold stoul.
  destruct (pretty x) as [|c rest] eqn:Hp; [done |]. by rewrite Hvalue.
Qed.

Lemma stoul_lt (str : string) (value : N) :
  stoul str = Ok value → (value < ULONG_MODULUS)%N.
Proof.
  unfold stoul. destruct str as [|c rest]; [done |].
  destruct (decimal_value _ _) as [v|]; [| done].
  destruct (N.ltb_spec v ULONG_MODULUS); [| done]. by intros [= <-].
Qed.

(** *** The parser: matching *)

Lemma span_digits_app (run rest : string) :
  all_digits run = true →
  span_digits (run ++ rest)
  = (run ++ (span_digits rest).1, (span_digits rest).2).
Proof.
  induction run as [|c run IH]; intros Hrun.
  - rewrite string_app_nil_l. by destruct (span_digits rest).
  - rewrite string_app_cons. simpl in *.
    destruct (digit_value c); [| done].
    rewrite IH by done. by rewrite string_app_cons.
Qed.

Lemma span_digits_spec (input run rest : string) :
  span_digits input = (run, rest) →
  input = run ++ rest ∧ all_digits run = true.
Proof.
  revert run rest. induction input as [|c input IH]; intros run rest.
  - simpl. by intros [= <- <-].
  - simpl. destruct (digit_value c) as [d|] eqn:Hd.
    + destruct (span_digits input) as [run' rest'].
      intros [= <- <-]. destruct (IH run' rest' eq_refl) as [-> Hrun].
      split; [done |]. simpl. by rewrite Hd.
    + by intros [= <- <-].
Qed.

Lemma match_digits_spec (input run rest : string) :
  match_digits input = Some (run, rest) →
  input = run ++ rest ∧ all_digits run = true ∧ run ≠ "".
Proof.
  unfold match_digits. destruct (span_digits input) as [run' rest'] eqn:Hspan.
  apply span_digits_spec in Hspan as [-> Hrun].
  destruct run' as [|c run']; [done |]. by intros [= <- <-].
Qed.

(** A run of digits followed by the end of the input or an underscore is
    what [\d+] captures. *)
Lemma match_digits_run (run rest : string) :
  all_digits run = true →
  run ≠ "" →
  span_digits rest = ("", rest) →
  match_digits (run ++ rest) = Some (run, rest).
Proof.
  intros Hrun Hne Hrest. unfold match_digits.
  rewrite span_digits_app, Hrest by done. simpl.
  rewrite string_app_nil_r. by destruct run.
Qed.

Lemma getline_all_run (run : string) :
  ∀ (rest cur : string),
    all_digits run = true →
    getline_all (run ++ rest) cur = getline_all rest (cur ++ run).
Proof.
  induction run as [|c run IH]; intros rest cur Hrun.
  - by rewrite string_app_nil_l, string_app_nil_r.
  - rewrite string_app_cons. simpl in *.
    destruct (digit_value c) as [d|] eqn:Hd; [| done].
    rewrite (digit_value_not_underscore _ _ Hd), IH by done.
    by rewrite string_app_assoc.
Qed.

Lemma strip_prefix_app (p rest : string) :
  strip_prefix p (p ++ rest) = Some rest.
Proof.
  induction p as [|c p IH]; [by destruct rest |].
  rewrite string_app_cons. simpl. by rewrite Ascii.eqb_refl.
Qed.

Lemma span_digits_underscore (rest : string) :
  span_digits ("_" ++ rest) = ("", "_" ++ rest).
Proof. reflexivity. Qed.

Lemma match_underscore_app (rest : string) :
  match_underscore ("_" ++ rest) = Some rest.
Proof. reflexivity. Qed.

Lemma match_digits_pretty_underscore (x : N) (rest : string) :
  match_digits (pretty x ++ "_" ++ rest) = Some (pretty x, "_" ++ rest).
Proof.
  destruct (pretty_N_digits x) as (Hdigits & Hne & _).
  by apply match_digits_run.
Qed.

Lemma match_digits_pretty_end (x : N) :
  match_digits (pretty x) = Some (pretty x, "").
Proof.
  destruct (pretty_N_digits x) as (Hdigits & Hne & _).
  rewrite <- (string_app_nil_r (pretty x)) at 1. by apply match_digits_run.
Qed.

(** What follows the first number of a list of numbers joined by
    underscores. *)
Lemma join_ids_cons (x : N) (l : list N) :
  join_ids (x :: l)
  = pretty x ++ match l with [] => "" | _ :: _ => "_" ++ join_ids l end.
Proof.
  unfold join_ids. rewrite fmap_cons. destruct l as [|y l].
  - simpl. by rewrite string_app_nil_r.
  - reflexivity.
Qed.

Lemma getline_all_join_ids (ids : list N) :
  getline_all (join_ids ids) "" = pretty <$> ids.
Proof.
  induction ids as [|x l IH]; [done |].
  destruct (pretty_N_digits x) as (Hdigits & Hne & _).
  rewrite join_ids_cons, getline_all_run, string_app_nil_l by done.
  rewrite fmap_cons. destruct l as [|y l].
  - simpl. by rewrite decide_False.
  - rewrite string_app_cons, string_app_nil_l.
    cbn [getline_all]. change (Ascii.eqb "_" "_") with true. cbv iota.
    by rewrite IH.
Qed.

Lemma match_more_seats_join_ids (n : nat) :
  ∀ l : list N,
    (length l ≤ n)%nat →
    match_more_seats n
      (match l with [] => "" | _ :: _ => "_" ++ join_ids l end) = true.
Proof.
  induction n as [|n IH]; intros [|x l] Hlen; try done.
  - simpl in Hlen. lia.
  - rewrite string_app_cons, string_app_nil_l.
    cbn [match_more_seats match_underscore].
    change (Ascii.eqb "_" "_") with true. cbv iota.
    rewrite join_ids_cons.
    destruct (pretty_N_digits x) as (Hdigits & Hne & _).
    rewrite match_digits_run; [| done | done |].
    + apply IH. simpl in Hlen. lia.
    + by destruct l.
Qed.

Lemma parse_request_book_loop_ok (movie_id theater_id : N) (seats : list N) :
  ∀ seat_numbers : list N,
    Forall (λ seat, (seat < ULONG_MODULUS)%N) seats →
    NoDup (seat_numbers ++ seats) →
    parse_request_book_loop movie_id theater_id (pretty <$> seats)
                            seat_numbers
    = Ok (Request.RequestBook movie_id theater_id (seat_numbers ++ seats)).
Proof.
  induction seats as [|seat rest IH]; intros acc Hlt Hnd.
  - simpl. by rewrite app_nil_r.
  - rewrite fmap_cons. cbn [parse_request_book_loop]. rewrite stoul_pretty.
    apply Forall_cons in Hlt as [Hseat Hrest].
    apply N.ltb_lt in Hseat as ->.
    rewrite decide_False.
    + rewrite IH; [| done | by rewrite <- app_assoc].
      by rewrite <- app_assoc.
    + apply NoDup_app in Hnd as (_ & Hdisj & _). intros Hin.
      apply (Hdisj seat Hin), list_elem_of_here.
Qed.

Lemma REGEX_BOOK_book_target (movie_id theater_id : N) (seats : list N) :
  (1 ≤ length seats ≤ 20)%nat →
  REGEX_BOOK (book_target movie_id theater_id seats)
  = Some (pretty movie_id, pretty theater_id, join_ids seats).
Proof.
  intros Hlen. unfold REGEX_BOOK, book_target.
  rewrite strip_prefix_app. cbn [mbind option_bind].
  rewrite match_digits_pretty_underscore. cbn [mbind option_bind].
  rewrite match_underscore_app. cbn [mbind option_bind].
  rewrite match_digits_pretty_underscore. cbn [mbind option_bind].
  rewrite match_underscore_app. cbn [mbind option_bind].
  destruct seats as [|seat rest]; [simpl in Hlen; lia |].
  destruct (pretty_N_digits seat) as (Hdigits & Hne & _).
  rewrite join_ids_cons at 1.
  rewrite match_digits_run; [| done | done | by destruct rest].
  cbn [mbind option_bind].
  rewrite match_more_seats_join_ids; [done |]. simpl in Hlen. lia.
Qed.

Lemma parse_request_listtheaters_target (movie_id : N) :
  (movie_id < ULONG_MODULUS)%N →
  parse_request (listtheaters_target movie_id)
  = Request.RequestListTheaters movie_id.
Proof.
  intros Hm. unfold parse_request, parse_request_try.
  rewrite decide_False by (unfold listtheaters_target; by intros [=]).
  unfold regex_theaters, listtheaters_target.
  rewrite strip_prefix_app. cbn [mbind option_bind].
  rewrite match_digits_pretty_end. cbn [mbind option_bind].
  rewrite decide_True by done. rewrite stoul_pretty.
  by apply N.ltb_lt in Hm as ->.
Qed.

Lemma parse_request_listseats_target (movie_id theater_id : N) :
  (movie_id < ULONG_MODULUS)%N →
  (theater_id < ULONG_MODULUS)%N →
  parse_request (listseats_target movie_id theater_id)
  = Request.RequestListSeats movie_id theater_id.
Proof.
  intros Hm Ht. unfold parse_request, parse_request_try.
  rewrite decide_False by (unfold listseats_target; by intros [=]).
  assert (Hnot : regex_theaters (listseats_target movie_id theater_id)
                 = None) by done.
  rewrite Hnot. unfold regex_seats, listseats_target.
  rewrite strip_prefix_app. cbn [mbind option_bind].
  rewrite match_digits_pretty_underscore. cbn [mbind option_bind].
  rewrite match_underscore_app. cbn [mbind option_bind].
  rewrite match_digits_pretty_end. cbn [mbind option_bind].
  rewrite decide_True by done. rewrite !stoul_pretty.
  apply N.ltb_lt in Hm as ->. by apply N.ltb_lt in Ht as ->.
Qed.

Lemma parse_request_book_target (movie_id theater_id : N) (seats : list N) :
  (movie_id < ULONG_MODULUS)%N →
  (theater_id < ULONG_MODULUS)%N →
  Forall (λ seat, (seat < ULONG_MODULUS)%N) seats →
  NoDup seats →
  (1 ≤ length seats ≤ 20)%nat →
  parse_request (book_target movie_id theater_id seats)
  = Request.RequestBook movie_id theater_id seats.
Proof.
  intros Hm Ht Hseats Hnd Hlen.
  unfold parse_request, parse_request_try.
  rewrite decide_False by (unfold book_target; by intros [=]).
  assert (Hnot1 : regex_theaters (book_target movie_id theater_id seats)
                  = None) by done.
  assert (Hnot2 : regex_seats (book_target movie_id theater_id seats)
                  = None) by done.
  rewrite Hnot1, Hnot2, REGEX_BOOK_book_target by done.
  unfold parse_request_book. rewrite !stoul_pretty.
  apply N.ltb_lt in Hm as ->. apply N.ltb_lt in Ht as ->.
  rewrite getline_all_join_ids.
  by rewrite parse_request_book_loop_ok.
Qed.

(** X21. The parser accepts the targets of the client interface: the
    list-movies target, and the targets built from the decimal rendering of
    ids below 2^64 for theaters of a movie, for the seats of a room and for
    a booking of 1 to 20 pairwise distinct seats, each parsed to the request
    with these very numbers, the seats in the order of the target. *)
Theorem parse_request_round_trip :
  parse_request "/api/listmovies" = Request.RequestListMovies ∧
  (∀ movie_id,
     (movie_id < ULONG_MODULUS)%N →
     parse_request (listtheaters_target movie_id)
     = Request.RequestListTheaters movie_id) ∧
  (∀ movie_id theater_id,
     (movie_id < ULONG_MODULUS)%N →
     (theater_id < ULONG_MODULUS)%N →
     parse_request (listseats_target movie_id theater_id)
     = Request.RequestListSeats movie_id theater_id) ∧
  (∀ movie_id theater_id seats,
     (movie_id < ULONG_MODULUS)%N →
     (theater_id < ULONG_MODULUS)%N →
     Forall (λ seat, (seat < ULONG_MODULUS)%N) seats →
     NoDup seats →
     (1 ≤ length seats ≤ 20)%nat →
     parse_request (book_target movie_id theater_id seats)
     = Request.RequestBook movie_id theater_id seats).
Proof.
  split; [done |]. split; [| split].
  - apply parse_request_listtheaters_target.
  - apply parse_request_listseats_target.
  - apply parse_request_book_target.
Qed.

Lemma parse_request_round_trip_witness :
  parse_request (listtheaters_target 12) = Request.RequestListTheaters 12 ∧
  parse_request (book_target 1 2 [7; 9; 11]%N)
  = Request.RequestBook 1 2 [7; 9; 11]%N ∧
  book_target 1 2 [7; 9; 11]%N = "/api/book_1_2_7_9_11".
Proof.
  destruct parse_request_round_trip as (_ & Htheaters & _ & Hbook).
  split; [apply Htheaters; by vm_compute |].
  split; [| by vm_compute].
  apply Hbook.
  - reflexivity.
  - reflexivity.
  - repeat constructor.
  - by apply (bool_decide_unpack _); vm_compute.
  - simpl. lia.
Defined.

(** *** The parser: what a parsed request can be *)

Lemma getline_all_count (n : nat) :
  ∀ (rest cur : string),
    cur ≠ "" →
    match_more_seats n rest = true →
    (1 ≤ length (getline_all rest cur) ≤ S n)%nat.
Proof.
  induction n as [|n IH]; intros rest cur Hcur Hmore.
  - destruct rest as [|c rest]; [| done]. simpl.
    rewrite decide_False by done. simpl. lia.
  - destruct rest as [|c rest].
    { simpl. rewrite decide_False by done. simpl. lia. }
    cbn [match_more_seats] in Hmore.
    destruct (match_underscore (String c rest)) as [rest1|] eqn:Hu; [| done].
    destruct (match_digits rest1) as [[d rest']|] eqn:Hd; [| done].
    simpl in Hu. destruct (Ascii.eqb c "_") eqn:Hc; [| done].
    inversion Hu; subst rest1. cbn [getline_all]. rewrite Hc.
    apply match_digits_spec in Hd as (-> & Hdigits & Hne).
    rewrite getline_all_run, string_app_nil_l by done.
    specialize (IH rest' d Hne Hmore). simpl. lia.
Qed.

Lemma REGEX_BOOK_count (input g1 g2 g3 : string) :
  REGEX_BOOK input = Some (g1, g2, g3) →
  (1 ≤ length (getline_all g3 "") ≤ 20)%nat.
Proof.
  unfold REGEX_BOOK.
  destruct (strip_prefix _ input) as [r0|]; [| done]. cbn [mbind option_bind].
  destruct (match_digits r0) as [[a r1]|]; [| done]. cbn [mbind option_bind].
  destruct (match_underscore r1) as [r2|]; [| done]. cbn [mbind option_bind].
  destruct (match_digits r2) as [[b r3]|]; [| done]. cbn [mbind option_bind].
  destruct (match_underscore r3) as [r4|]; [| done]. cbn [mbind option_bind].
  destruct (match_digits r4) as [[d r5]|] eqn:Hd; [| done].
  cbn [mbind option_bind].
  destruct (match_more_seats 19 r5) eqn:Hmore; [| done].
  intros [= <- <- <-].
  apply match_digits_spec in Hd as (-> & Hdigits & Hne).
  rewrite getline_all_run, string_app_nil_l by done.
  by apply getline_all_count.
Qed.

Lemma parse_request_book_loop_sound (movie_id theater_id : N)
    (seat_strs : list string) :
  ∀ (seat_numbers : list N) (r : Request.t),
    parse_request_book_loop movie_id theater_id seat_strs seat_numbers = Ok r →
    NoDup seat_numbers →
    Forall (λ seat, (seat < ULONG_MODULUS)%N) seat_numbers →
    r = Request.RequestInvalid ∨
    ∃ seats,
      r = Request.RequestBook movie_id theater_id seats ∧
      length seats = (length seat_numbers + length seat_strs)%nat ∧
      NoDup seats ∧
      Forall (λ seat, (seat < ULONG_MODULUS)%N) seats.
Proof.
  induction seat_strs as [|seat_str rest IH]; intros acc r Hr Hnd Hlt.
  - simpl in Hr. inversion Hr; subst. right. exists acc.
    split; [done |]. split; [simpl; lia | done].
  - cbn [parse_request_book_loop] in Hr.
    destruct (stoul seat_str) as [seat|] eqn:Hseat; [| done].
    destruct (decide (seat ∈ acc)) as [Hin | Hnin].
    { inversion Hr. by left. }
    apply IH in Hr as [-> | (seats & -> & Hlen & Hnd' & Hlt')].
    + by left.
    + right. exists seats. split; [done |].
      split; [rewrite Hlen, length_app; simpl; lia | done].
    + apply NoDup_app. split; [done |]. split; [| apply NoDup_singleton].
      intros x Hx Hx'. apply list_elem_of_singleton in Hx'. by subst.
    + apply Forall_app. split; [done |]. apply Forall_singleton.
      by apply stoul_lt in Hseat.
Qed.

(** X20. What a parsed request can hold. A list-movies request comes from
    the exact target only; the ids of any request are below 2^64; a book
    request holds between 1 and 20 seat numbers, pairwise distinct and
    below 2^64. *)
Theorem parse_request_sound (input : string) :
  match parse_request input with
  | Request.RequestListMovies => input = "/api/listmovies"
  | Request.RequestListTheaters movie_id => (movie_id < ULONG_MODULUS)%N
  | Request.RequestListSeats movie_id theater_id =>
      (movie_id < ULONG_MODULUS)%N ∧ (theater_id < ULONG_MODULUS)%N
  | Request.RequestBook movie_id theater_id seats =>
      (movie_id < ULONG_MODULUS)%N ∧ (theater_id < ULONG_MODULUS)%N ∧
      Forall (λ seat, (seat < ULONG_MODULUS)%N) seats ∧
      NoDup seats ∧
      (1 ≤ length seats ≤ 20)%nat
  | Request.RequestInvalid => True
  end.
Proof.
  unfold parse_request, parse_request_try.
  destruct (decide (input = "/api/listmovies")) as [-> | _]; [done |].
  destruct (regex_theaters input) as [g1|].
  { destruct (stoul g1) as [movie_id|] eqn:Hm; [| done].
    by apply stoul_lt in Hm. }
  destruct (regex_seats input) as [[g1 g2]|].
  { destruct (stoul g1) as [movie_id|] eqn:Hm; [| done].
    destruct (stoul g2) as [theater_id|] eqn:Ht; [| done].
    apply stoul_lt in Hm, Ht. done. }
  destruct (REGEX_BOOK input) as [[[g1 g2] g3]|] eqn:Hregex; [| done].
  apply REGEX_BOOK_count in Hregex. unfold parse_request_book.
  destruct (stoul g1) as [movie_id|] eqn:Hm; [| done].
  destruct (stoul g2) as [theater_id|] eqn:Ht; [| done].
  destruct (parse_request_book_loop _ _ _ _) as [r|] eqn:Hloop; [| done].
  apply parse_request_book_loop_sound in Hloop
    as [-> | (seats & -> & Hlen & Hnd & Hlt)];
    [done | | apply NoDup_nil_2 | apply Forall_nil_2].
  apply stoul_lt in Hm, Ht. simpl in Hlen. rewrite Hlen. done.
Qed.

Lemma match_more_seats_too_many (n : nat) :
  ∀ l : list N,
    (n < length l)%nat →
    match_more_seats n
      (match l with [] => "" | _ :: _ => "_" ++ join_ids l end) = false.
Proof.
  induction n as [|n IH]; intros [|x l] Hlen; try (simpl in Hlen; lia).
  - reflexivity.
  - rewrite string_app_cons, string_app_nil_l.
    cbn [match_more_seats match_underscore].
    change (Ascii.eqb "_" "_") with true. cbv iota.
    rewrite join_ids_cons.
    destruct (pretty_N_digits x) as (Hdigits & Hne & _).
    rewrite match_digits_run; [| done | done |].
    + apply IH. simpl in Hlen. lia.
    + by destruct l.
Qed.

Lemma REGEX_BOOK_book_target_bad (movie_id theater_id : N) (seats : list N) :
  seats = [] ∨ (20 < length seats)%nat →
  REGEX_BOOK (book_target movie_id theater_id seats) = None.
Proof.
  intros Hbad. unfold REGEX_BOOK, book_target.
  rewrite strip_prefix_app. cbn [mbind option_bind].
  rewrite match_digits_pretty_underscore. cbn [mbind option_bind].
  rewrite match_underscore_app. cbn [mbind option_bind].
  rewrite match_digits_pretty_underscore. cbn [mbind option_bind].
  rewrite match_underscore_app. cbn [mbind option_bind].
  destruct seats as [|seat rest]; [done |].
  destruct Hbad as [? | Hlen]; [done |].
  destruct (pretty_N_digits seat) as (Hdigits & Hne & _).
  rewrite join_ids_cons at 1.
  rewrite match_digits_run; [| done | done | by destruct rest].
  cbn [mbind option_bind].
  rewrite match_more_seats_too_many; [done |]. simpl in Hlen. lia.
Qed.

Lemma parse_request_book_loop_bad (movie_id theater_id : N) (seats : list N) :
  ∀ (seat_numbers : list N) (r : Request.t),
    ¬ (Forall (λ seat, (seat < ULONG_MODULUS)%N) seats ∧
       NoDup (seat_numbers ++ seats)) →
    NoDup seat_numbers →
    parse_request_book_loop movie_id theater_id (pretty <$> seats)
                            seat_numbers = Ok r →
    r = Request.RequestInvalid.
Proof.
  induction seats as [|seat rest IH]; intros acc r Hbad Hnd Hr.
  - destruct Hbad. split; [done | by rewrite app_nil_r].
  - rewrite fmap_cons in Hr. cbn [parse_request_book_loop] in Hr.
    rewrite stoul_pretty in Hr.
    destruct (N.ltb_spec seat ULONG_MODULUS) as [Hlt | Hge]; [| done].
    destruct (decide (seat ∈ acc)) as [Hin | Hnin]; [by inversion Hr |].
    apply IH in Hr; [done | |].
    + intros [Hall Hnd']. apply Hbad. split; [by apply Forall_cons |].
      by rewrite <- app_assoc in Hnd'.
    + apply NoDup_app. split; [done |]. split; [| apply NoDup_singleton].
      intros x Hx Hx'. apply list_elem_of_singleton in Hx'. by subst.
Qed.

(** X22. Well-shaped targets that the parser rejects: an id that does not
    fit 64 bits in any of the three kinds of target, and a booking with no
    seat, with more than 20 seats or with a repeated seat number. *)
Theorem parse_request_rejects :
  (∀ movie_id,
     (ULONG_MODULUS ≤ movie_id)%N →
     parse_request (listtheaters_target movie_id) = Request.RequestInvalid) ∧
  (∀ movie_id theater_id,
     (ULONG_MODULUS ≤ movie_id)%N ∨ (ULONG_MODULUS ≤ theater_id)%N →
     parse_request (listseats_target movie_id theater_id)
     = Request.RequestInvalid) ∧
  (∀ movie_id theater_id seats,
     seats = [] ∨ (20 < length seats)%nat ∨ ¬ NoDup seats ∨
     (ULONG_MODULUS ≤ movie_id)%N ∨ (ULONG_MODULUS ≤ theater_id)%N ∨
     ¬ Forall (λ seat, (seat < ULONG_MODULUS)%N) seats →
     parse_request (book_target movie_id theater_id seats)
     = Request.RequestInvalid).
Proof.
  split; [| split].
  - intros movie_id Hm. unfold parse_request, parse_request_try.
    rewrite decide_False by (unfold listtheaters_target; by intros [=]).
    unfold regex_theaters, listtheaters_target.
    rewrite strip_prefix_app. cbn [mbind option_bind].
    rewrite match_digits_pretty_end. cbn [mbind option_bind].
    rewrite decide_True by done. rewrite stoul_pretty.
    by destruct (N.ltb_spec movie_id ULONG_MODULUS); [lia |].
  - intros movie_id theater_id Hbad. unfold parse_request, parse_request_try.
    rewrite decide_False by (unfold listseats_target; by intros [=]).
    assert (Hnot : regex_theaters (listseats_target movie_id theater_id)
                   = None) by done.
    rewrite Hnot. unfold regex_seats, listseats_target.
    rewrite strip_prefix_app. cbn [mbind option_bind].
    rewrite match_digits_pretty_underscore. cbn [mbind option_bind].
    rewrite match_underscore_app. cbn [mbind option_bind].
    rewrite match_digits_pretty_end. cbn [mbind option_bind].
    rewrite decide_True by done. rewrite !stoul_pretty.
    destruct (N.ltb_spec movie_id ULONG_MODULUS); [| done].
    destruct (N.ltb_spec theater_id ULONG_MODULUS); [lia | done].
  - intros movie_id theater_id seats Hbad.
    unfold parse_request, parse_request_try.
    rewrite decide_False by (unfold book_target; by intros [=]).
    assert (Hnot1 : regex_theaters (book_target movie_id theater_id seats)
                    = None) by done.
    assert (Hnot2 : regex_seats (book_target movie_id theater_id seats)
                    = None) by done.
    rewrite Hnot1, Hnot2.
    destruct (decide (seats = [] ∨ (20 < length seats)%nat)) as [Hlen | Hlen].
    { by rewrite REGEX_BOOK_book_target_bad. }
    rewrite REGEX_BOOK_book_target.
    2: { destruct seats; [tauto | simpl in *; lia]. }
    unfold parse_request_book. rewrite !stoul_pretty.
    destruct (N.ltb_spec movie_id ULONG_MODULUS); [| done].
    destruct (N.ltb_spec theater_id ULONG_MODULUS); [| done].
    rewrite getline_all_join_ids.
    destruct (parse_request_book_loop _ _ _ _) as [r|] eqn:Hloop; [| done].
    apply parse_request_book_loop_bad in Hloop; [done | | apply NoDup_nil_2].
    rewrite app_nil_l. intros [Hall Hnd].
    destruct Hbad as [? | [? | [? | [? | [? | ?]]]]]; try tauto; lia.
Qed.

Lemma parse_request_rejects_witness :
  parse_request (book_target 1 2 [8; 8]%N) = Request.RequestInvalid ∧
  parse_request (listtheaters_target (2 ^ 64)%N) = Request.RequestInvalid.
Proof.
  destruct parse_request_rejects as (Htheaters & _ & Hbook).
  split.
  - apply Hbook. right. right. left. intros Hnd.
    apply NoDup_cons in Hnd as [Hnin _]. apply Hnin, list_elem_of_here.
  - apply Htheaters. by vm_compute.
Defined.

(** *** From the target of a request to the reply *)

Lemma translate_command_status_ok (command_status : CommandStatus) :
  translate_command_status command_status = http_ok ↔ command_status = OK.
Proof. by destruct command_status. Qed.

Lemma handle_command_eq (iteration_order : list N → list N) (target : string)
    (s : BookingData.t) :
  handle_command iteration_order target s
  = let r := Request.execute
               (iterate_seats iteration_order (parse_request target)) s in
    ((translate_command_status r.1.2, r.1.1), r.2).
Proof.
  unfold handle_command.
  by destruct (Request.execute _ s) as [[body command_status] s'].
Qed.

(** X23. A booking from its target to the reply, for any order in which the
    parsed set of seats is iterated. For a target built from ids below
    2^64 and 1 to 20 pairwise distinct seats, the reply has the HTTP status
    ok iff the room exists and every requested seat exists and is free;
    then the body is the confirmation and the free seats of the room are
    the previous ones without the requested ones; with any other status
    the store is unchanged. *)
Theorem handle_command_book (iteration_order : list N → list N)
    (movie_id theater_id : N) (seats : list N) (s : BookingData.t) :
  (∀ l, iteration_order l ≡ₚ l) →
  (movie_id < ULONG_MODULUS)%N →
  (theater_id < ULONG_MODULUS)%N →
  Forall (λ seat, (seat < ULONG_MODULUS)%N) seats →
  NoDup seats →
  (1 ≤ length seats ≤ 20)%nat →
  let reply :=
    (handle_command iteration_order
                    (book_target movie_id theater_id seats) s).1 in
  let s' :=
    (handle_command iteration_order
                    (book_target movie_id theater_id seats) s).2 in
  (reply.1 = http_ok ↔
     ∃ room, room_at s movie_id theater_id = Some room ∧
             ∀ seat, seat ∈ seats →
                     CinemaRoom.seat_available room !! N.to_nat seat
                     = Some true) ∧
  (reply.1 = http_ok →
     reply.2 = "Booking OK" ++ CBS_EOL ∧
     ∀ room, room_at s movie_id theater_id = Some room →
       ∃ room', room_at s' movie_id theater_id = Some room' ∧
         ∀ i, i ∈ available_indices (CinemaRoom.seat_available room') ↔
              i ∈ available_indices (CinemaRoom.seat_available room) ∧
              N.of_nat i ∉ seats) ∧
  (reply.1 ≠ http_ok → s' = s).
Proof.
  intros Horder Hm Ht Hseats Hnd Hlen reply s'. subst reply s'.
  rewrite handle_command_eq, parse_request_book_target by done.
  cbn [iterate_seats Request.execute fst snd].
  destruct (book_outcome movie_id theater_id (iteration_order seats) s)
    as (Hiff & Hok & Hsame & _).
  assert (Hin : ∀ seat, seat ∈ iteration_order seats ↔ seat ∈ seats).
  { intros seat. by rewrite Horder. }
  split; [| split].
  - rewrite translate_command_status_ok, Hiff.
    split; intros (room & Hroom & Hall); exists room; split; try done;
      intros seat Hseat; by apply Hall, Hin.
  - rewrite translate_command_status_ok. intros Hstatus.
    destruct (Hok Hstatus) as [Hbody Hrooms]. split; [done |].
    intros room Hroom. destruct (Hrooms room Hroom) as (room' & Hroom' & Hav).
    exists room'. split; [done |]. intros i. by rewrite Hav, Hin.
  - rewrite translate_command_status_ok. apply Hsame.
Qed.

Lemma handle_command_book_witness :
  let s := (BookingData.add_theaters_to_movie 1 [1%N]
              (BookingData.add_theaters ["T"]
                 (BookingData.add_movies ["M"] BookingData.new).2).2).2 in
  (handle_command reverse "/api/book_1_1_3_4" s).1
  = (http_ok, "Booking OK" ++ CBS_EOL).
Proof.
  intros s.
  destruct (handle_command_book reverse 1 1 [3; 4]%N s) as (_ & Hok & _).
  - intros l. apply reverse_Permutation.
  - reflexivity.
  - reflexivity.
  - repeat constructor.
  - by apply (bool_decide_unpack _); vm_compute.
  - simpl. lia.
  - destruct (handle_command reverse "/api/book_1_1_3_4" s) as [[status body] s']
      eqn:Hrun.
    change (book_target 1 1 [3; 4]%N) with "/api/book_1_1_3_4" in Hok.
    rewrite Hrun in Hok. cbn [fst snd] in *.
    assert (Hstatus : status = http_ok).
    { apply (f_equal (λ r, r.1.1)) in Hrun. cbn [fst] in Hrun.
      rewrite <- Hrun. by vm_compute. }
    destruct (Hok Hstatus) as [-> _]. by rewrite Hstatus.
Defined.

(** X24. What a request can do to the store, for every target. A reply
    whose status is not ok leaves the store unchanged; so does every target
    that is not parsed to a book request; the status forbidden is given to
    book requests only; a target that is parsed to an invalid request is
    answered with bad request and the text for an invalid request. *)
Theorem handle_command_store_changes (iteration_order : list N → list N)
    (target : string) (s : BookingData.t) :
  let reply := (handle_command iteration_order target s).1 in
  let s' := (handle_command iteration_order target s).2 in
  (reply.1 ≠ http_ok → s' = s) ∧
  (Request.get_type (parse_request target) ≠ Request.BOOK → s' = s) ∧
  (reply.1 = http_forbidden →
   Request.get_type (parse_request target) = Request.BOOK) ∧
  (Request.get_type (parse_request target) = Request.INVALID →
   reply = (http_bad_request, "Invalid request" ++ CBS_EOL)).
Proof.
  intros reply s'. subst reply s'. rewrite handle_command_eq.
  destruct (parse_request target) as [| m | m t | m t seats |];
    cbn [iterate_seats Request.execute Request.get_type fst snd].
  - unfold list_movies. by cbn.
  - unfold list_theaters.
    destruct (BookingData.get_theaters_for_movie m s); by cbn.
  - unfold list_seats.
    destruct (BookingData.get_available_seats m t s); by cbn.
  - destruct (book_outcome m t (iteration_order seats) s)
      as (_ & _ & Hsame & _).
    split; [| done]. rewrite translate_command_status_ok. apply Hsame.
  - by cbn.
Qed.

(** X25. The listing targets on a consistent store, from the target to the
    reply; the store is never changed. The list-movies target is answered
    with ok and one line per movie in use. For an id below 2^64 the theaters
    target is answered with ok and the theater listing of the movie when
    the movie is in use, with bad request otherwise. For ids below 2^64
    the seats target is answered with ok and the free seats of the room
    when there is one, with bad request otherwise. *)
Theorem handle_command_lists (iteration_order : list N → list N)
    (s : BookingData.t) :
  store_wf s →
  handle_command iteration_order "/api/listmovies" s
  = ((http_ok,
      name_listing (map_to_list
                      (StringIdMap.id_strings (BookingData.movie_list s)))),
     s) ∧
  (∀ movie_id,
     (movie_id < ULONG_MODULUS)%N →
     (StringIdMap.has_id movie_id (BookingData.movie_list s) = true →
      ∃ body, handle_command iteration_order (listtheaters_target movie_id) s
              = ((http_ok, body), s) ∧
              (theaters_listing movie_id s).1 = Ok body) ∧
     (StringIdMap.has_id movie_id (BookingData.movie_list s) = false →
      handle_command iteration_order (listtheaters_target movie_id) s
      = ((http_bad_request, "Invalid movieid" ++ CBS_EOL), s))) ∧
  (∀ movie_id theater_id,
     (movie_id < ULONG_MODULUS)%N →
     (theater_id < ULONG_MODULUS)%N →
     handle_command iteration_order (listseats_target movie_id theater_id) s
     = match room_at s movie_id theater_id with
       | Some room =>
           ((http_ok,
             seat_listing
               (available_indices (CinemaRoom.seat_available room))),
            s)
       | None =>
           ((http_bad_request,
             "Invalid combination of movieid and theaterid" ++ CBS_EOL),
            s)
       end).
Proof.
  intros Hs. split; [| split].
  - rewrite handle_command_eq.
    change (parse_request "/api/listmovies") with Request.RequestListMovies.
    cbn [iterate_seats Request.execute fst snd].
    by rewrite list_movies_wf.
  - intros movie_id Hm.
    rewrite handle_command_eq, parse_request_listtheaters_target by done.
    cbn [iterate_seats Request.execute fst snd].
    destruct (list_theaters_wf movie_id s Hs) as [Hyes Hno]. split.
    + intros Hhas. destruct (Hyes Hhas) as (body & -> & Hbody). eauto.
    + intros Hhas. by rewrite (Hno Hhas).
  - intros movie_id theater_id Hm Ht.
    rewrite handle_command_eq, parse_request_listseats_target by done.
    cbn [iterate_seats Request.execute fst snd].
    rewrite list_seats_wf by done.
    by destruct (room_at s movie_id theater_id).
Qed.

Lemma handle_command_lists_witness :
  let s := (BookingData.add_theaters_to_movie 1 [1%N]
              (BookingData.add_theaters ["T"]
                 (BookingData.add_movies ["M"] BookingData.new).2).2).2 in
  handle_command reverse "/api/listseats_1_2" s
  = ((http_bad_request,
      "Invalid combination of movieid and theaterid" ++ CBS_EOL), s) ∧
  handle_command reverse "/api/listmovies" s
  = ((http_ok, "1,M" ++ CBS_EOL), s).
Proof.
  intros s.
  assert (Hs : store_wf s).
  { apply (store_wf_add_theaters_to_movie 1%N [1%N]
             (BookingData.add_theaters ["T"]
                (BookingData.add_movies ["M"] BookingData.new).2).2);
      [| by vm_compute].
    apply store_wf_add_theaters;
      [| by apply (bool_decide_unpack _); vm_compute | by vm_compute].
    apply store_wf_add_movies;
      [apply store_wf_new | by apply (bool_decide_unpack _); vm_compute
       | by vm_compute]. }
  destruct (handle_command_lists reverse s Hs) as (Hmovies & _ & Hseats).
  split.
  - apply (Hseats 1%N 2%N); reflexivity.
  - rewrite Hmovies. f_equal.
Defined.

(** *** Initialisation: the pseudo-random numbers *)

Lemma lxor_uint (a b : Z) :
  (0 ≤ a < UINT_MODULUS)%Z → (0 ≤ b < UINT_MODULUS)%Z →
  (0 ≤ Z.lxor a b < UINT_MODULUS)%Z.
Proof.
  unfold UINT_MODULUS, UINT_WIDTH. intros Ha Hb.
  assert (Hnonneg : (0 ≤ Z.lxor a b)%Z) by (apply Z.lxor_nonneg; lia).
  apply Z.bounded_iff_bits_nonneg'; [done | done |].
  intros l Hl. rewrite Z.lxor_spec.
  rewrite (proj1 (Z.bounded_iff_bits_nonneg' 32 a ltac:(done) ltac:(lia))
             Ha l Hl).
  by rewrite (proj1 (Z.bounded_iff_bits_nonneg' 32 b ltac:(done) ltac:(lia))
                Hb l Hl).
Qed.

Lemma shifted_left_differs (x k : Z) :
  (0 < x < UINT_MODULUS)%Z → k = 13%Z ∨ k = 5%Z →
  x ≠ (Z.shiftl x k mod UINT_MODULUS)%Z.
Proof.
  unfold UINT_MODULUS, UINT_WIDTH.
  change (2 ^ 32)%Z with 4294967296%Z. intros Hx Hk Heq.
  rewrite Z.shiftl_mul_pow2 in Heq by lia.
  pose proof (Z.div_mod (x * 2 ^ k) 4294967296 ltac:(lia)) as Hdm.
  rewrite <- Heq in Hdm.
  generalize dependent ((x * 2 ^ k) `div` 4294967296)%Z. intros q Hq.
  destruct Hk as [-> | ->].
  - change (2 ^ 13)%Z with 8192%Z in Hq. lia.
  - change (2 ^ 5)%Z with 32%Z in Hq. lia.
Qed.

Lemma fast_random_step_ok (state : Z) :
  fast_random_state_ok state → fast_random_state_ok (fast_random_step state).
Proof.
  unfold fast_random_state_ok, fast_random_step. intros Hstate.
  pose proof (eq_refl : UINT_MODULUS = 4294967296%Z) as Hmodulus.
  set (s1 := Z.lxor state (Z.shiftl state 13 mod UINT_MODULUS)).
  set (s2 := Z.lxor s1 (Z.shiftr s1 17)).
  assert (Hne : ∀ x y, (0 ≤ Z.lxor x y)%Z → x ≠ y → (0 < Z.lxor x y)%Z).
  { intros x y Hle Hxy.
    destruct (decide (Z.lxor x y = 0%Z)) as [Hz | Hz]; [| lia].
    by apply Z.lxor_eq in Hz. }
  assert (H1 : (0 < s1 < UINT_MODULUS)%Z).
  { assert (Hr : (0 ≤ s1 < UINT_MODULUS)%Z).
    { apply lxor_uint; [lia |]. apply Z.mod_pos_bound. lia. }
    split; [| lia]. apply Hne; [lia |]. apply shifted_left_differs; auto. }
  assert (H2 : (0 < s2 < UINT_MODULUS)%Z).
  { assert (Hshr : (0 ≤ Z.shiftr s1 17 < s1)%Z).
    { rewrite Z.shiftr_div_pow2 by done.
      split; [apply Z.div_pos; lia | apply Z.div_lt; lia]. }
    assert (Hr : (0 ≤ s2 < UINT_MODULUS)%Z).
    { apply lxor_uint; lia. }
    split; [| lia]. apply Hne; lia. }
  assert (Hr : (0 ≤ Z.lxor s2 (Z.shiftl s2 5 mod UINT_MODULUS)
                < UINT_MODULUS)%Z).
  { apply lxor_uint; [lia |]. apply Z.mod_pos_bound. lia. }
  split; [| lia]. apply Hne; [lia |]. apply shifted_left_differs; auto.
Qed.

(** X26. [fast_random] on a state that is a non-zero 32-bit value returns a
    number from 0 to 127 and leaves a non-zero 32-bit value as its state, so
    the generator never gets stuck at zero; it touches neither the store
    nor the other static variable. *)
Theorem fast_random_spec (st : InitState.t) :
  fast_random_state_ok (InitState.state st) →
  ∃ r st',
    fast_random st = (Ok r, st') ∧
    (0 ≤ r < 128)%Z ∧
    fast_random_state_ok (InitState.state st') ∧
    InitState.booking_data st' = InitState.booking_data st ∧
    InitState.fixed_theaters st' = InitState.fixed_theaters st.
Proof.
  intros Hstate.
  exists (Z.land (fast_random_step (InitState.state st)) 127),
    (InitState.set_state (fast_random_step (InitState.state st)) st).
  split; [reflexivity |].
  cbn [InitState.set_state InitState.state InitState.booking_data
       InitState.fixed_theaters].
  split; [| split; [by apply fast_random_step_ok | done]].
  change 127%Z with (Z.ones 7). rewrite Z.land_ones by done.
  by apply Z.mod_pos_bound.
Qed.

Lemma fast_random_spec_witness :
  ∃ r st',
    fast_random (InitState.new BookingData.new) = (Ok r, st') ∧
    (0 ≤ r < 128)%Z ∧
    fast_random_state_ok (InitState.state st').
Proof.
  destruct (fast_random_spec (InitState.new BookingData.new))
    as (r & st' & Hrun & Hr & Hstate & _).
  - by vm_compute.
  - eauto.
Defined.

(** *** Initialisation: assigning theaters to movies *)

Lemma elem_of_unordered_insert `{EqDecision A} (x y : A) (l : list A) :
  y ∈ unordered_insert x l ↔ y = x ∨ y ∈ l.
Proof.
  unfold unordered_insert. destruct (decide (x ∈ l)) as [Hin | Hnin].
  - split; [by right | by intros [-> | ?]].
  - rewrite elem_of_app, list_elem_of_singleton. tauto.
Qed.

Lemma fixed_theaters_loop_elem (theaters : list N) :
  ∀ (count : N) (fixed : list N) (theater_id : N),
    theater_id ∈ fixed_theaters_loop theaters count fixed →
    theater_id ∈ fixed ∨ theater_id ∈ theaters.
Proof.
  induction theaters as [|x rest IH]; intros count fixed theater_id Hin.
  - by left.
  - cbn [fixed_theaters_loop] in Hin.
    destruct (10 <=? count)%N; [by left |].
    apply IH in Hin as [Hin | Hin].
    + apply elem_of_unordered_insert in Hin as [-> | Hin];
        [right; apply list_elem_of_here | by left].
    + right. by apply list_elem_of_further.
Qed.

Lemma fixed_theaters_loop_take (theaters : list N) :
  ∀ (count : N) (fixed : list N),
    (count ≤ 10)%N →
    NoDup (fixed ++ theaters) →
    fixed_theaters_loop theaters count fixed
    = (fixed ++ take (N.to_nat (10 - count)) theaters)%list.
Proof.
  induction theaters as [|x rest IH]; intros count fixed Hcount Hnd.
  - by rewrite take_nil, app_nil_r.
  - cbn [fixed_theaters_loop].
    destruct (N.leb_spec 10 count) as [Hge | Hlt].
    + replace (10 - count)%N with 0%N by lia. by rewrite app_nil_r.
    + assert (Hincr : ulong_incr count = (count + 1)%N).
      { unfold ulong_incr. apply N.mod_small.
        unfold ULONG_MODULUS, ULONG_WIDTH.
        change (2 ^ 64)%N with 18446744073709551616%N. lia. }
      assert (Hnin : x ∉ fixed).
      { apply NoDup_app in Hnd as (_ & Hdisj & _). intros Hx.
        apply (Hdisj x Hx), list_elem_of_here. }
      unfold unordered_insert. rewrite decide_False by done.
      rewrite Hincr, IH; [| lia | by rewrite <- app_assoc].
      rewrite <- app_assoc.
      replace (N.to_nat (10 - count)) with (S (N.to_nat (10 - (count + 1))))
        by lia.
      done.
Qed.

Lemma random_theaters_loop_spec (theaters : list N) :
  ∀ (random_theaters : list N) (st : InitState.t),
    ∃ chosen st',
      random_theaters_loop theaters random_theaters st = (Ok chosen, st') ∧
      InitState.booking_data st' = InitState.booking_data st ∧
      InitState.fixed_theaters st' = InitState.fixed_theaters st ∧
      ∀ theater_id, theater_id ∈ chosen →
                    theater_id ∈ random_theaters ∨ theater_id ∈ theaters.
Proof.
  induction theaters as [|x rest IH]; intros acc st.
  - exists acc, st. repeat split. by left.
  - set (st1 := InitState.set_state
                  (fast_random_step (InitState.state st)) st).
    set (acc1 := if decide (Z.land (fast_random_step (InitState.state st)) 127
                            = 0%Z)
                 then unordered_insert x acc else acc).
    destruct (IH acc1 st1) as (chosen & st' & Hrun & Hdata & Hfixed & Hin).
    exists chosen, st'. split; [exact Hrun |]. split; [done |].
    split; [done |]. intros theater_id Hchosen.
    apply Hin in Hchosen as [Hacc | Hrest].
    + subst acc1. destruct (decide _) as [_ | _]; [| by left].
      apply elem_of_unordered_insert in Hacc as [-> | Hacc];
        [right; apply list_elem_of_here | by left].
    + right. by apply list_elem_of_further.
Qed.

Lemma assign_theaters_step (movie_id : N) (theaters : list N)
    (s : BookingData.t) :
  store_wf s → rooms_fresh s →
  StringIdMap.has_id movie_id (BookingData.movie_list s) = true →
  (∀ theater_id, room_at s movie_id theater_id = None) →
  (∀ theater_id, theater_id ∈ theaters →
     StringIdMap.has_id theater_id (BookingData.theater_list s) = true) →
  ∃ s',
    BookingData.add_theaters_to_movie movie_id theaters s = (Ok tt, s') ∧
    store_wf s' ∧ rooms_fresh s' ∧
    BookingData.movie_list s' = BookingData.movie_list s ∧
    BookingData.theater_list s' = BookingData.theater_list s ∧
    (∀ theater_id,
       is_Some (room_at s' movie_id theater_id) ↔ theater_id ∈ theaters) ∧
    (∀ m t, m ≠ movie_id → room_at s' m t = room_at s m t).
Proof.
  intros Hwf Hfresh Hhas Hnone Hknown.
  destruct (add_theaters_to_movie_wf_ok movie_id theaters s Hwf Hhas)
    as (s' & Hrun & Hml & Htl & Hnew & Hother & _).
  { intros theater_id Hin. split; [by apply Hknown | apply Hnone]. }
  exists s'. split; [done |].
  split; [by eapply store_wf_add_theaters_to_movie |].
  split; [| split; [done | split; [done | split]]].
  - intros m t room Hroom.
    destruct (decide (m = movie_id)) as [-> | Hm].
    + destruct (decide (t ∈ theaters)) as [Hin | Hnin].
      * destruct (Hnew t Hin) as [Hfound _]. congruence.
      * rewrite Hother, Hnone in Hroom by auto. done.
    + rewrite Hother in Hroom by auto. by eapply Hfresh.
  - intros theater_id. split.
    + intros Hsome. destruct (decide (theater_id ∈ theaters)); [done |].
      rewrite Hother, Hnone in Hsome by auto. by destruct Hsome.
    + intros Hin. destruct (Hnew theater_id Hin) as [-> _]. eauto.
  - intros m t Hm. apply Hother. auto.
Qed.

Lemma fixed_theaters_used_elem (theaters : list N) (st : InitState.t)
    (theater_id : N) :
  (∀ t, t ∈ InitState.fixed_theaters st → t ∈ theaters) →
  theater_id ∈ fixed_theaters_used theaters st → theater_id ∈ theaters.
Proof.
  intros Hsub. unfold fixed_theaters_used.
  destruct (decide _) as [_ | _]; [| apply Hsub].
  intros [Hin | Hin]%fixed_theaters_loop_elem; [| done].
  by apply elem_of_nil in Hin.
Qed.

Lemma init_theaters_with_movies_step (id_order : list N → list N)
    (theaters : list N) (count movie : N) (st : InitState.t) :
  (∀ l, id_order l ≡ₚ l) →
  store_wf (InitState.booking_data st) →
  rooms_fresh (InitState.booking_data st) →
  StringIdMap.has_id movie
    (BookingData.movie_list (InitState.booking_data st)) = true →
  (∀ theater_id,
     room_at (InitState.booking_data st) movie theater_id = None) →
  (∀ theater_id, theater_id ∈ theaters →
     StringIdMap.has_id theater_id
       (BookingData.theater_list (InitState.booking_data st)) = true) →
  (∀ theater_id, theater_id ∈ InitState.fixed_theaters st →
                 theater_id ∈ theaters) →
  ∃ (st' : InitState.t) (assigned : list N),
    (if (count <? 10)%N
     then add_fixed_theaters_to_movie id_order movie theaters
     else add_random_theaters_to_movie id_order movie theaters) st
    = (Ok tt, st') ∧
    store_wf (InitState.booking_data st') ∧
    rooms_fresh (InitState.booking_data st') ∧
    BookingData.movie_list (InitState.booking_data st')
    = BookingData.movie_list (InitState.booking_data st) ∧
    BookingData.theater_list (InitState.booking_data st')
    = BookingData.theater_list (InitState.booking_data st) ∧
    (∀ theater_id,
       is_Some (room_at (InitState.booking_data st') movie theater_id)
       ↔ theater_id ∈ assigned) ∧
    (∀ m t, m ≠ movie →
            room_at (InitState.booking_data st') m t
            = room_at (InitState.booking_data st) m t) ∧
    (∀ theater_id, theater_id ∈ assigned → theater_id ∈ theaters) ∧
    ((count < 10)%N →
     ∀ theater_id, theater_id ∈ assigned
                   ↔ theater_id ∈ fixed_theaters_used theaters st) ∧
    fixed_theaters_used theaters st' = fixed_theaters_used theaters st ∧
    (∀ theater_id, theater_id ∈ InitState.fixed_theaters st' →
                   theater_id ∈ theaters).
Proof.
  intros Horder Hwf Hfresh Hhas Hnone Hknown Hsub.
  assert (Hiff : ∀ l x, x ∈ id_order l ↔ x ∈ l).
  { intros l x. by rewrite Horder. }
  assert (Hin : ∀ l x, x ∈ id_order l → x ∈ l) by (intros l x; apply Hiff).
  destruct (N.ltb_spec count 10) as [Hlt | Hge].
  - set (st0 := InitState.set_fixed_theaters
                  (fixed_theaters_used theaters st) st).
    assert (Hrun : add_fixed_theaters_to_movie id_order movie theaters st
                   = on_booking_data
                       (BookingData.add_theaters_to_movie
                          movie
                          (id_order (fixed_theaters_used theaters st)))
                       st0).
    { unfold add_fixed_theaters_to_movie, fixed_theaters_used. munfold.
      subst st0. unfold fixed_theaters_used.
      destruct (decide (InitState.fixed_theaters st = [])) as [Hnil | Hnn].
      - by rewrite Hnil.
      - by destruct st. }
    destruct (assign_theaters_step
                movie (id_order (fixed_theaters_used theaters st))
                (InitState.booking_data st) Hwf Hfresh Hhas Hnone)
      as (s' & Hadd & Hwf' & Hfresh' & Hml & Htl & Hnew & Hother).
    { intros theater_id Hx%Hin.
      by apply Hknown, (fixed_theaters_used_elem theaters st). }
    exists (InitState.set_booking_data s' st0),
      (id_order (fixed_theaters_used theaters st)).
    split.
    { rewrite Hrun. unfold on_booking_data.
      change (InitState.booking_data st0) with (InitState.booking_data st).
      by rewrite Hadd. }
    cbn [InitState.set_booking_data InitState.booking_data
         InitState.fixed_theaters].
    repeat (split; [done |]).
    split; [intros theater_id Hx%Hin;
            by apply (fixed_theaters_used_elem theaters st) |].
    split; [intros _ theater_id; apply Hiff |].
    split.
    + unfold fixed_theaters_used at 1.
      cbn [InitState.set_booking_data InitState.fixed_theaters].
      subst st0. cbn [InitState.set_fixed_theaters InitState.fixed_theaters].
      destruct (decide (fixed_theaters_used theaters st = []))
        as [Hnil | Hnn]; [| done].
      unfold fixed_theaters_used in *.
      by destruct (decide (InitState.fixed_theaters st = [])).
    + subst st0. cbn [InitState.set_fixed_theaters InitState.fixed_theaters].
      intros theater_id. by apply fixed_theaters_used_elem.
  - destruct (random_theaters_loop_spec theaters [] st)
      as (chosen & st0 & Hloop & Hdata & Hfixed & Hchosen).
    assert (Hwf0 : store_wf (InitState.booking_data st0)) by by rewrite Hdata.
    destruct (assign_theaters_step movie (id_order chosen)
                (InitState.booking_data st0))
      as (s' & Hadd & Hwf' & Hfresh' & Hml & Htl & Hnew & Hother);
      try (by rewrite Hdata).
    { rewrite Hdata. intros theater_id Hx%Hin. apply Hknown.
      destruct (Hchosen _ Hx) as [Hnil | ?]; [| done].
      by apply elem_of_nil in Hnil. }
    exists (InitState.set_booking_data s' st0), (id_order chosen).
    split.
    { unfold add_random_theaters_to_movie. munfold. rewrite Hloop.
      unfold on_booking_data. by rewrite Hadd. }
    cbn [InitState.set_booking_data InitState.booking_data
         InitState.fixed_theaters].
    rewrite <- Hdata.
    repeat (split; [done |]).
    split.
    { intros theater_id Hx%Hin.
      destruct (Hchosen _ Hx) as [Hnil | ?]; [| done].
      by apply elem_of_nil in Hnil. }
    split; [lia |].
    split.
    + unfold fixed_theaters_used.
      cbn [InitState.set_booking_data InitState.fixed_theaters].
      by rewrite Hfixed.
    + by rewrite Hfixed.
Qed.

Lemma init_theaters_with_movies_loop_spec (id_order : list N → list N)
    (theaters : list N) :
  (∀ l, id_order l ≡ₚ l) →
  ∀ (movies : list N) (count : N) (st : InitState.t),
    store_wf (InitState.booking_data st) →
    rooms_fresh (InitState.booking_data st) →
    NoDup movies →
    (∀ m, m ∈ movies →
       StringIdMap.has_id m
         (BookingData.movie_list (InitState.booking_data st)) = true) →
    roomless movies (InitState.booking_data st) →
    (∀ t, t ∈ theaters →
       StringIdMap.has_id t
         (BookingData.theater_list (InitState.booking_data st)) = true) →
    (∀ t, t ∈ InitState.fixed_theaters st → t ∈ theaters) →
    ∃ st',
      init_theaters_with_movies_loop id_order movies theaters count st
      = (Ok tt, st') ∧
      store_wf (InitState.booking_data st') ∧
      rooms_fresh (InitState.booking_data st') ∧
      BookingData.movie_list (InitState.booking_data st')
      = BookingData.movie_list (InitState.booking_data st) ∧
      BookingData.theater_list (InitState.booking_data st')
      = BookingData.theater_list (InitState.booking_data st) ∧
      (∀ m t, m ∉ movies →
              room_at (InitState.booking_data st') m t
              = room_at (InitState.booking_data st) m t) ∧
      (∀ m t, m ∈ movies →
              is_Some (room_at (InitState.booking_data st') m t) →
              t ∈ theaters) ∧
      (∀ i m, movies !! i = Some m →
              (count + N.of_nat i < 10)%N →
              ∀ t, is_Some (room_at (InitState.booking_data st') m t)
                   ↔ t ∈ fixed_theaters_used theaters st).
Proof.
  intros Horder.
  induction movies as [|movie rest IH];
    intros count st Hwf Hfresh Hnd Hmovies Hroomless Hknown Hsub.
  - exists st. do 6 (split; [done |]). split.
    + intros m t Hm. by apply elem_of_nil in Hm.
    + intros i m Hi. by rewrite lookup_nil in Hi.
  - apply NoDup_cons in Hnd as [Hnin Hnd].
    destruct (init_theaters_with_movies_step
                id_order theaters count movie st Horder Hwf Hfresh)
      as (st1 & assigned & Hstep & Hwf1 & Hfresh1 & Hml1 & Htl1 & Hnew
          & Hother & Hassigned & Hfixed & Hused & Hsub1); [| | done | done |].
    { apply Hmovies, list_elem_of_here. }
    { intros t. apply Hroomless, list_elem_of_here. }
    destruct (IH (ulong_incr count) st1 Hwf1 Hfresh1 Hnd)
      as (st' & Hloop & Hwf' & Hfresh' & Hml' & Htl' & Hrest & Hin & Hfirst);
      [| | | done |].
    { intros m Hm. rewrite Hml1. by apply Hmovies, list_elem_of_further. }
    { intros m t Hm. rewrite Hother by (intros ->; done).
      by apply Hroomless, list_elem_of_further. }
    { intros t Ht. rewrite Htl1. by apply Hknown. }
    exists st'. split.
    { cbn [init_theaters_with_movies_loop]. munfold. by rewrite Hstep. }
    split; [done |]. split; [done |].
    split; [by rewrite Hml', Hml1 |]. split; [by rewrite Htl', Htl1 |].
    split; [| split].
    + intros m t Hm. apply not_elem_of_cons in Hm as [Hne Hm].
      by rewrite Hrest, Hother.
    + intros m t Hm Hsome. apply elem_of_cons in Hm as [-> | Hm].
      * rewrite Hrest in Hsome by done. by apply Hassigned, Hnew.
      * by eapply Hin.
    + intros i m Hi Hcount t. destruct i as [|i]; simpl in Hi.
      * injection Hi as <-. rewrite Hrest by done.
        rewrite Hnew. apply Hfixed. lia.
      * rewrite <- Hused. apply (Hfirst i m Hi).
        unfold ulong_incr. rewrite N.mod_small; [lia |].
        unfold ULONG_MODULUS, ULONG_WIDTH.
        change (2 ^ 64)%N with 18446744073709551616%N. lia.
Qed.

Lemma elem_of_set_ascending (X : gset N) (x : N) :
  x ∈ set_ascending X ↔ x ∈ X.
Proof.
  unfold set_ascending. by rewrite merge_sort_Permutation, elem_of_elements.
Qed.

Lemma NoDup_set_ascending (X : gset N) : NoDup (set_ascending X).
Proof.
  unfold set_ascending. rewrite merge_sort_Permutation. apply NoDup_elements.
Qed.

Lemma elem_of_get_sorted_keys (m : StringIdMap.t) (id : N) :
  id ∈ StringIdMap.get_sorted_keys m ↔ StringIdMap.has_id id m = true.
Proof.
  rewrite get_sorted_keys_dom, elem_of_dom. unfold StringIdMap.has_id.
  by rewrite bool_decide_eq_true.
Qed.

(** X27. [init_theaters_with_movies] on a consistent store in which no
    movie has a room yet, with its static set empty, for any order in which
    the sets it hands over are iterated: it returns normally and leaves a
    consistent store with the same tables, in which every room is new and
    belongs to a movie and a theater in use, and each of the first ten
    movies in ascending order of id shows exactly the first ten theaters in
    ascending order of id (all of them when there are fewer). *)
Theorem init_theaters_with_movies_ok (id_order : list N → list N)
    (st : InitState.t) :
  (∀ l, id_order l ≡ₚ l) →
  store_wf (InitState.booking_data st) →
  (∀ movie_id theater_id,
     room_at (InitState.booking_data st) movie_id theater_id = None) →
  InitState.fixed_theaters st = [] →
  ∃ st',
    init_theaters_with_movies id_order st = (Ok tt, st') ∧
    store_wf (InitState.booking_data st') ∧
    rooms_fresh (InitState.booking_data st') ∧
    BookingData.movie_list (InitState.booking_data st')
    = BookingData.movie_list (InitState.booking_data st) ∧
    BookingData.theater_list (InitState.booking_data st')
    = BookingData.theater_list (InitState.booking_data st) ∧
    (∀ movie_id theater_id,
       is_Some (room_at (InitState.booking_data st') movie_id theater_id) →
       StringIdMap.has_id movie_id
         (BookingData.movie_list (InitState.booking_data st)) = true ∧
       StringIdMap.has_id theater_id
         (BookingData.theater_list (InitState.booking_data st)) = true) ∧
    (∀ (i : nat) movie_id,
       set_ascending
         (BookingData.get_sorted_movie_ids (InitState.booking_data st)) !! i
       = Some movie_id →
       (i < 10)%nat →
       ∀ theater_id,
         is_Some (room_at (InitState.booking_data st') movie_id theater_id)
         ↔ theater_id ∈ take 10 (set_ascending
                                   (BookingData.get_sorted_theater_ids
                                      (InitState.booking_data st)))).
Proof.
  intros Horder Hwf Hnone Hnil.
  set (movies := set_ascending
                   (BookingData.get_sorted_movie_ids
                      (InitState.booking_data st))).
  set (theaters := set_ascending
                     (BookingData.get_sorted_theater_ids
                        (InitState.booking_data st))).
  destruct (init_theaters_with_movies_loop_spec
              id_order theaters Horder movies 0 st Hwf)
    as (st' & Hloop & Hwf' & Hfresh' & Hml & Htl & Hrest & Hin & Hfirst).
  { intros m t room Hroom. by rewrite Hnone in Hroom. }
  { apply NoDup_set_ascending. }
  { intros m Hm%elem_of_set_ascending. by apply elem_of_get_sorted_keys. }
  { intros m t _. apply Hnone. }
  { intros t Ht%elem_of_set_ascending. by apply elem_of_get_sorted_keys. }
  { rewrite Hnil. intros t Ht. by apply elem_of_nil in Ht. }
  exists st'. split; [exact Hloop |].
  repeat (split; [done |]). split.
  - intros movie_id theater_id Hsome.
    destruct (decide (movie_id ∈ movies)) as [Hm | Hm].
    + split.
      * by apply elem_of_get_sorted_keys, elem_of_set_ascending.
      * apply elem_of_get_sorted_keys, elem_of_set_ascending.
        by apply (Hin movie_id).
    + rewrite Hrest, Hnone in Hsome by done. by destruct Hsome.
  - intros i movie_id Hi Hlt theater_id.
    rewrite (Hfirst i movie_id Hi) by lia.
    unfold fixed_theaters_used. rewrite decide_True by done.
    rewrite fixed_theaters_loop_take; [done | lia |].
    apply NoDup_set_ascending.
Qed.

Lemma init_theaters_with_movies_ok_witness :
  let s := (BookingData.add_theaters ["T"; "U"]
              (BookingData.add_movies ["M"] BookingData.new).2).2 in
  ∃ st',
    init_theaters_with_movies reverse (InitState.new s) = (Ok tt, st') ∧
    store_wf (InitState.booking_data st').
Proof.
  intros s.
  destruct (init_theaters_with_movies_ok reverse (InitState.new s))
    as (st' & Hrun & Hwf & _).
  - intros l. apply reverse_Permutation.
  - apply store_wf_add_theaters;
      [| by apply (bool_decide_unpack _); vm_compute | by vm_compute].
    apply store_wf_add_movies;
      [apply store_wf_new | by apply (bool_decide_unpack _); vm_compute
       | by vm_compute].
  - intros movie_id theater_id. unfold room_at.
    change (BookingData.rooms (InitState.booking_data (InitState.new s)))
      with (BookingData.rooms s).
    destruct (decide (movie_id = 1%N)) as [-> | Hne]; [by vm_compute |].
    replace (BookingData.rooms s !! movie_id) with (@None (gmap N CinemaRoom.t));
      [done |].
    symmetry. apply not_elem_of_dom.
    replace (dom (BookingData.rooms s)) with ({[ 1%N ]} : gset N);
      [by apply not_elem_of_singleton |].
    by apply (bool_decide_unpack _); vm_compute.
  - reflexivity.
  - eauto.
Defined.

(** *** Initialisation: the names and the whole run *)

Lemma string_app_inj (p a b : string) : p ++ a = p ++ b → a = b.
Proof.
  induction p as [|c p IH]; [done |].
  rewrite !string_app_cons. intros [= Heq]. by apply IH.
Qed.

Lemma insert_names_fresh (name : nat → string) (indices : list nat) :
  Inj eq eq name →
  NoDup indices →
  ∀ names : list string,
    (∀ idx, idx ∈ indices → name idx ∉ names) →
    fold_left (λ names idx, unordered_insert (name idx) names) indices names
    = (names ++ (name <$> indices))%list.
Proof.
  intros Hinj. induction indices as [|idx rest IH]; intros Hnd names Hfresh.
  - by rewrite app_nil_r.
  - apply NoDup_cons in Hnd as [Hnin Hnd]. cbn [fold_left].
    unfold unordered_insert at 2.
    rewrite decide_False by apply Hfresh, list_elem_of_here.
    rewrite IH; [by rewrite <- app_assoc | done |].
    intros i Hi. rewrite not_elem_of_app. split.
    + by apply Hfresh, list_elem_of_further.
    + intros Heq%list_elem_of_singleton%Hinj. by subst.
Qed.

Lemma insert_fake_names_fresh (prefix : string) (count : nat)
    (names : list string) :
  (∀ idx, prefix ++ pretty (N.of_nat idx) ∉ names) →
  insert_fake_names prefix count names
  = (names
     ++ ((λ idx, (prefix ++ pretty (N.of_nat idx))%string) <$> seq 0 count))%list.
Proof.
  intros Hfresh. unfold insert_fake_names.
  apply (insert_names_fresh (λ idx, prefix ++ pretty (N.of_nat idx))).
  - intros i j Hij%string_app_inj%(inj pretty). lia.
  - apply NoDup_seq.
  - intros idx _. apply Hfresh.
Qed.

Lemma insert_names_NoDup {A} (name : A → string) (indices : list A) :
  ∀ names : list string,
    NoDup names →
    NoDup (fold_left (λ names idx, unordered_insert (name idx) names)
                     indices names).
Proof.
  induction indices as [|idx rest IH]; intros names Hnd; [done |].
  cbn [fold_left]. apply IH. unfold unordered_insert.
  destruct (decide (name idx ∈ names)) as [Hin | Hnin]; [done |].
  apply NoDup_app. split; [done |]. split; [| apply NoDup_singleton].
  intros x Hx Hx'%list_elem_of_singleton. by subst.
Qed.

Lemma fake_movie_not_real (idx : nat) :
  "Movie " ++ pretty (N.of_nat idx) ∉ real_movies.
Proof.
  rewrite string_app_cons. unfold real_movies. intros Hin.
  repeat (apply elem_of_cons in Hin as [Heq | Hin]; [discriminate Heq |]).
  by apply elem_of_nil in Hin.
Qed.

Lemma set_ascending_consecutive_ids (n : N) (k : nat) :
  set_ascending (list_to_set (consecutive_ids n k)) = consecutive_ids n k.
Proof.
  unfold set_ascending.
  apply (StronglySorted_unique N.le).
  - apply (StronglySorted_merge_sort N.le); apply _.
  - pose proof (consecutive_ids_sorted k n) as Hsorted.
    induction Hsorted as [|x l Hl IH Hall]; constructor; [done |].
    eapply Forall_impl; [exact Hall |]. intros y Hy. simpl in Hy. lia.
  - rewrite merge_sort_Permutation.
    apply elements_list_to_set, consecutive_ids_NoDup.
Qed.

Lemma take_consecutive_ids (n : N) (j k : nat) :
  (j ≤ k)%nat → take j (consecutive_ids n k) = consecutive_ids n j.
Proof.
  intros Hjk. replace k with (j + (k - j))%nat by lia.
  rewrite consecutive_ids_app, take_app_length'; [done |].
  by rewrite length_consecutive_ids.
Qed.

Lemma lookup_consecutive_ids (n : N) (i k : nat) :
  (i < k)%nat → consecutive_ids n k !! i = Some (n + N.of_nat i)%N.
Proof.
  intros Hik. unfold consecutive_ids. rewrite list_lookup_fmap.
  by rewrite lookup_seq_lt.
Qed.

Lemma load_movies (movies : list string) :
  NoDup movies →
  (1 + N.of_nat (length movies) < ULONG_MODULUS)%N →
  ∃ s,
    BookingData.add_movies movies BookingData.new = (Ok tt, s) ∧
    store_wf s ∧
    BookingData.get_sorted_movie_ids s
    = list_to_set (consecutive_ids 1 (length movies)) ∧
    BookingData.theater_list s = StringIdMap.new ∧
    ∀ movie_id theater_id, room_at s movie_id theater_id = None.
Proof.
  intros Hnd Hlt.
  assert (Hml : BookingData.movie_list BookingData.new = StringIdMap.new)
    by by vm_compute.
  assert (Hrooms : BookingData.rooms BookingData.new = ∅) by by vm_compute.
  assert (Hfresh : ∀ name, name ∈ movies →
            name ∉ StringIdMap.strings
                     (BookingData.movie_list BookingData.new)).
  { intros name _. rewrite Hml. apply not_elem_of_empty. }
  assert (Hle : (StringIdMap.next_id StringIdMap.new
                 + N.of_nat (length movies) ≤ ULONG_MODULUS)%N).
  { cbn [StringIdMap.next_id StringIdMap.new]. lia. }
  pose proof (add_ok _ _ Hfresh) as Hadd.
  rewrite ulong_advance_consecutive in Hadd by by rewrite Hml.
  destruct (add_movies_ok _ _ _ _ Hadd)
    as (s & Hrun & Hml' & Htl' & Hnew & Hold).
  rewrite Hml in Hadd.
  destruct (add_id_strings_dom _ _ _ _ table_wf_new Hle Hadd)
    as (Hids & _ & _).
  exists s. split; [done |]. split.
  { replace s with (BookingData.add_movies movies BookingData.new).2
      by by rewrite Hrun.
    apply store_wf_add_movies; [apply store_wf_new | done |].
    rewrite Hml. simpl. lia. }
  split; [| split; [by rewrite Htl' |]].
  - unfold BookingData.get_sorted_movie_ids.
    rewrite get_sorted_keys_dom, Hml'. apply set_eq. intros id.
    rewrite elem_of_dom, elem_of_list_to_set, Hml. cbn [StringIdMap.next_id StringIdMap.new].
    rewrite Hids.
    cbn [StringIdMap.next_id StringIdMap.id_strings StringIdMap.new].
    rewrite lookup_empty.
    split; [intros [[? ?] | ?]; done | by right].
  - intros movie_id theater_id. unfold room_at.
    destruct (decide (movie_id ∈ consecutive_ids
                        (StringIdMap.next_id
                           (BookingData.movie_list BookingData.new))
                        (length movies))) as [Hin | Hnin].
    + destruct (Hnew _ Hin) as [-> _]. simpl. apply lookup_empty.
    + destruct (Hold _ Hnin) as [-> _]. by rewrite Hrooms, lookup_empty.
Qed.

Lemma load_theaters (theaters : list string) (s : BookingData.t) :
  store_wf s →
  BookingData.theater_list s = StringIdMap.new →
  NoDup theaters →
  (1 + N.of_nat (length theaters) < ULONG_MODULUS)%N →
  ∃ s',
    BookingData.add_theaters theaters s = (Ok tt, s') ∧
    store_wf s' ∧
    BookingData.movie_list s' = BookingData.movie_list s ∧
    BookingData.get_sorted_theater_ids s'
    = list_to_set (consecutive_ids 1 (length theaters)) ∧
    ∀ movie_id theater_id,
      room_at s' movie_id theater_id = room_at s movie_id theater_id.
Proof.
  intros Hwf Htl Hnd Hlt.
  assert (Hfresh : ∀ name, name ∈ theaters →
            name ∉ StringIdMap.strings (BookingData.theater_list s)).
  { intros name _. rewrite Htl. apply not_elem_of_empty. }
  assert (Hle : (StringIdMap.next_id StringIdMap.new
                 + N.of_nat (length theaters) ≤ ULONG_MODULUS)%N).
  { cbn [StringIdMap.next_id StringIdMap.new]. lia. }
  pose proof (add_ok _ _ Hfresh) as Hadd.
  rewrite ulong_advance_consecutive in Hadd by by rewrite Htl.
  pose proof (add_theaters_eq theaters s) as Hrun. rewrite Hadd in Hrun.
  rewrite Htl in Hadd.
  destruct (add_id_strings_dom _ _ _ _ table_wf_new Hle Hadd)
    as (Hids & _ & _).
  eexists. split; [exact Hrun |]. split.
  { match goal with |- store_wf ?s' =>
      replace s' with (BookingData.add_theaters theaters s).2
        by by rewrite Hrun
    end.
    apply store_wf_add_theaters; [done | done |]. rewrite Htl. simpl. lia. }
  split; [done |]. split; [| done].
  unfold BookingData.get_sorted_theater_ids.
  rewrite get_sorted_keys_dom. cbn [BookingData.set_theater_list
                                    BookingData.theater_list].
  apply set_eq. intros id.
  rewrite elem_of_dom, elem_of_list_to_set, Htl.
  cbn [StringIdMap.next_id StringIdMap.new].
  rewrite Hids.
  cbn [StringIdMap.next_id StringIdMap.id_strings StringIdMap.new].
  rewrite lookup_empty.
  split; [intros [[? ?] | ?]; done | by right].
Qed.

Lemma movie_titles_spec :
  NoDup movie_titles ∧ length movie_titles = N.to_nat 10010.
Proof.
  unfold movie_titles. split.
  - apply insert_names_NoDup, (insert_names_NoDup (λ title, title)).
    constructor.
  - assert (Hreal : fold_left (λ titles title, unordered_insert title titles)
                              real_movies [] = real_movies) by by vm_compute.
    rewrite Hreal, insert_fake_names_fresh by apply fake_movie_not_real.
    rewrite length_app, length_fmap, length_seq.
    change (length real_movies) with 10%nat. lia.
Qed.

Lemma theater_names_spec :
  NoDup theater_names ∧ length theater_names = N.to_nat 10000.
Proof.
  unfold theater_names. split.
  - apply insert_names_NoDup. constructor.
  - rewrite insert_fake_names_fresh by (intros idx; apply not_elem_of_nil).
    by rewrite app_nil_l, length_fmap, length_seq.
Qed.

(** X28. [init_booking_data] on the store and the static variables as they
    are when the process starts, for any iteration orders of the sets: it
    returns normally and leaves a consistent store whose movie ids are 1 to
    10010 and whose theater ids are 1 to 10000; every room is new, belongs
    to such a movie and theater, and each of the movies 1 to 10 shows
    exactly the theaters 1 to 10. *)
Theorem init_booking_data_ok (string_order : list string → list string)
    (id_order : list N → list N) :
  (∀ l, string_order l ≡ₚ l) →
  (∀ l, id_order l ≡ₚ l) →
  ∃ st',
    init_booking_data string_order id_order (InitState.new BookingData.new)
    = (Ok tt, st') ∧
    store_wf (InitState.booking_data st') ∧
    BookingData.get_sorted_movie_ids (InitState.booking_data st')
    = list_to_set (consecutive_ids 1 (N.to_nat 10010)) ∧
    BookingData.get_sorted_theater_ids (InitState.booking_data st')
    = list_to_set (consecutive_ids 1 (N.to_nat 10000)) ∧
    rooms_fresh (InitState.booking_data st') ∧
    (∀ movie_id theater_id,
       is_Some (room_at (InitState.booking_data st') movie_id theater_id) →
       (1 ≤ movie_id ≤ 10010)%N ∧ (1 ≤ theater_id ≤ 10000)%N) ∧
    (∀ movie_id theater_id,
       (1 ≤ movie_id ≤ 10)%N →
       is_Some (room_at (InitState.booking_data st') movie_id theater_id)
       ↔ (1 ≤ theater_id ≤ 10)%N).
Proof.
  intros Hstrings Hids.
  destruct movie_titles_spec as [Hmnd Hmlen].
  destruct theater_names_spec as [Htnd Htlen].
  assert (Hbound : ∀ k, (k ≤ 10010)%N →
            (1 + N.of_nat (N.to_nat k) < ULONG_MODULUS)%N).
  { intros k Hk. unfold ULONG_MODULUS, ULONG_WIDTH.
    change (2 ^ 64)%N with 18446744073709551616%N. lia. }
  destruct (load_movies (string_order movie_titles))
    as (s1 & Hrun1 & Hwf1 & Hmovies1 & Htl1 & Hnone1).
  { rewrite Hstrings. exact Hmnd. }
  { rewrite Hstrings, Hmlen. apply Hbound. lia. }
  destruct (load_theaters (string_order theater_names) s1 Hwf1 Htl1)
    as (s2 & Hrun2 & Hwf2 & Hml2 & Htheaters2 & Hrooms2).
  { rewrite Hstrings. exact Htnd. }
  { rewrite Hstrings, Htlen. apply Hbound. lia. }
  rewrite Hstrings, Hmlen in Hmovies1. rewrite Hstrings, Htlen in Htheaters2.
  set (movie_ids := consecutive_ids 1 (N.to_nat 10010)) in *.
  set (theater_ids := consecutive_ids 1 (N.to_nat 10000)) in *.
  assert (Hmovie_ids : ∀ x, x ∈ movie_ids ↔ (1 ≤ x ≤ 10010)%N).
  { intros x. subst movie_ids. rewrite elem_of_consecutive_ids. lia. }
  assert (Htheater_ids : ∀ x, x ∈ theater_ids ↔ (1 ≤ x ≤ 10000)%N).
  { intros x. subst theater_ids. rewrite elem_of_consecutive_ids. lia. }
  assert (Hmovie_at : ∀ x, (1 ≤ x ≤ 10)%N →
            movie_ids !! N.to_nat (x - 1) = Some x).
  { intros x Hx. subst movie_ids.
    rewrite lookup_consecutive_ids by lia. f_equal. lia. }
  assert (Htheater_take : ∀ x, x ∈ take 10 theater_ids ↔ (1 ≤ x ≤ 10)%N).
  { intros x. subst theater_ids. rewrite take_consecutive_ids by lia.
    rewrite elem_of_consecutive_ids. lia. }
  assert (Hmovie_asc : set_ascending (list_to_set movie_ids) = movie_ids)
    by apply set_ascending_consecutive_ids.
  assert (Htheater_asc : set_ascending (list_to_set theater_ids)
                         = theater_ids)
    by apply set_ascending_consecutive_ids.
  clearbody movie_ids theater_ids.
  assert (Hmovies2 : BookingData.get_sorted_movie_ids s2
                     = list_to_set movie_ids).
  { unfold BookingData.get_sorted_movie_ids. rewrite Hml2. exact Hmovies1. }
  set (st2 := InitState.set_booking_data
                s2 (InitState.set_booking_data
                      s1 (InitState.new BookingData.new))).
  destruct (init_theaters_with_movies_ok id_order st2 Hids Hwf2)
    as (st' & Hrun & Hwf' & Hfresh' & Hml' & Htl' & Hin & Hfirst).
  { intros movie_id theater_id.
    change (InitState.booking_data st2) with s2.
    rewrite Hrooms2. apply Hnone1. }
  { reflexivity. }
  change (InitState.booking_data st2) with s2 in *.
  exists st'. split.
  { unfold init_booking_data, init_movie_list, init_theater_list,
      on_booking_data. munfold.
    cbn [InitState.new InitState.set_booking_data InitState.booking_data].
    rewrite Hrun1.
    cbn [InitState.new InitState.set_booking_data InitState.booking_data].
    rewrite Hrun2. exact Hrun. }
  split; [exact Hwf' |].
  split.
  { unfold BookingData.get_sorted_movie_ids in *. rewrite Hml'.
    exact Hmovies2. }
  split.
  { unfold BookingData.get_sorted_theater_ids in *. rewrite Htl'.
    exact Htheaters2. }
  split; [exact Hfresh' |]. split.
  - intros movie_id theater_id Hsome.
    destruct (Hin _ _ Hsome) as [Hm Ht].
    apply elem_of_get_sorted_keys in Hm. apply elem_of_get_sorted_keys in Ht.
    unfold BookingData.get_sorted_movie_ids,
      BookingData.get_sorted_theater_ids in *.
    rewrite Hmovies2 in Hm. rewrite Htheaters2 in Ht.
    apply elem_of_list_to_set in Hm. apply elem_of_list_to_set in Ht.
    split; [by apply Hmovie_ids | by apply Htheater_ids].
  - intros movie_id theater_id Hm.
    rewrite (Hfirst (N.to_nat (movie_id - 1)) movie_id); [| | lia].
    + rewrite Htheaters2, Htheater_asc. apply Htheater_take.
    + rewrite Hmovies2, Hmovie_asc. by apply Hmovie_at.
Qed.

Lemma init_booking_data_ok_witness :
  ∃ st',
    init_booking_data reverse reverse (InitState.new BookingData.new)
    = (Ok tt, st') ∧
    is_Some (room_at (InitState.booking_data st') 3 7) ∧
    room_at (InitState.booking_data st') 3 11 = None.
Proof.
  destruct (init_booking_data_ok reverse reverse)
    as (st' & Hrun & _ & _ & _ & _ & _ & Hfirst).
  - intros l. apply reverse_Permutation.
  - intros l. apply reverse_Permutation.
  - exists st'. split; [exact Hrun |]. split.
    + apply Hfirst; lia.
    + apply eq_None_not_Some. rewrite Hfirst; lia.
Defined.
